(** * abs-nyt-bestsellers: a shallow embedding of [nyt-best-sellers.py]

    The script reconciles the New York Times best-seller lists with an
    Audiobookshelf (ABS) SQLite catalog.  This development embeds its pure
    text functions, the cross-list merge, the catalog queries, and the
    transactional collection sync, and states the behaviour of each.

    Text model.  A Python [str] is a sequence of Unicode code points, and
    so is a [string] here.  What Python and SQLite do with a character is
    modelled for every code point: [is_space] is [str.isspace] (the class
    of [str.split], [str.strip] and the regex [\s]), [is_word] is the regex
    class [\w], [lower] is [str.lower] with its rule for the final sigma,
    [ci_eqb] is the comparison of [re.IGNORECASE], and [sql_lower] and
    [like] are SQLite's [LOWER] and [LIKE], which fold the case of the
    ASCII letters only.  The character data are those of Unicode 14.0.0,
    the version of CPython 3.11. *)

From Stdlib Require Import List Bool Arith NArith ZArith Lia.
From Stdlib Require Strings.Byte.
From Stdlib Require Import Sorting.Sorted Sorting.Permutation.
Import ListNotations.
Local Open Scope list_scope.
Local Open Scope nat_scope.

(* ================================================================== *)
(** * Part I: definitions *)
(* ================================================================== *)

(** ** Strings of code points *)

Definition char : Set := N.

Inductive string : Set :=
| EmptyString : string
| String : char -> string -> string.

Declare Scope string_scope.
Delimit Scope string_scope with string.
Bind Scope string_scope with string.

(** String literals are read as UTF-8. *)
Fixpoint utf8_decode (fuel : nat) (l : list N) : string :=
  match fuel with
  | 0 => EmptyString
  | S fuel =>
      match l with
      | [] => EmptyString
      | b0 :: l1 =>
          if (b0 <? 128)%N then String b0 (utf8_decode fuel l1)
          else if (b0 <? 224)%N then
            match l1 with
            | b1 :: l2 =>
                String ((b0 - 192) * 64 + (b1 - 128))%N (utf8_decode fuel l2)
            | _ => EmptyString
            end
          else if (b0 <? 240)%N then
            match l1 with
            | b1 :: b2 :: l3 =>
                String ((b0 - 224) * 4096 + (b1 - 128) * 64 + (b2 - 128))%N
                       (utf8_decode fuel l3)
            | _ => EmptyString
            end
          else
            match l1 with
            | b1 :: b2 :: b3 :: l4 =>
                String ((b0 - 240) * 262144 + (b1 - 128) * 4096
                        + (b2 - 128) * 64 + (b3 - 128))%N
                       (utf8_decode fuel l4)
            | _ => EmptyString
            end
      end
  end.

Definition string_of_bytes (l : list Byte.byte) : string :=
  utf8_decode (List.length l) (map Strings.Byte.to_N l).

Definition byte_of_N (n : N) : Byte.byte :=
  match Strings.Byte.of_N n with Some b => b | None => Byte.x00 end.

Definition utf8_encode (c : char) : list Byte.byte :=
  if (c <? 128)%N then [byte_of_N c]
  else if (c <? 2048)%N then
    [byte_of_N (192 + c / 64); byte_of_N (128 + c mod 64)]
  else if (c <? 65536)%N then
    [byte_of_N (224 + c / 4096); byte_of_N (128 + (c / 64) mod 64);
     byte_of_N (128 + c mod 64)]
  else
    [byte_of_N (240 + c / 262144); byte_of_N (128 + (c / 4096) mod 64);
     byte_of_N (128 + (c / 64) mod 64); byte_of_N (128 + c mod 64)].

Fixpoint bytes_of_string (s : string) : list Byte.byte :=
  match s with
  | EmptyString => []
  | String c s' => utf8_encode c ++ bytes_of_string s'
  end.

String Notation string string_of_bytes bytes_of_string : string_scope.

Local Open Scope string_scope.

(** The character of a one-character literal. *)
Definition chr (s : string) : char :=
  match s with
  | String c _ => c
  | EmptyString => 0%N
  end.

(** Equality, order by code point (Python's [==] and [<] on [str]),
    concatenation and length. *)
Module String.

Fixpoint eqb (s t : string) : bool :=
  match s, t with
  | EmptyString, EmptyString => true
  | String c s', String d t' => N.eqb c d && eqb s' t'
  | _, _ => false
  end.

Fixpoint compare (s t : string) : comparison :=
  match s, t with
  | EmptyString, EmptyString => Eq
  | EmptyString, String _ _ => Lt
  | String _ _, EmptyString => Gt
  | String c s', String d t' =>
      match N.compare c d with
      | Eq => compare s' t'
      | ne => ne
      end
  end.

Definition leb (s t : string) : bool :=
  match compare s t with
  | Gt => false
  | _ => true
  end.

Fixpoint append (s t : string) : string :=
  match s with
  | EmptyString => t
  | String c s' => String c (append s' t)
  end.

Fixpoint length (s : string) : nat :=
  match s with
  | EmptyString => 0
  | String _ s' => S (length s')
  end.

Fixpoint get (n : nat) (s : string) : option char :=
  match s with
  | EmptyString => None
  | String c s' =>
      match n with
      | 0 => Some c
      | S n' => get n' s'
      end
  end.

Fixpoint prefix (p s : string) : bool :=
  match p with
  | EmptyString => true
  | String c p' =>
      match s with
      | EmptyString => false
      | String d s' => N.eqb c d && prefix p' s'
      end
  end.

Fixpoint concat (sep : string) (l : list string) : string :=
  match l with
  | [] => EmptyString
  | [x] => x
  | x :: l' => append x (append sep (concat sep l'))
  end.

End String.

Notation "s ++ t" := (String.append s t)
  (right associativity, at level 60) : string_scope.

(** ** Unicode character data *)

(** The code points for which [str.isalnum] holds, as closed ranges. *)
Definition alnum_ranges : list (N * N) :=
  [
   (48, 57); (65, 90); (97, 122); (170, 170); (178, 179); (181, 181);
   (185, 186); (188, 190); (192, 214); (216, 246); (248, 705); (710, 721);
   (736, 740); (748, 748); (750, 750); (880, 884); (886, 887); (890, 893);
   (895, 895); (902, 902); (904, 906); (908, 908); (910, 929); (931, 1013);
   (1015, 1153); (1162, 1327); (1329, 1366); (1369, 1369); (1376, 1416); (1488, 1514);
   (1519, 1522); (1568, 1610); (1632, 1641); (1646, 1647); (1649, 1747); (1749, 1749);
   (1765, 1766); (1774, 1788); (1791, 1791); (1808, 1808); (1810, 1839); (1869, 1957);
   (1969, 1969); (1984, 2026); (2036, 2037); (2042, 2042); (2048, 2069); (2074, 2074);
   (2084, 2084); (2088, 2088); (2112, 2136); (2144, 2154); (2160, 2183); (2185, 2190);
   (2208, 2249); (2308, 2361); (2365, 2365); (2384, 2384); (2392, 2401); (2406, 2415);
   (2417, 2432); (2437, 2444); (2447, 2448); (2451, 2472); (2474, 2480); (2482, 2482);
   (2486, 2489); (2493, 2493); (2510, 2510); (2524, 2525); (2527, 2529); (2534, 2545);
   (2548, 2553); (2556, 2556); (2565, 2570); (2575, 2576); (2579, 2600); (2602, 2608);
   (2610, 2611); (2613, 2614); (2616, 2617); (2649, 2652); (2654, 2654); (2662, 2671);
   (2674, 2676); (2693, 2701); (2703, 2705); (2707, 2728); (2730, 2736); (2738, 2739);
   (2741, 2745); (2749, 2749); (2768, 2768); (2784, 2785); (2790, 2799); (2809, 2809);
   (2821, 2828); (2831, 2832); (2835, 2856); (2858, 2864); (2866, 2867); (2869, 2873);
   (2877, 2877); (2908, 2909); (2911, 2913); (2918, 2927); (2929, 2935); (2947, 2947);
   (2949, 2954); (2958, 2960); (2962, 2965); (2969, 2970); (2972, 2972); (2974, 2975);
   (2979, 2980); (2984, 2986); (2990, 3001); (3024, 3024); (3046, 3058); (3077, 3084);
   (3086, 3088); (3090, 3112); (3114, 3129); (3133, 3133); (3160, 3162); (3165, 3165);
   (3168, 3169); (3174, 3183); (3192, 3198); (3200, 3200); (3205, 3212); (3214, 3216);
   (3218, 3240); (3242, 3251); (3253, 3257); (3261, 3261); (3293, 3294); (3296, 3297);
   (3302, 3311); (3313, 3314); (3332, 3340); (3342, 3344); (3346, 3386); (3389, 3389);
   (3406, 3406); (3412, 3414); (3416, 3425); (3430, 3448); (3450, 3455); (3461, 3478);
   (3482, 3505); (3507, 3515); (3517, 3517); (3520, 3526); (3558, 3567); (3585, 3632);
   (3634, 3635); (3648, 3654); (3664, 3673); (3713, 3714); (3716, 3716); (3718, 3722);
   (3724, 3747); (3749, 3749); (3751, 3760); (3762, 3763); (3773, 3773); (3776, 3780);
   (3782, 3782); (3792, 3801); (3804, 3807); (3840, 3840); (3872, 3891); (3904, 3911);
   (3913, 3948); (3976, 3980); (4096, 4138); (4159, 4169); (4176, 4181); (4186, 4189);
   (4193, 4193); (4197, 4198); (4206, 4208); (4213, 4225); (4238, 4238); (4240, 4249);
   (4256, 4293); (4295, 4295); (4301, 4301); (4304, 4346); (4348, 4680); (4682, 4685);
   (4688, 4694); (4696, 4696); (4698, 4701); (4704, 4744); (4746, 4749); (4752, 4784);
   (4786, 4789); (4792, 4798); (4800, 4800); (4802, 4805); (4808, 4822); (4824, 4880);
   (4882, 4885); (4888, 4954); (4969, 4988); (4992, 5007); (5024, 5109); (5112, 5117);
   (5121, 5740); (5743, 5759); (5761, 5786); (5792, 5866); (5870, 5880); (5888, 5905);
   (5919, 5937); (5952, 5969); (5984, 5996); (5998, 6000); (6016, 6067); (6103, 6103);
   (6108, 6108); (6112, 6121); (6128, 6137); (6160, 6169); (6176, 6264); (6272, 6276);
   (6279, 6312); (6314, 6314); (6320, 6389); (6400, 6430); (6470, 6509); (6512, 6516);
   (6528, 6571); (6576, 6601); (6608, 6618); (6656, 6678); (6688, 6740); (6784, 6793);
   (6800, 6809); (6823, 6823); (6917, 6963); (6981, 6988); (6992, 7001); (7043, 7072);
   (7086, 7141); (7168, 7203); (7232, 7241); (7245, 7293); (7296, 7304); (7312, 7354);
   (7357, 7359); (7401, 7404); (7406, 7411); (7413, 7414); (7418, 7418); (7424, 7615);
   (7680, 7957); (7960, 7965); (7968, 8005); (8008, 8013); (8016, 8023); (8025, 8025);
   (8027, 8027); (8029, 8029); (8031, 8061); (8064, 8116); (8118, 8124); (8126, 8126);
   (8130, 8132); (8134, 8140); (8144, 8147); (8150, 8155); (8160, 8172); (8178, 8180);
   (8182, 8188); (8304, 8305); (8308, 8313); (8319, 8329); (8336, 8348); (8450, 8450);
   (8455, 8455); (8458, 8467); (8469, 8469); (8473, 8477); (8484, 8484); (8486, 8486);
   (8488, 8488); (8490, 8493); (8495, 8505); (8508, 8511); (8517, 8521); (8526, 8526);
   (8528, 8585); (9312, 9371); (9450, 9471); (10102, 10131); (11264, 11492); (11499, 11502);
   (11506, 11507); (11517, 11517); (11520, 11557); (11559, 11559); (11565, 11565); (11568, 11623);
   (11631, 11631); (11648, 11670); (11680, 11686); (11688, 11694); (11696, 11702); (11704, 11710);
   (11712, 11718); (11720, 11726); (11728, 11734); (11736, 11742); (11823, 11823); (12293, 12295);
   (12321, 12329); (12337, 12341); (12344, 12348); (12353, 12438); (12445, 12447); (12449, 12538);
   (12540, 12543); (12549, 12591); (12593, 12686); (12690, 12693); (12704, 12735); (12784, 12799);
   (12832, 12841); (12872, 12879); (12881, 12895); (12928, 12937); (12977, 12991); (13312, 19903);
   (19968, 42124); (42192, 42237); (42240, 42508); (42512, 42539); (42560, 42606); (42623, 42653);
   (42656, 42735); (42775, 42783); (42786, 42888); (42891, 42954); (42960, 42961); (42963, 42963);
   (42965, 42969); (42994, 43009); (43011, 43013); (43015, 43018); (43020, 43042); (43056, 43061);
   (43072, 43123); (43138, 43187); (43216, 43225); (43250, 43255); (43259, 43259); (43261, 43262);
   (43264, 43301); (43312, 43334); (43360, 43388); (43396, 43442); (43471, 43481); (43488, 43492);
   (43494, 43518); (43520, 43560); (43584, 43586); (43588, 43595); (43600, 43609); (43616, 43638);
   (43642, 43642); (43646, 43695); (43697, 43697); (43701, 43702); (43705, 43709); (43712, 43712);
   (43714, 43714); (43739, 43741); (43744, 43754); (43762, 43764); (43777, 43782); (43785, 43790);
   (43793, 43798); (43808, 43814); (43816, 43822); (43824, 43866); (43868, 43881); (43888, 44002);
   (44016, 44025); (44032, 55203); (55216, 55238); (55243, 55291); (63744, 64109); (64112, 64217);
   (64256, 64262); (64275, 64279); (64285, 64285); (64287, 64296); (64298, 64310); (64312, 64316);
   (64318, 64318); (64320, 64321); (64323, 64324); (64326, 64433); (64467, 64829); (64848, 64911);
   (64914, 64967); (65008, 65019); (65136, 65140); (65142, 65276); (65296, 65305); (65313, 65338);
   (65345, 65370); (65382, 65470); (65474, 65479); (65482, 65487); (65490, 65495); (65498, 65500);
   (65536, 65547); (65549, 65574); (65576, 65594); (65596, 65597); (65599, 65613); (65616, 65629);
   (65664, 65786); (65799, 65843); (65856, 65912); (65930, 65931); (66176, 66204); (66208, 66256);
   (66273, 66299); (66304, 66339); (66349, 66378); (66384, 66421); (66432, 66461); (66464, 66499);
   (66504, 66511); (66513, 66517); (66560, 66717); (66720, 66729); (66736, 66771); (66776, 66811);
   (66816, 66855); (66864, 66915); (66928, 66938); (66940, 66954); (66956, 66962); (66964, 66965);
   (66967, 66977); (66979, 66993); (66995, 67001); (67003, 67004); (67072, 67382); (67392, 67413);
   (67424, 67431); (67456, 67461); (67463, 67504); (67506, 67514); (67584, 67589); (67592, 67592);
   (67594, 67637); (67639, 67640); (67644, 67644); (67647, 67669); (67672, 67702); (67705, 67742);
   (67751, 67759); (67808, 67826); (67828, 67829); (67835, 67867); (67872, 67897); (67968, 68023);
   (68028, 68047); (68050, 68096); (68112, 68115); (68117, 68119); (68121, 68149); (68160, 68168);
   (68192, 68222); (68224, 68255); (68288, 68295); (68297, 68324); (68331, 68335); (68352, 68405);
   (68416, 68437); (68440, 68466); (68472, 68497); (68521, 68527); (68608, 68680); (68736, 68786);
   (68800, 68850); (68858, 68899); (68912, 68921); (69216, 69246); (69248, 69289); (69296, 69297);
   (69376, 69415); (69424, 69445); (69457, 69460); (69488, 69505); (69552, 69579); (69600, 69622);
   (69635, 69687); (69714, 69743); (69745, 69746); (69749, 69749); (69763, 69807); (69840, 69864);
   (69872, 69881); (69891, 69926); (69942, 69951); (69956, 69956); (69959, 69959); (69968, 70002);
   (70006, 70006); (70019, 70066); (70081, 70084); (70096, 70106); (70108, 70108); (70113, 70132);
   (70144, 70161); (70163, 70187); (70272, 70278); (70280, 70280); (70282, 70285); (70287, 70301);
   (70303, 70312); (70320, 70366); (70384, 70393); (70405, 70412); (70415, 70416); (70419, 70440);
   (70442, 70448); (70450, 70451); (70453, 70457); (70461, 70461); (70480, 70480); (70493, 70497);
   (70656, 70708); (70727, 70730); (70736, 70745); (70751, 70753); (70784, 70831); (70852, 70853);
   (70855, 70855); (70864, 70873); (71040, 71086); (71128, 71131); (71168, 71215); (71236, 71236);
   (71248, 71257); (71296, 71338); (71352, 71352); (71360, 71369); (71424, 71450); (71472, 71483);
   (71488, 71494); (71680, 71723); (71840, 71922); (71935, 71942); (71945, 71945); (71948, 71955);
   (71957, 71958); (71960, 71983); (71999, 71999); (72001, 72001); (72016, 72025); (72096, 72103);
   (72106, 72144); (72161, 72161); (72163, 72163); (72192, 72192); (72203, 72242); (72250, 72250);
   (72272, 72272); (72284, 72329); (72349, 72349); (72368, 72440); (72704, 72712); (72714, 72750);
   (72768, 72768); (72784, 72812); (72818, 72847); (72960, 72966); (72968, 72969); (72971, 73008);
   (73030, 73030); (73040, 73049); (73056, 73061); (73063, 73064); (73066, 73097); (73112, 73112);
   (73120, 73129); (73440, 73458); (73648, 73648); (73664, 73684); (73728, 74649); (74752, 74862);
   (74880, 75075); (77712, 77808); (77824, 78894); (82944, 83526); (92160, 92728); (92736, 92766);
   (92768, 92777); (92784, 92862); (92864, 92873); (92880, 92909); (92928, 92975); (92992, 92995);
   (93008, 93017); (93019, 93025); (93027, 93047); (93053, 93071); (93760, 93846); (93952, 94026);
   (94032, 94032); (94099, 94111); (94176, 94177); (94179, 94179); (94208, 100343); (100352, 101589);
   (101632, 101640); (110576, 110579); (110581, 110587); (110589, 110590); (110592, 110882); (110928, 110930);
   (110948, 110951); (110960, 111355); (113664, 113770); (113776, 113788); (113792, 113800); (113808, 113817);
   (119520, 119539); (119648, 119672); (119808, 119892); (119894, 119964); (119966, 119967); (119970, 119970);
   (119973, 119974); (119977, 119980); (119982, 119993); (119995, 119995); (119997, 120003); (120005, 120069);
   (120071, 120074); (120077, 120084); (120086, 120092); (120094, 120121); (120123, 120126); (120128, 120132);
   (120134, 120134); (120138, 120144); (120146, 120485); (120488, 120512); (120514, 120538); (120540, 120570);
   (120572, 120596); (120598, 120628); (120630, 120654); (120656, 120686); (120688, 120712); (120714, 120744);
   (120746, 120770); (120772, 120779); (120782, 120831); (122624, 122654); (123136, 123180); (123191, 123197);
   (123200, 123209); (123214, 123214); (123536, 123565); (123584, 123627); (123632, 123641); (124896, 124902);
   (124904, 124907); (124909, 124910); (124912, 124926); (124928, 125124); (125127, 125135); (125184, 125251);
   (125259, 125259); (125264, 125273); (126065, 126123); (126125, 126127); (126129, 126132); (126209, 126253);
   (126255, 126269); (126464, 126467); (126469, 126495); (126497, 126498); (126500, 126500); (126503, 126503);
   (126505, 126514); (126516, 126519); (126521, 126521); (126523, 126523); (126530, 126530); (126535, 126535);
   (126537, 126537); (126539, 126539); (126541, 126543); (126545, 126546); (126548, 126548); (126551, 126551);
   (126553, 126553); (126555, 126555); (126557, 126557); (126559, 126559); (126561, 126562); (126564, 126564);
   (126567, 126570); (126572, 126578); (126580, 126583); (126585, 126588); (126590, 126590); (126592, 126601);
   (126603, 126619); (126625, 126627); (126629, 126633); (126635, 126651); (127232, 127244); (130032, 130041);
   (131072, 173791); (173824, 177976); (177984, 178205); (178208, 183969); (183984, 191456); (194560, 195101);
   (196608, 201546)]%N.

(** The code points with the property Cased (upper case, lower case or
    title case), as closed ranges. *)
Definition cased_ranges : list (N * N) :=
  [
   (65, 90); (97, 122); (170, 170); (181, 181); (186, 186); (192, 214);
   (216, 246); (248, 442); (444, 447); (452, 659); (661, 696); (704, 705);
   (736, 740); (837, 837); (880, 883); (886, 887); (890, 893); (895, 895);
   (902, 902); (904, 906); (908, 908); (910, 929); (931, 1013); (1015, 1153);
   (1162, 1327); (1329, 1366); (1376, 1416); (4256, 4293); (4295, 4295); (4301, 4301);
   (4304, 4346); (4349, 4351); (5024, 5109); (5112, 5117); (7296, 7304); (7312, 7354);
   (7357, 7359); (7424, 7615); (7680, 7957); (7960, 7965); (7968, 8005); (8008, 8013);
   (8016, 8023); (8025, 8025); (8027, 8027); (8029, 8029); (8031, 8061); (8064, 8116);
   (8118, 8124); (8126, 8126); (8130, 8132); (8134, 8140); (8144, 8147); (8150, 8155);
   (8160, 8172); (8178, 8180); (8182, 8188); (8305, 8305); (8319, 8319); (8336, 8348);
   (8450, 8450); (8455, 8455); (8458, 8467); (8469, 8469); (8473, 8477); (8484, 8484);
   (8486, 8486); (8488, 8488); (8490, 8493); (8495, 8500); (8505, 8505); (8508, 8511);
   (8517, 8521); (8526, 8526); (8544, 8575); (8579, 8580); (9398, 9449); (11264, 11492);
   (11499, 11502); (11506, 11507); (11520, 11557); (11559, 11559); (11565, 11565); (42560, 42605);
   (42624, 42653); (42786, 42887); (42891, 42894); (42896, 42954); (42960, 42961); (42963, 42963);
   (42965, 42969); (42997, 42998); (43000, 43002); (43824, 43866); (43868, 43880); (43888, 43967);
   (64256, 64262); (64275, 64279); (65313, 65338); (65345, 65370); (66560, 66639); (66736, 66771);
   (66776, 66811); (66928, 66938); (66940, 66954); (66956, 66962); (66964, 66965); (66967, 66977);
   (66979, 66993); (66995, 67001); (67003, 67004); (67456, 67456); (67459, 67461); (67463, 67504);
   (67506, 67514); (68736, 68786); (68800, 68850); (71840, 71903); (93760, 93823); (119808, 119892);
   (119894, 119964); (119966, 119967); (119970, 119970); (119973, 119974); (119977, 119980); (119982, 119993);
   (119995, 119995); (119997, 120003); (120005, 120069); (120071, 120074); (120077, 120084); (120086, 120092);
   (120094, 120121); (120123, 120126); (120128, 120132); (120134, 120134); (120138, 120144); (120146, 120485);
   (120488, 120512); (120514, 120538); (120540, 120570); (120572, 120596); (120598, 120628); (120630, 120654);
   (120656, 120686); (120688, 120712); (120714, 120744); (120746, 120770); (120772, 120779); (122624, 122633);
   (122635, 122654); (125184, 125251); (127280, 127305); (127312, 127337); (127344, 127369)]%N.

(** The code points with the property Case_Ignorable, as closed ranges. *)
Definition case_ignorable_ranges : list (N * N) :=
  [
   (39, 39); (46, 46); (58, 58); (94, 94); (96, 96); (168, 168);
   (173, 173); (175, 175); (180, 180); (183, 184); (688, 879); (884, 885);
   (890, 890); (900, 901); (903, 903); (1155, 1161); (1369, 1369); (1375, 1375);
   (1425, 1469); (1471, 1471); (1473, 1474); (1476, 1477); (1479, 1479); (1524, 1524);
   (1536, 1541); (1552, 1562); (1564, 1564); (1600, 1600); (1611, 1631); (1648, 1648);
   (1750, 1757); (1759, 1768); (1770, 1773); (1807, 1807); (1809, 1809); (1840, 1866);
   (1958, 1968); (2027, 2037); (2042, 2042); (2045, 2045); (2070, 2093); (2137, 2139);
   (2184, 2184); (2192, 2193); (2200, 2207); (2249, 2306); (2362, 2362); (2364, 2364);
   (2369, 2376); (2381, 2381); (2385, 2391); (2402, 2403); (2417, 2417); (2433, 2433);
   (2492, 2492); (2497, 2500); (2509, 2509); (2530, 2531); (2558, 2558); (2561, 2562);
   (2620, 2620); (2625, 2626); (2631, 2632); (2635, 2637); (2641, 2641); (2672, 2673);
   (2677, 2677); (2689, 2690); (2748, 2748); (2753, 2757); (2759, 2760); (2765, 2765);
   (2786, 2787); (2810, 2815); (2817, 2817); (2876, 2876); (2879, 2879); (2881, 2884);
   (2893, 2893); (2901, 2902); (2914, 2915); (2946, 2946); (3008, 3008); (3021, 3021);
   (3072, 3072); (3076, 3076); (3132, 3132); (3134, 3136); (3142, 3144); (3146, 3149);
   (3157, 3158); (3170, 3171); (3201, 3201); (3260, 3260); (3263, 3263); (3270, 3270);
   (3276, 3277); (3298, 3299); (3328, 3329); (3387, 3388); (3393, 3396); (3405, 3405);
   (3426, 3427); (3457, 3457); (3530, 3530); (3538, 3540); (3542, 3542); (3633, 3633);
   (3636, 3642); (3654, 3662); (3761, 3761); (3764, 3772); (3782, 3782); (3784, 3789);
   (3864, 3865); (3893, 3893); (3895, 3895); (3897, 3897); (3953, 3966); (3968, 3972);
   (3974, 3975); (3981, 3991); (3993, 4028); (4038, 4038); (4141, 4144); (4146, 4151);
   (4153, 4154); (4157, 4158); (4184, 4185); (4190, 4192); (4209, 4212); (4226, 4226);
   (4229, 4230); (4237, 4237); (4253, 4253); (4348, 4348); (4957, 4959); (5906, 5908);
   (5938, 5939); (5970, 5971); (6002, 6003); (6068, 6069); (6071, 6077); (6086, 6086);
   (6089, 6099); (6103, 6103); (6109, 6109); (6155, 6159); (6211, 6211); (6277, 6278);
   (6313, 6313); (6432, 6434); (6439, 6440); (6450, 6450); (6457, 6459); (6679, 6680);
   (6683, 6683); (6742, 6742); (6744, 6750); (6752, 6752); (6754, 6754); (6757, 6764);
   (6771, 6780); (6783, 6783); (6823, 6823); (6832, 6862); (6912, 6915); (6964, 6964);
   (6966, 6970); (6972, 6972); (6978, 6978); (7019, 7027); (7040, 7041); (7074, 7077);
   (7080, 7081); (7083, 7085); (7142, 7142); (7144, 7145); (7149, 7149); (7151, 7153);
   (7212, 7219); (7222, 7223); (7288, 7293); (7376, 7378); (7380, 7392); (7394, 7400);
   (7405, 7405); (7412, 7412); (7416, 7417); (7468, 7530); (7544, 7544); (7579, 7679);
   (8125, 8125); (8127, 8129); (8141, 8143); (8157, 8159); (8173, 8175); (8189, 8190);
   (8203, 8207); (8216, 8217); (8228, 8228); (8231, 8231); (8234, 8238); (8288, 8292);
   (8294, 8303); (8305, 8305); (8319, 8319); (8336, 8348); (8400, 8432); (11388, 11389);
   (11503, 11505); (11631, 11631); (11647, 11647); (11744, 11775); (11823, 11823); (12293, 12293);
   (12330, 12333); (12337, 12341); (12347, 12347); (12441, 12446); (12540, 12542); (40981, 40981);
   (42232, 42237); (42508, 42508); (42607, 42610); (42612, 42621); (42623, 42623); (42652, 42655);
   (42736, 42737); (42752, 42785); (42864, 42864); (42888, 42890); (42994, 42996); (43000, 43001);
   (43010, 43010); (43014, 43014); (43019, 43019); (43045, 43046); (43052, 43052); (43204, 43205);
   (43232, 43249); (43263, 43263); (43302, 43309); (43335, 43345); (43392, 43394); (43443, 43443);
   (43446, 43449); (43452, 43453); (43471, 43471); (43493, 43494); (43561, 43566); (43569, 43570);
   (43573, 43574); (43587, 43587); (43596, 43596); (43632, 43632); (43644, 43644); (43696, 43696);
   (43698, 43700); (43703, 43704); (43710, 43711); (43713, 43713); (43741, 43741); (43756, 43757);
   (43763, 43764); (43766, 43766); (43867, 43871); (43881, 43883); (44005, 44005); (44008, 44008);
   (44013, 44013); (64286, 64286); (64434, 64450); (65024, 65039); (65043, 65043); (65056, 65071);
   (65106, 65106); (65109, 65109); (65279, 65279); (65287, 65287); (65294, 65294); (65306, 65306);
   (65342, 65342); (65344, 65344); (65392, 65392); (65438, 65439); (65507, 65507); (65529, 65531);
   (66045, 66045); (66272, 66272); (66422, 66426); (67456, 67461); (67463, 67504); (67506, 67514);
   (68097, 68099); (68101, 68102); (68108, 68111); (68152, 68154); (68159, 68159); (68325, 68326);
   (68900, 68903); (69291, 69292); (69446, 69456); (69506, 69509); (69633, 69633); (69688, 69702);
   (69744, 69744); (69747, 69748); (69759, 69761); (69811, 69814); (69817, 69818); (69821, 69821);
   (69826, 69826); (69837, 69837); (69888, 69890); (69927, 69931); (69933, 69940); (70003, 70003);
   (70016, 70017); (70070, 70078); (70089, 70092); (70095, 70095); (70191, 70193); (70196, 70196);
   (70198, 70199); (70206, 70206); (70367, 70367); (70371, 70378); (70400, 70401); (70459, 70460);
   (70464, 70464); (70502, 70508); (70512, 70516); (70712, 70719); (70722, 70724); (70726, 70726);
   (70750, 70750); (70835, 70840); (70842, 70842); (70847, 70848); (70850, 70851); (71090, 71093);
   (71100, 71101); (71103, 71104); (71132, 71133); (71219, 71226); (71229, 71229); (71231, 71232);
   (71339, 71339); (71341, 71341); (71344, 71349); (71351, 71351); (71453, 71455); (71458, 71461);
   (71463, 71467); (71727, 71735); (71737, 71738); (71995, 71996); (71998, 71998); (72003, 72003);
   (72148, 72151); (72154, 72155); (72160, 72160); (72193, 72202); (72243, 72248); (72251, 72254);
   (72263, 72263); (72273, 72278); (72281, 72283); (72330, 72342); (72344, 72345); (72752, 72758);
   (72760, 72765); (72767, 72767); (72850, 72871); (72874, 72880); (72882, 72883); (72885, 72886);
   (73009, 73014); (73018, 73018); (73020, 73021); (73023, 73029); (73031, 73031); (73104, 73105);
   (73109, 73109); (73111, 73111); (73459, 73460); (78896, 78904); (92912, 92916); (92976, 92982);
   (92992, 92995); (94031, 94031); (94095, 94111); (94176, 94177); (94179, 94180); (110576, 110579);
   (110581, 110587); (110589, 110590); (113821, 113822); (113824, 113827); (118528, 118573); (118576, 118598);
   (119143, 119145); (119155, 119170); (119173, 119179); (119210, 119213); (119362, 119364); (121344, 121398);
   (121403, 121452); (121461, 121461); (121476, 121476); (121499, 121503); (121505, 121519); (122880, 122886);
   (122888, 122904); (122907, 122913); (122915, 122916); (122918, 122922); (123184, 123197); (123566, 123566);
   (123628, 123631); (125136, 125142); (125252, 125259); (127995, 127999); (917505, 917505); (917536, 917631);
   (917760, 917999)]%N.

(** The simple lower-case mapping: [(first, last, image, step)] maps the
    code points [first], [first + step], ... up to [last] to [image],
    [image + step], ....  A code point in no run is its own lower case. *)
Definition lowercase_runs : list (N * N * N * N) :=
  [
   (65, 90, 97, 1); (192, 214, 224, 1); (216, 222, 248, 1);
   (256, 302, 257, 2); (304, 304, 105, 1); (306, 310, 307, 2);
   (313, 327, 314, 2); (330, 374, 331, 2); (376, 376, 255, 1);
   (377, 381, 378, 2); (385, 385, 595, 1); (386, 388, 387, 2);
   (390, 390, 596, 1); (391, 391, 392, 1); (393, 394, 598, 1);
   (395, 395, 396, 1); (398, 398, 477, 1); (399, 399, 601, 1);
   (400, 400, 603, 1); (401, 401, 402, 1); (403, 403, 608, 1);
   (404, 404, 611, 1); (406, 406, 617, 1); (407, 407, 616, 1);
   (408, 408, 409, 1); (412, 412, 623, 1); (413, 413, 626, 1);
   (415, 415, 629, 1); (416, 420, 417, 2); (422, 422, 640, 1);
   (423, 423, 424, 1); (425, 425, 643, 1); (428, 428, 429, 1);
   (430, 430, 648, 1); (431, 431, 432, 1); (433, 434, 650, 1);
   (435, 437, 436, 2); (439, 439, 658, 1); (440, 440, 441, 1);
   (444, 444, 445, 1); (452, 452, 454, 1); (453, 453, 454, 1);
   (455, 455, 457, 1); (456, 456, 457, 1); (458, 458, 460, 1);
   (459, 475, 460, 2); (478, 494, 479, 2); (497, 497, 499, 1);
   (498, 500, 499, 2); (502, 502, 405, 1); (503, 503, 447, 1);
   (504, 542, 505, 2); (544, 544, 414, 1); (546, 562, 547, 2);
   (570, 570, 11365, 1); (571, 571, 572, 1); (573, 573, 410, 1);
   (574, 574, 11366, 1); (577, 577, 578, 1); (579, 579, 384, 1);
   (580, 580, 649, 1); (581, 581, 652, 1); (582, 590, 583, 2);
   (880, 882, 881, 2); (886, 886, 887, 1); (895, 895, 1011, 1);
   (902, 902, 940, 1); (904, 906, 941, 1); (908, 908, 972, 1);
   (910, 911, 973, 1); (913, 929, 945, 1); (931, 939, 963, 1);
   (975, 975, 983, 1); (984, 1006, 985, 2); (1012, 1012, 952, 1);
   (1015, 1015, 1016, 1); (1017, 1017, 1010, 1); (1018, 1018, 1019, 1);
   (1021, 1023, 891, 1); (1024, 1039, 1104, 1); (1040, 1071, 1072, 1);
   (1120, 1152, 1121, 2); (1162, 1214, 1163, 2); (1216, 1216, 1231, 1);
   (1217, 1229, 1218, 2); (1232, 1326, 1233, 2); (1329, 1366, 1377, 1);
   (4256, 4293, 11520, 1); (4295, 4295, 11559, 1); (4301, 4301, 11565, 1);
   (5024, 5103, 43888, 1); (5104, 5109, 5112, 1); (7312, 7354, 4304, 1);
   (7357, 7359, 4349, 1); (7680, 7828, 7681, 2); (7838, 7838, 223, 1);
   (7840, 7934, 7841, 2); (7944, 7951, 7936, 1); (7960, 7965, 7952, 1);
   (7976, 7983, 7968, 1); (7992, 7999, 7984, 1); (8008, 8013, 8000, 1);
   (8025, 8031, 8017, 2); (8040, 8047, 8032, 1); (8072, 8079, 8064, 1);
   (8088, 8095, 8080, 1); (8104, 8111, 8096, 1); (8120, 8121, 8112, 1);
   (8122, 8123, 8048, 1); (8124, 8124, 8115, 1); (8136, 8139, 8050, 1);
   (8140, 8140, 8131, 1); (8152, 8153, 8144, 1); (8154, 8155, 8054, 1);
   (8168, 8169, 8160, 1); (8170, 8171, 8058, 1); (8172, 8172, 8165, 1);
   (8184, 8185, 8056, 1); (8186, 8187, 8060, 1); (8188, 8188, 8179, 1);
   (8486, 8486, 969, 1); (8490, 8490, 107, 1); (8491, 8491, 229, 1);
   (8498, 8498, 8526, 1); (8544, 8559, 8560, 1); (8579, 8579, 8580, 1);
   (9398, 9423, 9424, 1); (11264, 11311, 11312, 1); (11360, 11360, 11361, 1);
   (11362, 11362, 619, 1); (11363, 11363, 7549, 1); (11364, 11364, 637, 1);
   (11367, 11371, 11368, 2); (11373, 11373, 593, 1); (11374, 11374, 625, 1);
   (11375, 11375, 592, 1); (11376, 11376, 594, 1); (11378, 11378, 11379, 1);
   (11381, 11381, 11382, 1); (11390, 11391, 575, 1); (11392, 11490, 11393, 2);
   (11499, 11501, 11500, 2); (11506, 11506, 11507, 1); (42560, 42604, 42561, 2);
   (42624, 42650, 42625, 2); (42786, 42798, 42787, 2); (42802, 42862, 42803, 2);
   (42873, 42875, 42874, 2); (42877, 42877, 7545, 1); (42878, 42886, 42879, 2);
   (42891, 42891, 42892, 1); (42893, 42893, 613, 1); (42896, 42898, 42897, 2);
   (42902, 42920, 42903, 2); (42922, 42922, 614, 1); (42923, 42923, 604, 1);
   (42924, 42924, 609, 1); (42925, 42925, 620, 1); (42926, 42926, 618, 1);
   (42928, 42928, 670, 1); (42929, 42929, 647, 1); (42930, 42930, 669, 1);
   (42931, 42931, 43859, 1); (42932, 42946, 42933, 2); (42948, 42948, 42900, 1);
   (42949, 42949, 642, 1); (42950, 42950, 7566, 1); (42951, 42953, 42952, 2);
   (42960, 42960, 42961, 1); (42966, 42968, 42967, 2); (42997, 42997, 42998, 1);
   (65313, 65338, 65345, 1); (66560, 66599, 66600, 1); (66736, 66771, 66776, 1);
   (66928, 66938, 66967, 1); (66940, 66954, 66979, 1); (66956, 66962, 66995, 1);
   (66964, 66965, 67003, 1); (68736, 68786, 68800, 1); (71840, 71871, 71872, 1);
   (93760, 93791, 93792, 1); (125184, 125217, 125218, 1)]%N.

Definition in_ranges (ranges : list (N * N)) (c : char) : bool :=
  existsb (fun '(first, last) => (first <=? c)%N && (c <=? last)%N) ranges.

(** The pairs of a run: code point and image. *)
Definition run_pairs (run : N * N * N * N) : list (N * N) :=
  let '(first, last, image, step) := run in
  map (fun j => (first + N.of_nat j * step, image + N.of_nat j * step)%N)
      (seq 0 (S (N.to_nat ((last - first) / step)))).

Definition lowercase_pairs : list (N * N) :=
  Eval vm_compute in flat_map run_pairs lowercase_runs.

(** [Py_UNICODE_TOLOWER]: the simple lower-case mapping of a code point. *)
Definition simple_lower (c : char) : char :=
  match find (fun p => (fst p =? c)%N) lowercase_pairs with
  | Some (_, d) => d
  | None => c
  end.

(** The full lower-case mapping of a code point: the simple one, but for
    the dotted capital I (U+0130), which becomes i and a combining dot. *)
Definition full_lower (c : char) : list char :=
  if (c =? 304)%N then [105; 775]%N else [simple_lower c].

Definition is_cased (c : char) : bool := in_ranges cased_ranges c.

Definition is_case_ignorable (c : char) : bool :=
  in_ranges case_ignorable_ranges c.

Arguments in_ranges : simpl never.
Arguments simple_lower : simpl never.
Arguments full_lower : simpl never.
Arguments is_cased : simpl never.
Arguments is_case_ignorable : simpl never.

(** ** Characters and Python string primitives *)

(** [str.isspace] for one character, which is also the whitespace of
    [str.split] and [str.strip] and the regex class [\s]. *)
Definition is_space (c : char) : bool :=
  ((9 <=? c) && (c <=? 13) || (28 <=? c) && (c <=? 32)
   || (c =? 133) || (c =? 160) || (c =? 5760)
   || (8192 <=? c) && (c <=? 8202)
   || (c =? 8232) || (c =? 8233) || (c =? 8239) || (c =? 8287)
   || (c =? 12288))%N.

(** The same characters as a list. *)
Definition space_chars : list char :=
  [9; 10; 11; 12; 13; 28; 29; 30; 31; 32; 133; 160; 5760; 8192; 8193; 8194;
   8195; 8196; 8197; 8198; 8199; 8200; 8201; 8202; 8232; 8233; 8239; 8287;
   12288]%N.

(** The ASCII digits, [0-9]. *)
Definition is_digit (c : char) : bool := ((48 <=? c) && (c <=? 57))%N.

(** The ASCII capital letters, [A-Z]. *)
Definition is_upper (c : char) : bool := ((65 <=? c) && (c <=? 90))%N.

(** The regex class [\w]: the characters of [str.isalnum] and the
    underscore. *)
Definition is_word (c : char) : bool :=
  in_ranges alnum_ranges c || (c =? 95)%N.

(** The ASCII letters folded to lower case, every other character kept:
    what SQLite does with a character, in [LOWER] and in [LIKE]. *)
Definition lower_char (c : char) : char :=
  if is_upper c then (c + 32)%N else c.

Fixpoint chars (l : list char) (s : string) : string :=
  match l with
  | [] => s
  | c :: l' => String c (chars l' s)
  end.

Fixpoint drop_while (p : char -> bool) (s : string) : string :=
  match s with
  | EmptyString => EmptyString
  | String c s' => if p c then drop_while p s' else s
  end.

(** The second half of the final-sigma condition: what follows, after the
    case-ignorable characters, is not a cased character. *)
Definition final_after (s : string) : bool :=
  match drop_while is_case_ignorable s with
  | EmptyString => true
  | String c _ => negb (is_cased c)
  end.

(** [s.lower()], from left to right.  [before] tells whether the last
    character before this point that is not case-ignorable is a cased one:
    a capital sigma (U+03A3) becomes the final sigma (U+03C2) when
    [before] holds and [final_after] does, and the small sigma (U+03C3)
    otherwise. *)
Fixpoint lower_from (before : bool) (s : string) : string :=
  match s with
  | EmptyString => EmptyString
  | String c s' =>
      let before' := if is_case_ignorable c then before else is_cased c in
      if (c =? 931)%N
      then String (if before && final_after s' then 962 else 963)%N
                  (lower_from before' s')
      else chars (full_lower c) (lower_from before' s')
  end.

(** [s.lower()] *)
Definition lower (s : string) : string := lower_from false s.

(** A character at which [lower] can be cut: it is neither cased nor
    case-ignorable, so that no final-sigma context reaches across it, and
    it is its own lower case. *)
Definition is_break (c : char) : bool :=
  negb (is_case_ignorable c) && negb (is_cased c)
  && match full_lower c with
     | [d] => (d =? c)%N
     | _ => false
     end.

Definition is_ascii (c : char) : bool := (c <? 128)%N.

(** A character that [lower] leaves as it is, wherever it stands. *)
Definition lower_stable (c : char) : bool :=
  negb (c =? 931)%N && negb (c =? 304)%N && (simple_lower c =? c)%N.

Definition is_empty (s : string) : bool :=
  match s with EmptyString => true | String _ _ => false end.

(** [s.lstrip()] *)
Fixpoint lstrip (s : string) : string :=
  match s with
  | EmptyString => EmptyString
  | String c s' => if is_space c then lstrip s' else s
  end.

(** [s.rstrip()] *)
Fixpoint rstrip (s : string) : string :=
  match s with
  | EmptyString => EmptyString
  | String c s' =>
      let r := rstrip s' in
      if is_space c && is_empty r then EmptyString else String c r
  end.

(** [s.strip()] *)
Definition strip (s : string) : string := rstrip (lstrip s).

Definition cons_nonempty (w : string) (ws : list string) : list string :=
  if is_empty w then ws else w :: ws.

(** One pass of [s.split()]: the word that starts at the head of [s]
    (empty when [s] starts with whitespace) and the words after it. *)
Fixpoint split_go (s : string) : string * list string :=
  match s with
  | EmptyString => (EmptyString, [])
  | String c s' =>
      let (w, ws) := split_go s' in
      if is_space c then (EmptyString, cons_nonempty w ws)
      else (String c w, ws)
  end.

(** [s.split()]: the maximal runs of non-whitespace characters. *)
Definition split (s : string) : list string :=
  let (w, ws) := split_go s in cons_nonempty w ws.

(** [sep.join(l)] *)
Definition join (sep : string) (l : list string) : string :=
  String.concat sep l.

(** [s.replace(' ', '%')] generalised to single characters. *)
Fixpoint replace_char (a b : char) (s : string) : string :=
  match s with
  | EmptyString => EmptyString
  | String c s' =>
      String (if N.eqb c a then b else c) (replace_char a b s')
  end.

Fixpoint filter_chars (p : char -> bool) (s : string) : string :=
  match s with
  | EmptyString => EmptyString
  | String c s' =>
      if p c then String c (filter_chars p s') else filter_chars p s'
  end.

Fixpoint count_while (p : char -> bool) (s : string) : nat :=
  match s with
  | EmptyString => 0
  | String c s' => if p c then S (count_while p s') else 0
  end.

Fixpoint mem_str (k : string) (l : list string) : bool :=
  match l with
  | [] => false
  | x :: l' => String.eqb k x || mem_str k l'
  end.

(** [re.IGNORECASE] for a letter [a] of the two patterns of
    [parse_authors] (b, y, a, n, d, w, i, t, h): the character of the
    subject is lower-cased and compared with [a], and for the letter i
    also with the dotless i (U+0131), which the regex engine counts as its
    equal. *)
Definition ci_eqb (a c : char) : bool :=
  let l := simple_lower c in
  (l =? a)%N || (a =? 105)%N && (l =? 305)%N.

(** SQLite's [LOWER]. *)
Fixpoint sql_lower (s : string) : string :=
  match s with
  | EmptyString => EmptyString
  | String c s' => String (lower_char c) (sql_lower s')
  end.

(** ** The [Book] dataclass *)

Record Book : Type := mkBook {
  title : string;
  authors : list string;
  isbn : string;
  nyt_list : string;
  rank : option Z;
  abs_book_id : option string
}.

(** The generated [__init__] followed by [__post_init__]: every author is
    stripped, nothing is removed. *)
Definition Book_init (t : string) (au : list string) (i : string)
    (l : string) (r : option Z) (a : option string) : Book :=
  {| title := t; authors := map strip au; isbn := i; nyt_list := l;
     rank := r; abs_book_id := a |}.

Definition set_abs_book_id (b : Book) (a : option string) : Book :=
  {| title := title b; authors := authors b; isbn := isbn b;
     nyt_list := nyt_list b; rank := rank b; abs_book_id := a |}.

(** ** Identifier normalizer *)

Definition isbn_char (c : char) : bool :=
  is_digit c || (c =? 88)%N || (c =? 120)%N.

(** [re.sub(r"[^0-9Xx]", "", s or "").lower()] *)
Definition normalize_isbn (s : string) : string :=
  lower (filter_chars isbn_char s).

(** [" ".join((s or "").split()).lower()] *)
Definition normalize_title (s : string) : string :=
  lower (join " " (split s)).

(** [name = " ".join(name.split()).lower()], then
    [f"%{name.replace(' ', '%')}%"]. *)
Definition make_author_like_pattern (name : string) : string :=
  let name := lower (join " " (split name)) in
  "%" ++ replace_char (chr " ") (chr "%") name ++ "%".

(** ** [parse_authors] *)

Definition head_is_word (s : string) : bool :=
  match s with EmptyString => false | String c _ => is_word c end.

Definition prev_is_word (prev : option char) : bool :=
  match prev with None => false | Some c => is_word c end.

(** [_LEADING_BY = ^\s*by\b[:\s]*] with [re.IGNORECASE], substituted by
    the empty string: the match is removed, a string that does not match is
    returned as it is. *)
Definition sub_leading_by (s : string) : string :=
  match lstrip s with
  | String b (String y rest) =>
      if ci_eqb (chr "b") b && ci_eqb (chr "y") y
         && negb (head_is_word rest)
      then drop_while (fun c => N.eqb c (chr ":") || is_space c) rest
      else s
  | _ => s
  end.

(** Does [s] start with the word [w] (lower case), ignoring case?  Returns
    the rest of the string. *)
Fixpoint starts_with_ci (w : string) (s : string) : option string :=
  match w with
  | EmptyString => Some s
  | String a w' =>
      match s with
      | EmptyString => None
      | String c s' =>
          if ci_eqb a c then starts_with_ci w' s' else None
      end
  end.

Definition keyword_at (w : string) (prev : option char) (s : string)
  : option string :=
  if prev_is_word prev then None
  else match starts_with_ci w s with
       | Some rest => if head_is_word rest then None else Some rest
       | None => None
       end.

Definition last_char (prev : option char) (s : string) (k : nat)
  : option char :=
  match k with
  | 0 => prev
  | S k' => match String.get k' s with Some c => Some c | None => prev end
  end.

(** [_SEPARATORS = \s*(?:,|\band\b|\bwith\b)\s*] with [re.IGNORECASE],
    tried at the head of [s], where [prev] is the character before [s]
    in the subject.  Returns the length of the match. *)
Definition sep_match (prev : option char) (s : string) : option nat :=
  let k := count_while is_space s in
  let t := drop_while is_space s in
  let prev' := last_char prev s k in
  match t with
  | String c t' =>
      if N.eqb c (chr ",")
      then Some (k + 1 + count_while is_space t')
      else match keyword_at "and" prev' t with
           | Some rest => Some (k + 3 + count_while is_space rest)
           | None =>
               match keyword_at "with" prev' t with
               | Some rest => Some (k + 4 + count_while is_space rest)
               | None => None
               end
           end
  | EmptyString => None
  end.

(** [_SEPARATORS.split(s)]: the subject is scanned from the left; [skip]
    counts the characters still inside the separator matched last.  The
    result is the piece that starts here and the pieces after it. *)
Fixpoint re_split_go (prev : option char) (skip : nat) (s : string)
  : string * list string :=
  match s with
  | EmptyString => (EmptyString, [])
  | String c s' =>
      match skip with
      | S k => re_split_go (Some c) k s'
      | 0 =>
          match sep_match prev s with
          | Some n =>
              let (p, ps) := re_split_go (Some c) (pred n) s' in
              (EmptyString, p :: ps)
          | None =>
              let (p, ps) := re_split_go (Some c) 0 s' in
              (String c p, ps)
          end
      end
  end.

Definition re_split (s : string) : list string :=
  let (p, ps) := re_split_go None 0 s in p :: ps.

(** The de-duplication loop of [parse_authors]: [seen] holds the lower-cased
    names already emitted. *)
Fixpoint dedup_ci (seen : list string) (parts : list string) : list string :=
  match parts with
  | [] => []
  | p :: ps =>
      let k := lower p in
      if mem_str k seen then dedup_ci seen ps
      else p :: dedup_ci (k :: seen) ps
  end.

Definition split_parts (s : string) : list string :=
  filter (fun p => negb (is_empty p)) (map strip (re_split s)).

Definition parse_authors (s : string) : list string :=
  if is_empty s then []
  else
    let s := sub_leading_by (strip s) in
    dedup_ci [] (split_parts s).

(** ** Python dictionaries

    A [dict] keeps its keys in insertion order, and assigning to a key that
    is present keeps the key's place.  The merge depends on that order (the
    final sort is stable), so a dictionary is an association list. *)

Section Dict.
Context {V : Type}.

Fixpoint dict_get (k : string) (d : list (string * V)) : option V :=
  match d with
  | [] => None
  | (k', v) :: d' => if String.eqb k k' then Some v else dict_get k d'
  end.

(** [d[k] = v] *)
Fixpoint dict_set (k : string) (v : V) (d : list (string * V))
  : list (string * V) :=
  match d with
  | [] => [(k, v)]
  | (k', v') :: d' =>
      if String.eqb k k' then (k', v) :: d'
      else (k', v') :: dict_set k v d'
  end.

Definition dict_keys (d : list (string * V)) : list string := map fst d.
Definition dict_values (d : list (string * V)) : list V := map snd d.
End Dict.

(** ** Source record extractor *)

(** One entry of a list of the NYT overview; a field that is missing or
    [null] is [None]. *)
Record NytBook : Type := mkNytBook {
  j_title : option string;
  j_author : option string;
  j_contributor : option string;
  j_primary_isbn13 : option string;
  j_primary_isbn10 : option string;
  j_rank : option Z
}.

Record NytList : Type := mkNytList {
  list_name_encoded : option string;
  books : list NytBook
}.

(** [x or d] for a string [x] that may be missing. *)
Definition py_or (x : option string) (d : string) : string :=
  match x with
  | Some s => if is_empty s then d else s
  | None => d
  end.

Definition get_default (x : option string) (d : string) : string :=
  match x with Some s => s | None => d end.

Definition extract_book (list_obj : NytList) (b : NytBook) : Book :=
  let title := py_or (j_title b) "" in
  let author := py_or (j_author b) (py_or (j_contributor b) "") in
  let authors := parse_authors author in
  let isbn := py_or (j_primary_isbn13 b) (py_or (j_primary_isbn10 b) "") in
  Book_init (strip title) authors (strip isbn)
            (get_default (list_name_encoded list_obj) "") (j_rank b) None.

Definition extract_books_from_list (list_obj : NytList) : list Book :=
  map (extract_book list_obj) (books list_obj).

(** [overview_to_index]: a list whose name is missing or empty is left
    out; a later list replaces an earlier one of the same name. *)
Fixpoint overview_to_index_go (lists : list NytList)
    (idx : list (string * NytList)) : list (string * NytList) :=
  match lists with
  | [] => idx
  | lst :: rest =>
      match list_name_encoded lst with
      | Some key =>
          if is_empty key then overview_to_index_go rest idx
          else overview_to_index_go rest (dict_set key lst idx)
      | None => overview_to_index_go rest idx
      end
  end.

Definition overview_to_index (overview : list NytList)
  : list (string * NytList) :=
  overview_to_index_go overview [].

(** ** Cross-list merger ([build_abs_collections]) *)

(** Lines 149-153: the key under which a record is merged. *)
Definition merge_key (bk : Book) : string :=
  if is_empty (isbn bk)
  then lower (title bk ++ "|" ++ join "," (authors bk))
  else isbn bk.

(** The condition of line 161: the incoming record has the better rank. *)
Definition incoming_wins (bk old : Book) : bool :=
  match rank bk with
  | None => false
  | Some r =>
      match rank old with
      | None => true
      | Some ro => (r <? ro)%Z
      end
  end.

(** Lines 155-165, one iteration of [for bk in books].  Every record is a
    fresh object, so [better_rank is bk] holds exactly when the condition
    of line 161 does. *)
Definition merge_step (merged : list (string * Book)) (bk : Book)
  : list (string * Book) :=
  let key := merge_key bk in
  match dict_get key merged with
  | None => dict_set key bk merged
  | Some old =>
      if incoming_wins bk old then dict_set key bk merged else merged
  end.

Definition merge_books (merged : list (string * Book)) (bks : list Book)
  : list (string * Book) :=
  fold_left merge_step bks merged.

(** One iteration of [for slug in list_slugs]. *)
Definition merge_slug (idx : list (string * NytList))
    (merged : list (string * Book)) (slug : string)
  : list (string * Book) :=
  match dict_get slug idx with
  | None => merged
  | Some lst => merge_books merged (extract_books_from_list lst)
  end.

Definition merge_group (idx : list (string * NytList))
    (list_slugs : list string) : list (string * Book) :=
  fold_left (merge_slug idx) list_slugs [].

(** The sort key of line 170. *)
Definition sort_key (b : Book) : bool * Z * string :=
  (match rank b with None => true | Some _ => false end,
   match rank b with Some r => r | None => 1000000%Z end,
   lower (title b)).

Definition bool_compare (a b : bool) : comparison :=
  match a, b with
  | false, true => Lt
  | true, false => Gt
  | _, _ => Eq
  end.

(** Python's comparison of tuples: the first differing component decides;
    strings are compared by code point. *)
Definition key_compare (k1 k2 : bool * Z * string) : comparison :=
  let '(a1, r1, t1) := k1 in
  let '(a2, r2, t2) := k2 in
  match bool_compare a1 a2 with
  | Eq => match Z.compare r1 r2 with
          | Eq => String.compare t1 t2
          | c => c
          end
  | c => c
  end.

Definition key_leb (k1 k2 : bool * Z * string) : bool :=
  match key_compare k1 k2 with Gt => false | _ => true end.

(** [sorted(xs, key=...)] is a stable sort; it is modelled by the stable
    insertion sort, which returns the same list as any stable sort. *)
Section Sorted.
Context {A K : Type} (key : A -> K) (leb : K -> K -> bool).

Fixpoint insert_sorted (x : A) (l : list A) : list A :=
  match l with
  | [] => [x]
  | y :: l' =>
      if leb (key x) (key y) then x :: l else y :: insert_sorted x l'
  end.

Fixpoint sorted (l : list A) : list A :=
  match l with
  | [] => []
  | x :: l' => insert_sorted x (sorted l')
  end.
End Sorted.

(** Lines 168-171. *)
Definition group_result (idx : list (string * NytList))
    (list_slugs : list string) : list Book :=
  sorted sort_key key_leb (dict_values (merge_group idx list_slugs)).

Definition build_abs_collections (overview : list NytList)
    (mapping : list (string * list string)) : list (string * list Book) :=
  let idx := overview_to_index overview in
  fold_left
    (fun collections '(coll_name, list_slugs) =>
       dict_set coll_name (group_result idx list_slugs) collections)
    mapping [].

(** The merge key as the specification words it, for comparison with
    [merge_key]: the normalized ISBN when that is not empty, otherwise the
    normalized title, a bar, and the authors, each normalized, joined by
    commas.  An author is normalized the way a title is. *)
Definition spec_merge_key (bk : Book) : string :=
  let n := normalize_isbn (isbn bk) in
  if is_empty n
  then normalize_title (title bk) ++ "|"
       ++ join "," (map normalize_title (authors bk))
  else n.

(** ** The ABS catalog

    The tables the script reads and writes, each a list of rows in rowid
    order.  The schema belongs to Audiobookshelf and is not part of the
    script: the columns are the ones its statements name, identifiers are
    strings, [books.title] and [books.isbn] may be NULL, and no constraint
    of the schema is modelled.  A [SELECT ... LIMIT 1] without [ORDER BY]
    answers with the first row in rowid order that satisfies [WHERE]. *)

Definition Timestamp := nat.

Record BookRow : Type := mkBookRow {
  book_id : string;
  book_title : option string;
  book_isbn : option string
}.

Record AuthorRow : Type := mkAuthorRow {
  author_id : string;
  author_name : string
}.

Record BookAuthorRow : Type := mkBookAuthorRow {
  ba_bookId : string;
  ba_authorId : string
}.

Record LibraryItemRow : Type := mkLibraryItemRow {
  li_mediaId : string;
  li_libraryId : string
}.

Record LibraryRow : Type := mkLibraryRow {
  library_id : string;
  library_name : string
}.

Record CollectionRow : Type := mkCollectionRow {
  coll_id : string;
  coll_name : string;
  coll_description : option string;
  coll_createdAt : Timestamp;
  coll_updatedAt : Timestamp;
  coll_libraryId : string
}.

Record CollectionBookRow : Type := mkCollectionBookRow {
  cb_id : string;
  cb_order : nat;
  cb_createdAt : Timestamp;
  cb_bookId : string;
  cb_collectionId : string
}.

Record Catalog : Type := mkCatalog {
  db_libraries : list LibraryRow;
  db_books : list BookRow;
  db_authors : list AuthorRow;
  db_bookAuthors : list BookAuthorRow;
  db_libraryItems : list LibraryItemRow;
  db_collections : list CollectionRow;
  db_collectionBooks : list CollectionBookRow
}.

(** SQLite reads the operands of [LIKE] as C strings, that is up to the
    first U+0000. *)
Fixpoint c_str (s : string) : string :=
  match s with
  | EmptyString => EmptyString
  | String c s' => if (c =? 0)%N then EmptyString else String c (c_str s')
  end.

(** The comparison of [LIKE]: [%] matches any run of characters, [_] any
    one character, and any other character matches itself up to the case
    of the ASCII letters. *)
Fixpoint like_match (p s : string) : bool :=
  match p with
  | EmptyString => is_empty s
  | String c p' =>
      if N.eqb c (chr "%")
      then (fix star (s : string) : bool :=
              like_match p' s
              || match s with
                 | EmptyString => false
                 | String _ s' => star s'
                 end) s
      else match s with
           | EmptyString => false
           | String d s' =>
               (N.eqb c (chr "_") || N.eqb (lower_char c) (lower_char d))
               && like_match p' s'
           end
  end.

(** [s LIKE p], for a pattern within the length that SQLite accepts. *)
Definition like (p s : string) : bool := like_match (c_str p) (c_str s).

(** [EXISTS (SELECT 1 FROM libraryItems li WHERE li.mediaId = b.id AND
    li.libraryId = ?)] *)
Definition in_library (db : Catalog) (lib : string) (bid : string) : bool :=
  existsb (fun li => String.eqb (li_mediaId li) bid
                     && String.eqb (li_libraryId li) lib)
          (db_libraryItems db).

(** [REPLACE(LOWER(COALESCE(b.isbn,'')),'-','')] *)
Definition stored_isbn_key (b : BookRow) : string :=
  filter_chars (fun c => negb (N.eqb c (chr "-")))
               (sql_lower (get_default (book_isbn b) "")).

(** The [WHERE] clause of [find_book_id_by_isbn]. *)
Definition where_isbn (db : Catalog) (n lib : string) (b : BookRow) : bool :=
  String.eqb (stored_isbn_key b) n && in_library db lib (book_id b).

Definition select_by_isbn (n lib : string) (db : Catalog) : option BookRow :=
  find (where_isbn db n lib) (db_books db).

(** [EXISTS (SELECT 1 FROM bookAuthors ba JOIN authors a ON a.id =
    ba.authorId WHERE ba.bookId = b.id AND LOWER(a.name) LIKE ?)] *)
Definition has_author_like (db : Catalog) (pat : string) (bid : string)
  : bool :=
  existsb (fun ba =>
             String.eqb (ba_bookId ba) bid
             && existsb (fun a => String.eqb (author_id a) (ba_authorId ba)
                                  && like pat (sql_lower (author_name a)))
                        (db_authors db))
          (db_bookAuthors db).

(** [LOWER(b.title) = ?]; a NULL title compares equal to nothing. *)
Definition title_is (tnorm : string) (b : BookRow) : bool :=
  match book_title b with
  | Some t => String.eqb (sql_lower t) tnorm
  | None => false
  end.

(** The [WHERE] clause of [find_book_id_by_author_title]. *)
Definition where_author_title (db : Catalog) (tnorm pat lib : string)
    (b : BookRow) : bool :=
  title_is tnorm b && has_author_like db pat (book_id b)
  && in_library db lib (book_id b).

Definition select_by_author_title (tnorm pat lib : string) (db : Catalog)
  : option BookRow :=
  find (where_author_title db tnorm pat lib) (db_books db).

(** [SELECT id FROM libraries WHERE name = ? LIMIT 1] *)
Definition select_library (name : string) (db : Catalog)
  : option LibraryRow :=
  find (fun l => String.eqb (library_name l) name) (db_libraries db).

(** [SELECT id FROM collections WHERE name = ? LIMIT 1] *)
Definition select_collection (name : string) (db : Catalog)
  : option CollectionRow :=
  find (fun c => String.eqb (coll_name c) name) (db_collections db).

Definition set_collections (db : Catalog) (cs : list CollectionRow)
  : Catalog :=
  {| db_libraries := db_libraries db; db_books := db_books db;
     db_authors := db_authors db; db_bookAuthors := db_bookAuthors db;
     db_libraryItems := db_libraryItems db; db_collections := cs;
     db_collectionBooks := db_collectionBooks db |}.

Definition set_collectionBooks (db : Catalog) (rs : list CollectionBookRow)
  : Catalog :=
  {| db_libraries := db_libraries db; db_books := db_books db;
     db_authors := db_authors db; db_bookAuthors := db_bookAuthors db;
     db_libraryItems := db_libraryItems db;
     db_collections := db_collections db; db_collectionBooks := rs |}.

Definition touch (now : Timestamp) (c : CollectionRow) : CollectionRow :=
  {| coll_id := coll_id c; coll_name := coll_name c;
     coll_description := coll_description c;
     coll_createdAt := coll_createdAt c; coll_updatedAt := now;
     coll_libraryId := coll_libraryId c |}.

(** [UPDATE collections SET updatedAt = ? WHERE id = ?] *)
Definition update_collection_updatedAt (now : Timestamp) (cid : string)
    (db : Catalog) : Catalog :=
  set_collections db
    (map (fun c => if String.eqb (coll_id c) cid then touch now c else c)
         (db_collections db)).

(** [INSERT INTO collections (id, name, description, createdAt, updatedAt,
    libraryId) VALUES (?, ?, NULL, ?, ?, ?)] *)
Definition insert_collection (cid name : string) (now : Timestamp)
    (lib : string) (db : Catalog) : Catalog :=
  set_collections db
    (db_collections db
     ++ [mkCollectionRow cid name None now now lib])%list.

(** [DELETE FROM collectionBooks WHERE collectionId = ?] *)
Definition delete_collection_books (cid : string) (db : Catalog) : Catalog :=
  set_collectionBooks db
    (filter (fun r => negb (String.eqb (cb_collectionId r) cid))
            (db_collectionBooks db)).

(** [INSERT INTO collectionBooks (id, "order", createdAt, bookId,
    collectionId) VALUES (?, ?, ?, ?, ?)] *)
Definition insert_collection_book (r : CollectionBookRow) (db : Catalog)
  : Catalog :=
  set_collectionBooks db (db_collectionBooks db ++ [r])%list.

(** ** The connection and the monad of the script

    The connection is opened with [isolation_level=None]: outside a
    transaction every statement takes effect on the database at once,
    between [BEGIN] and [COMMIT] statements work on the transaction's own
    copy, which [COMMIT] publishes and [ROLLBACK] discards.  What another
    reader of the database can observe is [committed].

    Any statement, and [print], may raise: [faults] tells whether the step
    numbered [tick] does.  A step that raises has no effect. *)

Inductive exn : Type :=
| OperationalError
| RuntimeError (msg : string)
| OSError.

Record World : Type := mkWorld {
  committed : Catalog;
  pending : option Catalog;
  tick : nat;
  faults : nat -> bool;
  clock : Timestamp;
  uuid_next : nat;
  stdout : list (string * string * nat)
}.

Inductive result (A : Type) : Type :=
| Ok (a : A) (w : World)
| Raise (e : exn) (w : World).
Arguments Ok {A} a w.
Arguments Raise {A} e w.

Definition M (A : Type) : Type := World -> result A.

Definition ret {A} (a : A) : M A := fun w => Ok a w.

Definition bind {A B} (m : M A) (k : A -> M B) : M B :=
  fun w => match m w with
           | Ok a w' => k a w'
           | Raise e w' => Raise e w'
           end.

Definition raise {A} (e : exn) : M A := fun w => Raise e w.

Notation "x <- m ;; k" := (bind m (fun x => k))
  (at level 61, m at next level, right associativity).
Notation "m ;;; k" := (bind m (fun _ => k))
  (at level 61, right associativity).

(** [try: body except Exception: handler; raise] *)
Definition try_except_reraise {A} (body : M A) (handler : M unit) : M A :=
  fun w => match body w with
           | Ok a w' => Ok a w'
           | Raise e w' =>
               match handler w' with
               | Ok _ w'' => Raise e w''
               | Raise e' w'' => Raise e' w''
               end
           end.

(** [for x in l: s = body(s, x)] *)
Fixpoint for_each {A S} (l : list A) (body : S -> A -> M S) (s : S) : M S :=
  match l with
  | [] => ret s
  | x :: l' => s' <- body s x ;; for_each l' body s'
  end.

Definition current (w : World) : Catalog :=
  match pending w with
  | Some p => p
  | None => committed w
  end.

Definition set_current (db : Catalog) (w : World) : World :=
  match pending w with
  | Some _ =>
      mkWorld (committed w) (Some db) (tick w) (faults w) (clock w)
              (uuid_next w) (stdout w)
  | None =>
      mkWorld db None (tick w) (faults w) (clock w) (uuid_next w) (stdout w)
  end.

Definition set_tx (c : Catalog) (p : option Catalog) (w : World) : World :=
  mkWorld c p (tick w) (faults w) (clock w) (uuid_next w) (stdout w).

(** One step that may raise. *)
Definition step : M unit :=
  fun w =>
    let w' := mkWorld (committed w) (pending w) (S (tick w)) (faults w)
                      (clock w) (uuid_next w) (stdout w) in
    if faults w (tick w) then Raise OperationalError w' else Ok tt w'.

(** [conn.execute(sql, params).fetchone()] for a [SELECT]. *)
Definition execute_query {A} (q : Catalog -> A) : M A :=
  step ;;; fun w => Ok (q (current w)) w.

(** [conn.execute(sql, params)] for a statement that writes. *)
Definition execute_update (u : Catalog -> Catalog) : M unit :=
  step ;;; fun w => Ok tt (set_current (u (current w)) w).

(** [conn.execute("BEGIN IMMEDIATE;")] *)
Definition begin_immediate : M unit :=
  step ;;; fun w =>
    match pending w with
    | Some _ => Raise OperationalError w
    | None => Ok tt (set_tx (committed w) (Some (committed w)) w)
    end.

(** [conn.execute("COMMIT;")] *)
Definition commit : M unit :=
  step ;;; fun w =>
    match pending w with
    | Some p => Ok tt (set_tx p None w)
    | None => Raise OperationalError w
    end.

(** [conn.execute("ROLLBACK;")] *)
Definition rollback : M unit :=
  step ;;; fun w =>
    match pending w with
    | Some _ => Ok tt (set_tx (committed w) None w)
    | None => Raise OperationalError w
    end.

(** [utc_now_sql()]: the time read from the clock, which moves on. *)
Definition utc_now_sql : M Timestamp :=
  fun w => Ok (clock w)
              (mkWorld (committed w) (pending w) (tick w) (faults w)
                       (S (clock w)) (uuid_next w) (stdout w)).

Fixpoint string_of_uint (d : Decimal.uint) : string :=
  match d with
  | Decimal.Nil => EmptyString
  | Decimal.D0 d => String 48%N (string_of_uint d)
  | Decimal.D1 d => String 49%N (string_of_uint d)
  | Decimal.D2 d => String 50%N (string_of_uint d)
  | Decimal.D3 d => String 51%N (string_of_uint d)
  | Decimal.D4 d => String 52%N (string_of_uint d)
  | Decimal.D5 d => String 53%N (string_of_uint d)
  | Decimal.D6 d => String 54%N (string_of_uint d)
  | Decimal.D7 d => String 55%N (string_of_uint d)
  | Decimal.D8 d => String 56%N (string_of_uint d)
  | Decimal.D9 d => String 57%N (string_of_uint d)
  end.

Definition uuid_str (n : nat) : string :=
  "uuid-" ++ string_of_uint (Nat.to_uint n).

(** [new_uuid()]: a fresh identifier. *)
Definition new_uuid : M string :=
  fun w => Ok (uuid_str (uuid_next w))
              (mkWorld (committed w) (pending w) (tick w) (faults w)
                       (clock w) (S (uuid_next w)) (stdout w)).

(** [print(f"Updated collection '{name}' (id={coll_id}) with {len(books)}
    books")] *)
Definition print (line : string * string * nat) : M unit :=
  step ;;; fun w =>
    Ok tt (mkWorld (committed w) (pending w) (tick w) (faults w) (clock w)
                   (uuid_next w) (stdout w ++ [line])%list).

(** Python's truth value of an [Optional[str]]. *)
Definition truthy (x : option string) : bool :=
  match x with
  | Some s => negb (is_empty s)
  | None => false
  end.

(** ** Catalog resolver *)

Definition find_book_id_by_isbn (isbn : string) (library_id : string)
  : M (option string) :=
  if is_empty isbn then ret None
  else
    let n := normalize_isbn isbn in
    if is_empty n then ret None
    else
      row <- execute_query (select_by_isbn n library_id) ;;
      ret (option_map book_id row).

(** The loop [for a in authors or []] of [find_book_id_by_author_title]. *)
Fixpoint author_loop (tnorm : string) (authors : list string)
    (library_id : string) : M (option string) :=
  match authors with
  | [] => ret None
  | a :: rest =>
      let pat := make_author_like_pattern a in
      row <- execute_query (select_by_author_title tnorm pat library_id) ;;
      match row with
      | Some r => ret (Some (book_id r))
      | None => author_loop tnorm rest library_id
      end
  end.

Definition find_book_id_by_author_title (title : string)
    (authors : list string) (library_id : string) : M (option string) :=
  let tnorm := normalize_title title in
  if is_empty tnorm then ret None
  else author_loop tnorm authors library_id.

Definition resolve_abs_id_for_book (book : Book) (library_id : string)
  : M (option string) :=
  bid <- find_book_id_by_isbn (isbn book) library_id ;;
  if truthy bid then ret bid
  else
    bid <- find_book_id_by_author_title (title book) (authors book)
                                        library_id ;;
    if truthy bid then ret bid else ret None.

(** ** Collection sync engine *)

Definition get_library_id (library_name : string) : M string :=
  row <- execute_query (select_library library_name) ;;
  match row with
  | None => raise (RuntimeError "libraries.name not found")
  | Some r => ret (library_id r)
  end.

Definition get_or_create_collection (collection_name : string)
    (library_id : string) : M string :=
  now <- utc_now_sql ;;
  row <- execute_query (select_collection collection_name) ;;
  match row with
  | Some r =>
      let coll_id := coll_id r in
      execute_update (update_collection_updatedAt now coll_id) ;;;
      ret coll_id
  | None =>
      coll_id <- new_uuid ;;
      execute_update
        (insert_collection coll_id collection_name now library_id) ;;;
      ret coll_id
  end.

(** The loop of lines 372-381: the identifiers that are set, without
    repeats, the first occurrence kept. *)
Fixpoint unique_ids (seen : list string) (books : list Book) : list string :=
  match books with
  | [] => []
  | b :: rest =>
      let abs_id := abs_book_id b in
      if negb (truthy abs_id) then unique_ids seen rest
      else
        let i := get_default abs_id "" in
        if mem_str i seen then unique_ids seen rest
        else i :: unique_ids (i :: seen) rest
  end.

(** The comprehension of lines 387-390: [new_uuid()] is called once for
    each element, in order. *)
Fixpoint build_payload (now : Timestamp) (collection_id : string) (i : nat)
    (ids : list string) : M (list CollectionBookRow) :=
  match ids with
  | [] => ret []
  | book_id :: rest =>
      u <- new_uuid ;;
      rows <- build_payload now collection_id (S i) rest ;;
      ret (mkCollectionBookRow u i now book_id collection_id :: rows)
  end.

(** [conn.executemany]: the statement is run for each row of the payload. *)
Definition executemany_insert (payload : list CollectionBookRow) : M unit :=
  for_each payload
    (fun _ r => execute_update (insert_collection_book r)) tt.

Definition replace_collection_books (collection_id : string)
    (books : list Book) : M unit :=
  now <- utc_now_sql ;;
  execute_update (delete_collection_books collection_id) ;;;
  let unique_books := unique_ids [] books in
  match unique_books with
  | [] => ret tt
  | _ =>
      payload <- build_payload now collection_id 1 unique_books ;;
      executemany_insert payload
  end.

Definition upsert_abs_collection_with_books (abs_collection_name : string)
    (books_for_collection : list Book) (library_name : string)
    (library_id : option string) : M string :=
  lib_id <- match library_id with
            | Some l => ret l
            | None => get_library_id library_name
            end ;;
  coll_id <- get_or_create_collection abs_collection_name lib_id ;;
  replace_collection_books coll_id books_for_collection ;;;
  ret coll_id.

(** ** Run orchestrator ([main]) *)

Definition ABS_LIBRARY_NAME : string := "books".

(** One iteration of the inner loop of phase 1 (lines 432-438). *)
Definition enrich_step (lib_id : string)
    (st : list string * list Book) (b : Book)
  : M (list string * list Book) :=
  let (seen, kept) := st in
  abs_id <- resolve_abs_id_for_book b lib_id ;;
  if negb (truthy abs_id) || mem_str (get_default abs_id "") seen
  then ret (seen, kept)
  else ret (get_default abs_id "" :: seen,
            (kept ++ [set_abs_book_id b abs_id])%list).

Definition enrich_and_filter (lib_id : string) (books : list Book)
  : M (list Book) :=
  st <- for_each books (enrich_step lib_id) ([], []) ;;
  ret (snd st).

(** Phase 1: the loop rebinds every key of [collections] in place. *)
Definition phase_enrich (lib_id : string)
    (collections : list (string * list Book))
  : M (list (string * list Book)) :=
  for_each collections
    (fun colls '(name, books) =>
       kept <- enrich_and_filter lib_id books ;;
       ret (dict_set name kept colls))
    collections.

(** Phase 2. *)
Definition phase_sync (lib_id : string)
    (collections : list (string * list Book)) : M unit :=
  for_each collections
    (fun _ '(name, books) =>
       coll_id <- upsert_abs_collection_with_books name books
                    ABS_LIBRARY_NAME (Some lib_id) ;;
       print (name, coll_id, List.length books))
    tt.

(** The body of [main] from [with open_abs_db() as conn] on; [collections]
    is what [build_abs_collections] returned. *)
Definition main_sync (collections : list (string * list Book)) : M unit :=
  lib_id <- get_library_id ABS_LIBRARY_NAME ;;
  begin_immediate ;;;
  try_except_reraise
    (collections' <- phase_enrich lib_id collections ;;
     phase_sync lib_id collections' ;;;
     commit)
    rollback.

Definition main (overview : list NytList)
    (mapping : list (string * list string)) : M unit :=
  main_sync (build_abs_collections overview mapping).

(** The ordered membership of a group: the rows of [collectionBooks] of
    that group, as position and book identifier. *)
Definition membership (db : Catalog) (cid : string) : list (nat * string) :=
  map (fun r => (cb_order r, cb_bookId r))
      (filter (fun r => String.eqb (cb_collectionId r) cid)
              (db_collectionBooks db)).

(** [enumerate(l, start=i)] *)
Fixpoint enumerate {A} (i : nat) (l : list A) : list (nat * A) :=
  match l with
  | [] => []
  | x :: l' => (i, x) :: enumerate (S i) l'
  end.

(** ** Example data *)

Definition ex_list_A : NytList :=
  mkNytList (Some "A")
    [mkNytBook (Some "Foo") (Some "by Ann Lee") None (Some "111") None (Some 3%Z);
     mkNytBook (Some "Bar") (Some "Bo Yi") None None None None].
Definition ex_list_B : NytList :=
  mkNytList (Some "B")
    [mkNytBook (Some "Foo (B)") None (Some "by Ann Lee") (Some "111") None (Some 1%Z);
     mkNytBook (Some "Abc") (Some "Cy") None None (Some "080213825X") (Some 1%Z)].

(** ** Predicates on strings used in the statements *)

Definition starts_with_space (s : string) : bool :=
  match s with
  | EmptyString => false
  | String c _ => is_space c
  end.

Fixpoint ends_with_space (s : string) : bool :=
  match s with
  | EmptyString => false
  | String c EmptyString => is_space c
  | String _ s' => ends_with_space s'
  end.

(** No leading and no trailing whitespace. *)
Definition trimmed (s : string) : bool :=
  negb (starts_with_space s) && negb (ends_with_space s).

Fixpoint all_space (s : string) : bool :=
  match s with
  | EmptyString => true
  | String c s' => is_space c && all_space s'
  end.

(** The invariant the specification gives for the authors of a record. *)
Definition authors_invariant (b : Book) : Prop :=
  Forall (fun a => trimmed a = true /\ a <> EmptyString) (authors b).

(** A record the extractor builds from an entry that has only an ISBN-10,
    with its check character in upper case. *)
Definition ex_book_X : Book :=
  extract_book ex_list_B
    (mkNytBook (Some "Abc") (Some "Cy") None None (Some "080213825X")
               (Some 1%Z)).

(** The record that survives a collision on a merge key. *)
Definition winner (merged : list (string * Book)) (bk : Book) : Book :=
  match dict_get (merge_key bk) merged with
  | None => bk
  | Some old => if incoming_wins bk old then bk else old
  end.

Definition ex_rank5 : Book :=
  Book_init "Foo" ["Ann Lee"] "111" "A" (Some 5%Z) None.
Definition ex_rank2 : Book :=
  Book_init "Foo: A Novel" ["Ann Lee"; "Bo Yi"] "111" "B" (Some 2%Z) None.
Definition ex_rank2' : Book :=
  Book_init "Foo, again" ["A. Lee"] "111" "C" (Some 2%Z) None.

(** The order the specification gives for two entries of the final
    sequence, the first of which comes earlier. *)
Definition title_le (a b : Book) : Prop :=
  String.leb (lower (title a)) (lower (title b)) = true.

Definition in_order (a b : Book) : Prop :=
  match rank a, rank b with
  | Some ra, Some rb => (ra < rb)%Z \/ (ra = rb /\ title_le a b)
  | Some _, None => True
  | None, Some _ => False
  | None, None => title_le a b
  end.

(** ** Worlds and outcomes used in the statements *)

(** No step of the run raises. *)
Definition fault_free (w : World) : Prop := forall n, faults w n = false.

(** The world after [n] more steps that changed nothing else. *)
Definition advance (n : nat) (w : World) : World :=
  mkWorld (committed w) (pending w) (n + tick w) (faults w) (clock w)
          (uuid_next w) (stdout w).

(** [m] only reads: it returns a value that satisfies [P] and leaves the
    world as it was but for the steps taken, or it raises the error of a
    statement that failed. *)
Definition reads {A} (m : M A) (w : World) (P : A -> Prop) : Prop :=
  match m w with
  | Ok a w' => P a /\ exists n, w' = advance n w
  | Raise e _ => e = OperationalError /\ exists n, faults w n = true
  end.

(** Every book of the catalog has an identifier that is not the empty
    string. *)
Definition ids_nonempty (db : Catalog) : Prop :=
  Forall (fun b => book_id b <> EmptyString) (db_books db).

(** What the ISBN strategy finds for a raw ISBN. *)
Definition isbn_strategy (db : Catalog) (isbn lib : string)
  : option string :=
  if is_empty isbn then None
  else
    let n := normalize_isbn isbn in
    if is_empty n then None
    else option_map book_id (select_by_isbn n lib db).

(** What the title-and-author lookup finds for one author. *)
Definition author_strategy (db : Catalog) (title a lib : string)
  : option string :=
  let tnorm := normalize_title title in
  if is_empty tnorm then None
  else option_map book_id
         (select_by_author_title tnorm (make_author_like_pattern a) lib db).

(** The first author, in list order, whose lookup finds a book. *)
Definition first_author_hit (db : Catalog) (title : string)
    (authors : list string) (lib : string) (r : option string) : Prop :=
  (exists l1 a l2 id,
      authors = (l1 ++ a :: l2)%list
      /\ Forall (fun x => author_strategy db title x lib = None) l1
      /\ author_strategy db title a lib = Some id
      /\ r = Some id)
  \/ (Forall (fun x => author_strategy db title x lib = None) authors
      /\ r = None).

Definition resolve_outcome (db : Catalog) (b : Book) (lib : string)
    (r : option string) : Prop :=
  match isbn_strategy db (isbn b) lib with
  | Some id => r = Some id
  | None => first_author_hit db (title b) (authors b) lib r
  end.

(** [EXISTS (SELECT 1 FROM bookAuthors ba JOIN authors a ON a.id =
    ba.authorId WHERE ba.bookId = b.id)]: the book has a contributor. *)
Definition has_contributor (db : Catalog) (bid : string) : bool :=
  existsb (fun ba =>
             String.eqb (ba_bookId ba) bid
             && existsb (fun a => String.eqb (author_id a) (ba_authorId ba))
                        (db_authors db))
          (db_bookAuthors db).

Definition mkDb (bs : list BookRow) (au : list AuthorRow)
    (ba : list BookAuthorRow) (li : list LibraryItemRow)
    (cs : list CollectionRow) (cbs : list CollectionBookRow) : Catalog :=
  mkCatalog [mkLibraryRow "lib1" "books"; mkLibraryRow "lib2" "podcasts"]
            bs au ba li cs cbs.

Definition quiet (db : Catalog) : World :=
  mkWorld db None 0 (fun _ => false) 100 0 [].

(** A catalog with two books of library [lib1]: one with a contributor,
    one without. *)
Definition ex_db : Catalog :=
  mkDb [mkBookRow "cat-42" (Some "Foo") (Some "1-11");
        mkBookRow "cat-7" (Some "The Bar") None;
        mkBookRow "cat-9" (Some "Baz") None]
       [mkAuthorRow "a1" "Ann Q. Lee"; mkAuthorRow "a2" "Bo Yi"]
       [mkBookAuthorRow "cat-42" "a1"; mkBookAuthorRow "cat-7" "a2"]
       [mkLibraryItemRow "cat-42" "lib1"; mkLibraryItemRow "cat-7" "lib1";
        mkLibraryItemRow "cat-9" "lib1"]
       [] [].

Definition ex_book_isbn : Book :=
  Book_init "Foo" ["Ann Lee"] "111" "A" (Some 3%Z) None.
Definition ex_book_author : Book :=
  Book_init "the  bar" ["Zed"; "Bo Yi"] "" "A" (Some 4%Z) None.
Definition ex_book_unknown : Book :=
  Book_init "Qux" ["Ann Lee"] "999" "A" (Some 5%Z) None.

(** A book found by a lookup for [title] in library [lib]. *)
Definition title_hit (db : Catalog) (title lib : string) (b : BookRow)
  : Prop :=
  In b (db_books db)
  /\ title_is (normalize_title title) b = true
  /\ in_library db lib (book_id b) = true.

(** The library of a group, when the group exists. *)
Definition group_scope (db : Catalog) (cid : string) : option string :=
  option_map coll_libraryId
    (find (fun c => String.eqb (coll_id c) cid) (db_collections db)).

(** A catalog in which the group of the configured name belongs to
    another library. *)
Definition ex_db_other_scope : Catalog :=
  mkDb [] [] [] []
       [mkCollectionRow "c1" "NY Times Best Sellers" None 5 5 "lib2"] [].

(** The identifiers the records carry, in input order: an identifier that
    is missing or empty does not count. *)
Definition resolved_ids (books : list Book) : list string :=
  flat_map (fun b => match abs_book_id b with
                     | Some i => if is_empty i then [] else [i]
                     | None => []
                     end) books.

(** First occurrences, in order: the head stays and is removed from what
    follows. *)
Fixpoint nub (l : list string) : list string :=
  match l with
  | [] => []
  | x :: l' => x :: filter (fun y => negb (String.eqb y x)) (nub l')
  end.

Definition cb_position (r : CollectionBookRow) : nat * string :=
  (cb_order r, cb_bookId r).

Definition ex_books_resolved : list Book :=
  [Book_init "Foo" [] "111" "A" (Some 1%Z) (Some "cat-42");
   Book_init "Bar" [] "" "A" (Some 2%Z) None;
   Book_init "Baz" [] "" "A" (Some 3%Z) (Some "cat-7");
   Book_init "Foo" [] "111" "B" (Some 4%Z) (Some "cat-42");
   Book_init "Qux" [] "" "B" (Some 5%Z) (Some "")].

(** A catalog in which the group [c1] has stale rows. *)
Definition ex_db_stale : Catalog :=
  mkDb [] [] [] []
       [mkCollectionRow "c1" "NY Times Best Sellers" None 5 5 "lib1"]
       [mkCollectionBookRow "r1" 1 5 "cat-1" "c1";
        mkCollectionBookRow "r2" 1 5 "cat-2" "c2";
        mkCollectionBookRow "r3" 3 5 "cat-7" "c1"].

(** [m], run inside a transaction, leaves what is committed alone and the
    transaction open, whether it returns or raises. *)
Definition tx_safe {A} (m : M A) : Prop :=
  forall w, pending w <> None ->
    match m w with
    | Ok _ w' => committed w' = committed w /\ pending w' <> None
    | Raise _ w' => committed w' = committed w /\ pending w' <> None
    end.

(** A run in which the ninth step, [print], raises: the group has been
    created and filled inside the transaction. *)
Definition ex_world_failing : World :=
  mkWorld ex_db None 0 (fun n => n =? 8) 100 0 [].

(** A run in which [print] raises and then [ROLLBACK] raises too. *)
Definition ex_world_failing_twice : World :=
  mkWorld ex_db None 0 (fun n => 8 <=? n) 100 0 [].

(** ** [parse_authors] as the specification words it

    For comparison with [parse_authors]: a separator is a comma or one of
    the whole words "and" and "with" in any case, and only that; the
    whitespace around it stays with the parts and goes when they are
    trimmed.  The names are de-duplicated by removing from what follows a
    name every name equal to it up to case, that is with the same lower
    case.  Whitespace is what [str.strip] trims, and a word is whole when
    no letter, digit or underscore stands next to it. *)

(** The small letter [a] in any case: the letter itself, its capital, and
    for the letter i also its two other forms, the capital with a dot
    (U+0130) and the small letter without one (U+0131). *)
Definition spec_letter (a c : char) : bool :=
  ((c =? a) || (c + 32 =? a)
   || (a =? 105) && ((c =? 304) || (c =? 305)))%N.

Fixpoint chars_of (s : string) : list char :=
  match s with
  | EmptyString => []
  | String c s' => c :: chars_of s'
  end.

(** The letters of the words "by", "and" and "with". *)
Definition pattern_letters : list char :=
  [98; 121; 97; 110; 100; 119; 105; 116; 104]%N.

(** [s] starts with the word [w], given in small letters, in any case:
    the rest of [s]. *)
Fixpoint spec_starts_with (w s : string) : option string :=
  match w with
  | EmptyString => Some s
  | String a w' =>
      match s with
      | EmptyString => None
      | String c s' =>
          if spec_letter a c then spec_starts_with w' s' else None
      end
  end.

(** The whole word [w] stands at the head of [s], after the character
    [prev]: the rest of [s]. *)
Definition spec_word_at (w : string) (prev : option char) (s : string)
  : option string :=
  if prev_is_word prev then None
  else match spec_starts_with w s with
       | Some rest => if head_is_word rest then None else Some rest
       | None => None
       end.

(** Strip one leading whole word "by", in any case, and the colons and
    whitespace after it. *)
Definition spec_strip_by (s : string) : string :=
  match spec_word_at "by" None s with
  | Some rest => drop_while (fun c => N.eqb c (chr ":") || is_space c) rest
  | None => s
  end.

(** The length of the separator at the head of [s], if there is one. *)
Definition spec_sep (prev : option char) (s : string) : option nat :=
  match s with
  | EmptyString => None
  | String c _ =>
      if N.eqb c (chr ",") then Some 1
      else match spec_word_at "and" prev s with
           | Some _ => Some 3
           | None => match spec_word_at "with" prev s with
                     | Some _ => Some 4
                     | None => None
                     end
           end
  end.

Fixpoint spec_split_go (prev : option char) (skip : nat) (s : string)
  : string * list string :=
  match s with
  | EmptyString => (EmptyString, [])
  | String c s' =>
      match skip with
      | S k => spec_split_go (Some c) k s'
      | 0 =>
          match spec_sep prev s with
          | Some n =>
              let (p, ps) := spec_split_go (Some c) (pred n) s' in
              (EmptyString, p :: ps)
          | None =>
              let (p, ps) := spec_split_go (Some c) 0 s' in
              (String c p, ps)
          end
      end
  end.

Definition spec_split (s : string) : list string :=
  let (p, ps) := spec_split_go None 0 s in p :: ps.

(** First occurrences up to case, in order and in their own casing. *)
Fixpoint nub_ci (l : list string) : list string :=
  match l with
  | [] => []
  | x :: l' =>
      x :: filter (fun y => negb (String.eqb (lower y) (lower x))) (nub_ci l')
  end.

Definition spec_parse_authors (s : string) : list string :=
  nub_ci (filter (fun p => negb (is_empty p))
                 (map strip (spec_split (spec_strip_by (strip s))))).

(** Prefixes, suffixes and the last character of a string. *)
Fixpoint take (n : nat) (s : string) : string :=
  match n, s with
  | S n', String c s' => String c (take n' s')
  | _, _ => EmptyString
  end.

Fixpoint drop (n : nat) (s : string) : string :=
  match n, s with
  | S n', String _ s' => drop n' s'
  | _, _ => s
  end.

Fixpoint last_of (s : string) : option char :=
  match s with
  | EmptyString => None
  | String c EmptyString => Some c
  | String _ s' => last_of s'
  end.

(** Two results of a splitter that agree once the parts are trimmed: the
    part at the head may have more whitespace at its end in the second, and
    the parts after it have the same trimmed text. *)
Definition split_rel (r1 r2 : string * list string) : Prop :=
  (exists ws, all_space ws = true /\ fst r2 = fst r1 ++ ws)
  /\ Forall2 (fun p q => strip p = strip q) (snd r1) (snd r2).

(** The snapshot of the end-to-end scenario: the same work on two lists,
    with ranks 3 and 1. *)
Definition ex_overview : list NytList :=
  [mkNytList (Some "A")
     [mkNytBook (Some "Foo") None None (Some "111") None (Some 3%Z)];
   mkNytList (Some "B")
     [mkNytBook (Some "Foo") None None (Some "111") None (Some 1%Z)]].

Definition run_membership (r : result unit) (name : string)
  : option (list (nat * string)) :=
  match r with
  | Ok _ w =>
      match select_collection name (committed w) with
      | Some c => Some (membership (committed w) (coll_id c))
      | None => None
      end
  | Raise _ _ => None
  end.

(** ** Predicates used for the normalizers *)

Fixpoint all_chars (p : char -> bool) (s : string) : bool :=
  match s with
  | EmptyString => true
  | String c s' => p c && all_chars p s'
  end.

(** A digit or a lower-case [x]. *)
Definition isbn_norm_char (c : char) : bool :=
  is_digit c || (c =? 120)%N.

(** Free of U+0000. *)
Definition no_nul (s : string) : bool :=
  all_chars (fun c => negb (c =? 0)%N) s.

(** A word of [s.split()]: not empty and free of whitespace. *)
Definition is_token (w : string) : bool :=
  negb (is_empty w) && all_chars (fun c => negb (is_space c)) w.

(** The words [w1, w2, ...], each followed by a gap: [w1 g1 w2 g2 ...]. *)
Fixpoint weave (wgs : list (string * string)) : string :=
  match wgs with
  | [] => EmptyString
  | (w, g) :: rest => w ++ g ++ weave rest
  end.

(** The pattern [%w1%w2...%]. *)
Fixpoint like_chain (ws : list string) : string :=
  match ws with
  | [] => "%"
  | w :: rest => "%" ++ w ++ like_chain rest
  end.

(** The list of the overview is called [slug], and [slug] is not empty. *)
Definition named (slug : string) (lst : NytList) : bool :=
  match list_name_encoded lst with
  | Some key => negb (is_empty key) && String.eqb slug key
  | None => false
  end.

Definition ex_entry_both : NytBook :=
  mkNytBook (Some " Foo ") (Some "by Ann Lee") (Some "by Bo Yi")
            (Some " 9780306406157 ") (Some "0306406152") (Some 4%Z).

Definition ex_entry_fallback : NytBook :=
  mkNytBook None (Some "") (Some "by Bo Yi") None (Some "0306406152") None.

(** ** Predicates used for the merge *)

(** Every key of the map is there once, and every record is stored under
    its own merge key. *)
Definition merged_ok (m : list (string * Book)) : Prop :=
  NoDup (dict_keys m)
  /\ Forall (fun kb => merge_key (snd kb) = fst kb) m.

(** [a] is at least as good a rank as [b]: a present rank beats an absent
    one, and a lower number beats a higher one. *)
Definition rank_le (a b : option Z) : Prop :=
  match a, b with
  | Some x, Some y => (x <= y)%Z
  | Some _, None => True
  | None, None => True
  | None, Some _ => False
  end.

(** The records of the lists of a group that the snapshot holds, in the
    order in which they are folded. *)
Definition group_books (idx : list (string * NytList))
    (list_slugs : list string) : list Book :=
  flat_map (fun slug => match dict_get slug idx with
                        | Some lst => extract_books_from_list lst
                        | None => []
                        end) list_slugs.

(** A character of an ISBN as the lookup reads a stored one: a digit, an
    [X] in either case, or a hyphen. *)
Definition isbn_or_hyphen (c : char) : bool :=
  isbn_char c || N.eqb c (chr "-").

Definition ex_book_no_keys : Book :=
  Book_init "Some Title" [] "n/a" "A" (Some 1%Z) None.

(** The identifier [get_or_create_collection] returns in the world [w]. *)
Definition collection_id_for (name : string) (w : World) : string :=
  match select_collection name (current w) with
  | Some r => coll_id r
  | None => uuid_str (uuid_next w)
  end.

(** The catalog after [get_or_create_collection] in the world [w]. *)
Definition catalog_after_ensure (name lib : string) (w : World) : Catalog :=
  match select_collection name (current w) with
  | Some r => update_collection_updatedAt (clock w) (coll_id r) (current w)
  | None =>
      insert_collection (uuid_str (uuid_next w)) name (clock w) lib
                        (current w)
  end.

(** A catalog without a library called [books]. *)
Definition ex_db_no_library : Catalog :=
  mkCatalog [mkLibraryRow "lib2" "podcasts"] [] [] [] [] [] [].

(** ** What the resolver returns, as a function of the catalog *)

Fixpoint author_loop_value (db : Catalog) (tnorm : string)
    (authors : list string) (lib : string) : option string :=
  match authors with
  | [] => None
  | a :: rest =>
      match select_by_author_title tnorm (make_author_like_pattern a) lib db
      with
      | Some r => Some (book_id r)
      | None => author_loop_value db tnorm rest lib
      end
  end.

Definition resolve_value (db : Catalog) (b : Book) (lib : string)
  : option string :=
  let bid := isbn_strategy db (isbn b) lib in
  if truthy bid then bid
  else
    let tnorm := normalize_title (title b) in
    let bid := if is_empty tnorm then None
               else author_loop_value db tnorm (authors b) lib in
    if truthy bid then bid else None.

(** [l1] is [l2] with some elements left out. *)
Inductive subseq {A : Type} : list A -> list A -> Prop :=
| subseq_nil : subseq [] []
| subseq_skip x l1 l2 : subseq l1 l2 -> subseq l1 (x :: l2)
| subseq_take x l1 l2 : subseq l1 l2 -> subseq (x :: l1) (x :: l2).

(** The record without its catalog identifier. *)
Definition unresolved (b : Book) : Book := set_abs_book_id b None.

(** What phase 1 promises of the records it keeps, given those it was
    handed and the identifiers seen before. *)
Definition kept_ok (db : Catalog) (lib : string) (seen : list string)
    (books kept : list Book) : Prop :=
  Forall (fun b => truthy (abs_book_id b) = true
                   /\ abs_book_id b = resolve_value db b lib) kept
  /\ NoDup (resolved_ids kept)
  /\ (forall i, In i (resolved_ids kept) -> ~ In i seen)
  /\ subseq (map unresolved kept) (map unresolved books)
  /\ (forall b0, In b0 books ->
                 truthy (resolve_value db b0 lib) = true ->
                 let i := get_default (resolve_value db b0 lib) "" in
                 In i seen \/ In i (resolved_ids kept)).

(** ** The tables the script only reads *)

(** [db'] has the libraries, books, authors and items of [db]. *)
Definition same_library (db db' : Catalog) : Prop :=
  db_libraries db' = db_libraries db
  /\ db_books db' = db_books db
  /\ db_authors db' = db_authors db
  /\ db_bookAuthors db' = db_bookAuthors db
  /\ db_libraryItems db' = db_libraryItems db.

(** Neither what is committed nor the open transaction differs from [db0]
    in those tables. *)
Definition world_keeps (db0 : Catalog) (w : World) : Prop :=
  same_library db0 (committed w)
  /\ forall p, pending w = Some p -> same_library db0 p.

Definition keeps {A} (m : M A) : Prop :=
  forall db0 w, world_keeps db0 w ->
    match m w with
    | Ok _ w' => world_keeps db0 w'
    | Raise _ w' => world_keeps db0 w'
    end.

(** ** Statements that only read *)

Definition no_write {A} (m : M A) : Prop :=
  forall w,
    match m w with
    | Ok _ w' => committed w' = committed w /\ pending w' = pending w
    | Raise _ w' => committed w' = committed w /\ pending w' = pending w
    end.

(** ** Opening the connection ([open_abs_db])

    One pass of the [try] block, that is [sqlite3.connect] and the two
    [PRAGMA] statements, either gives the connection, or raises
    [sqlite3.OperationalError] with a message, or raises something else.
    [outcome] tells which for the attempt of each number.  The call
    [time.sleep(backoff * (2 ** attempt))] is recorded as the factor
    [2 ^ attempt] by which [backoff] is multiplied; [backoff] is taken
    not to be negative, as its default 0.25 is, so that the sleep itself
    does not raise. *)

Inductive connect_outcome : Type :=
| Connected
| OperationalFailure (msg : string)
| OtherFailure.

Inductive open_exn : Type :=
| OpenOperationalError (msg : string)
| OpenOtherError
| OpenRaiseNone.

Inductive open_result : Type :=
| Opened (attempt : nat)
| OpenRaised (e : open_exn).

(** [sub in s] *)
Fixpoint contains (sub s : string) : bool :=
  String.prefix sub s
  || match s with
     | EmptyString => false
     | String _ s' => contains sub s'
     end.

(** [msg = str(e).lower()], then ["locked" in msg or "busy" in msg]. *)
Definition is_lock_error (msg : string) : bool :=
  let msg := lower msg in contains "locked" msg || contains "busy" msg.

(** The loop [for attempt in range(retries)], from [attempt] on with
    [remaining] passes left, and the [raise last_exc] after it, which
    raises [TypeError] when no attempt was made. *)
Fixpoint open_abs_db_loop (outcome : nat -> connect_outcome)
    (attempt remaining : nat) (last_exc : option string)
    (sleeps : list nat) : open_result * list nat :=
  match remaining with
  | 0 =>
      (OpenRaised match last_exc with
                  | Some msg => OpenOperationalError msg
                  | None => OpenRaiseNone
                  end, sleeps)
  | S k =>
      match outcome attempt with
      | Connected => (Opened attempt, sleeps)
      | OperationalFailure msg =>
          if is_lock_error msg
          then open_abs_db_loop outcome (S attempt) k (Some msg)
                                (sleeps ++ [2 ^ attempt])%list
          else (OpenRaised (OpenOperationalError msg), sleeps)
      | OtherFailure => (OpenRaised OpenOtherError, sleeps)
      end
  end.

Definition open_abs_db (outcome : nat -> connect_outcome) (retries : nat)
  : open_result * list nat :=
  open_abs_db_loop outcome 0 retries None [].

(** The first [k] attempts fail on a lock. *)
Definition locked_until (outcome : nat -> connect_outcome) (k : nat)
  : Prop :=
  forall i, i < k ->
    exists msg, outcome i = OperationalFailure msg
                /\ is_lock_error msg = true.

Definition ex_outcome_busy_twice (i : nat) : connect_outcome :=
  match i with
  | 0 => OperationalFailure "database is locked"
  | 1 => OperationalFailure "Database is BUSY"
  | _ => Connected
  end.

Definition ex_outcome_always_locked (i : nat) : connect_outcome :=
  OperationalFailure "database is locked".

Definition ex_outcome_unreadable (i : nat) : connect_outcome :=
  match i with
  | 0 => OperationalFailure "database is locked"
  | _ => OperationalFailure "unable to open database file"
  end.

(* ================================================================== *)
(** * Part II: properties *)
(* ================================================================== *)

Example parse_authors_ex1 :
  parse_authors "by James Patterson and Duane Swierczynski"
  = ["James Patterson"; "Duane Swierczynski"].
Proof. vm_compute. reflexivity. Qed.

Example parse_authors_ex2 :
  parse_authors "Trey Gowdy with Christopher Greyson"
  = ["Trey Gowdy"; "Christopher Greyson"].
Proof. vm_compute. reflexivity. Qed.

Example parse_authors_ex3 :
  parse_authors "By: Sandy Anderson, WITH Andy , sandy anderson and and"
  = ["Sandy Anderson"; "Andy"].
Proof. vm_compute. reflexivity. Qed.

(** Outside ASCII: an accented letter is a word character and has a lower
    case, the no-break space (U+00A0) is whitespace, and the two other
    forms of an i are an i to [re.IGNORECASE]. *)
Example parse_authors_ex4 :
  parse_authors "Zoéand Bo" = ["Zoéand Bo"]
  /\ parse_authors "Émile Zola, émile zola" = ["Émile Zola"]
  /\ parse_authors (String 65 (String 110 (String 110 (String 160
                     (String 97 (String 110 (String 100 (String 160
                     "Bo Yi"))))))))%N
     = ["Ann"; "Bo Yi"]
  /\ parse_authors "Ann wİth Bo and Cy wıth Di" = ["Ann"; "Bo"; "Cy"; "Di"].
Proof. vm_compute. repeat split; reflexivity. Qed.

Example lower_ex :
  lower "BEYONCÉ" = "beyoncé"
  /\ lower "ΟΔΥΣΣΕΥΣ" = "οδυσσευς"
  /\ sql_lower "BEYONCÉ" = "beyoncÉ".
Proof. vm_compute. repeat split; reflexivity. Qed.

Example pattern_ex1 :
  make_author_like_pattern "James  Patterson" = "%james%patterson%".
Proof. vm_compute. reflexivity. Qed.

Example pattern_ex2 : make_author_like_pattern "  " = "%%".
Proof. vm_compute. reflexivity. Qed.

Example build_ex :
  map (fun '(n, bs) => (n, map (fun b => (title b, isbn b, rank b)) bs))
      (build_abs_collections [ex_list_A; ex_list_B] [("G", ["A"; "C"; "B"])])
  = [("G", [("Abc", "080213825X", Some 1%Z); ("Foo (B)", "111", Some 1%Z);
            ("Bar", "", None)])].
Proof. vm_compute. reflexivity. Qed.


(** ** Equality and order of strings *)

Lemma string_eqb_eq (s t : string) : String.eqb s t = true <-> s = t.
Proof.
  revert t. induction s as [|c s IH]; intros [|d t]; simpl;
    try (split; congruence).
  rewrite andb_true_iff, N.eqb_eq, IH. split.
  - intros [-> ->]. reflexivity.
  - intros H. inversion H. auto.
Qed.

Lemma string_eqb_refl (s : string) : String.eqb s s = true.
Proof. apply string_eqb_eq. reflexivity. Qed.

Lemma string_eqb_neq (s t : string) : String.eqb s t = false <-> s <> t.
Proof.
  rewrite <- string_eqb_eq. destruct (String.eqb s t); split; congruence.
Qed.

Lemma string_eqb_sym (s t : string) : String.eqb s t = String.eqb t s.
Proof.
  destruct (String.eqb s t) eqn:E; symmetry.
  - apply string_eqb_eq in E. subst. apply string_eqb_refl.
  - apply string_eqb_neq. apply string_eqb_neq in E. congruence.
Qed.

Lemma string_dec (s t : string) : {s = t} + {s <> t}.
Proof.
  destruct (String.eqb s t) eqn:E.
  - left. apply string_eqb_eq. exact E.
  - right. apply string_eqb_neq. exact E.
Defined.

Lemma string_compare_eq_iff (s t : string) :
  String.compare s t = Eq <-> s = t.
Proof.
  revert t. induction s as [|c s IH]; intros [|d t]; simpl;
    try (split; congruence).
  destruct (N.compare_spec c d) as [->|H|H].
  - rewrite IH. split; [intros ->; reflexivity|congruence].
  - split; [discriminate|]. intros E. inversion E. lia.
  - split; [discriminate|]. intros E. inversion E. lia.
Qed.

Lemma string_compare_antisym (s t : string) :
  String.compare t s = CompOpp (String.compare s t).
Proof.
  revert t. induction s as [|c s IH]; intros [|d t]; simpl; auto.
  rewrite (N.compare_antisym c d).
  destruct (N.compare c d); simpl; auto.
Qed.

Lemma string_leb_total (s t : string) :
  String.leb s t = true \/ String.leb t s = true.
Proof.
  unfold String.leb. rewrite (string_compare_antisym s t).
  destruct (String.compare s t); simpl; auto.
Qed.

Lemma str_app_nil_r (s : string) : s ++ EmptyString = s.
Proof. induction s as [|c s IH]; simpl; congruence. Qed.

Lemma str_app_assoc (s t u : string) : (s ++ t) ++ u = s ++ (t ++ u).
Proof. induction s as [|c s IH]; simpl; congruence. Qed.

(** ** Stripping *)

Lemma is_empty_true (s : string) : is_empty s = true <-> s = EmptyString.
Proof. destruct s; simpl; split; congruence. Qed.

Lemma is_empty_false (s : string) : is_empty s = false <-> s <> EmptyString.
Proof. destruct s; simpl; split; congruence. Qed.

Lemma lstrip_no_lead (s : string) : starts_with_space (lstrip s) = false.
Proof.
  induction s as [|c s IH]; simpl; auto.
  destruct (is_space c) eqn:E; simpl; auto.
Qed.

Lemma lstrip_id (s : string) : starts_with_space s = false -> lstrip s = s.
Proof. destruct s as [|c s]; simpl; auto. intros ->. reflexivity. Qed.

Lemma rstrip_no_trail (s : string) : ends_with_space (rstrip s) = false.
Proof.
  induction s as [|c s IH]; simpl; auto.
  destruct (is_space c) eqn:E; simpl.
  - destruct (rstrip s) eqn:R; simpl; auto.
  - destruct (rstrip s) eqn:R; simpl; auto.
Qed.

Lemma rstrip_id (s : string) : ends_with_space s = false -> rstrip s = s.
Proof.
  induction s as [|c s IH]; simpl; auto.
  destruct s as [|d s'].
  - simpl. intros ->. reflexivity.
  - intros H. rewrite (IH H). simpl.
    rewrite andb_false_r. reflexivity.
Qed.

Lemma rstrip_keeps_lead (s : string) :
  starts_with_space s = false -> starts_with_space (rstrip s) = false.
Proof.
  destruct s as [|c s]; simpl; auto.
  intros E. rewrite E. simpl. exact E.
Qed.

Lemma strip_trimmed (s : string) : trimmed (strip s) = true.
Proof.
  unfold trimmed, strip.
  rewrite rstrip_keeps_lead by apply lstrip_no_lead.
  rewrite rstrip_no_trail. reflexivity.
Qed.

Lemma strip_id (s : string) : trimmed s = true -> strip s = s.
Proof.
  unfold trimmed, strip. intros H.
  apply andb_true_iff in H. destruct H as [H1 H2].
  apply negb_true_iff in H1. apply negb_true_iff in H2.
  rewrite (lstrip_id _ H1). apply rstrip_id. exact H2.
Qed.

Lemma lstrip_all_space (s : string) :
  lstrip s = EmptyString <-> all_space s = true.
Proof.
  induction s as [|c s IH]; simpl.
  - tauto.
  - destruct (is_space c); simpl; [exact IH|]. split; discriminate.
Qed.

Lemma rstrip_empty (s : string) :
  rstrip s = EmptyString <-> all_space s = true.
Proof.
  induction s as [|c s IH]; simpl.
  - tauto.
  - destruct (is_space c); simpl.
    + destruct (rstrip s) eqn:R; simpl.
      * split; auto. intros _. apply IH. reflexivity.
      * split; [discriminate|]. intros H. apply IH in H. discriminate.
    + split; discriminate.
Qed.

Lemma all_space_lstrip (s : string) :
  all_space (lstrip s) = true -> all_space s = true.
Proof.
  induction s as [|c s IH]; simpl; auto.
  destruct (is_space c) eqn:E; simpl; auto.
  rewrite E. simpl. discriminate.
Qed.

Lemma strip_empty (s : string) :
  strip s = EmptyString <-> all_space s = true.
Proof.
  unfold strip. rewrite rstrip_empty. split.
  - apply all_space_lstrip.
  - intros H. apply lstrip_all_space in H. rewrite H. reflexivity.
Qed.

(** ** [parse_authors]: what every returned name looks like *)

Lemma dedup_ci_incl (l seen : list string) (x : string) :
  In x (dedup_ci seen l) -> In x l.
Proof.
  revert seen. induction l as [|p ps IH]; simpl; intros seen H; auto.
  destruct (mem_str (lower p) seen).
  - right. eapply IH; eauto.
  - destruct H as [H|H]; [left; exact H | right; eapply IH; eauto].
Qed.

Lemma split_parts_elem (s x : string) :
  In x (split_parts s) -> trimmed x = true /\ x <> EmptyString.
Proof.
  unfold split_parts. intros H. apply filter_In in H.
  destruct H as [H1 H2]. apply in_map_iff in H1.
  destruct H1 as [p [<- _]]. split.
  - apply strip_trimmed.
  - apply negb_true_iff in H2. apply is_empty_false. exact H2.
Qed.

Lemma parse_authors_elem (s x : string) :
  In x (parse_authors s) -> trimmed x = true /\ x <> EmptyString.
Proof.
  unfold parse_authors. destruct (is_empty s); simpl; [tauto|].
  intros H. apply dedup_ci_incl in H. eapply split_parts_elem; eauto.
Qed.

(** ** C7: the authors of a constructed record *)

(** The constructor keeps an author that strips to the empty string. *)
Lemma Book_authors_may_hold_empty :
  ~ authors_invariant
      (Book_init "Foo" ["Ann Lee"; "  "] "111" "" None None).
Proof.
  unfold authors_invariant. intros H.
  apply Forall_forall with (x := EmptyString) in H.
  - destruct H as [_ H]. apply H. reflexivity.
  - vm_compute. right. left. reflexivity.
Qed.

(** C7 (amended).  Whatever authors the constructor is given, no author of
    the record has leading or trailing whitespace; the record holds an
    empty author exactly when an argument is empty or all whitespace; and a
    record built by the extractor, whose authors come from [parse_authors],
    has neither. *)
Theorem Book_authors_stripped :
  (forall t au i l r a,
      Forall (fun x => trimmed x = true)
             (authors (Book_init t au i l r a)))
  /\ (forall t au i l r a,
         In EmptyString (authors (Book_init t au i l r a))
         <-> exists x, In x au /\ all_space x = true)
  /\ (forall list_obj b, authors_invariant (extract_book list_obj b)).
Proof.
  split; [|split].
  - intros. simpl. apply Forall_forall. intros x H.
    apply in_map_iff in H. destruct H as [y [<- _]]. apply strip_trimmed.
  - intros. simpl. rewrite in_map_iff. split.
    + intros [x [H1 H2]]. exists x. split; auto. apply strip_empty. exact H1.
    + intros [x [H1 H2]]. exists x. split; auto. apply strip_empty. exact H2.
  - intros. unfold authors_invariant, extract_book. simpl.
    apply Forall_forall. intros x H.
    apply in_map_iff in H. destruct H as [y [<- Hy]].
    apply parse_authors_elem in Hy. destruct Hy as [Ht Hn].
    rewrite (strip_id _ Ht). auto.
Qed.

(** ** Dictionaries *)

Lemma dict_get_set {V} (k k' : string) (v : V) (d : list (string * V)) :
  dict_get k' (dict_set k v d)
  = if String.eqb k' k then Some v else dict_get k' d.
Proof.
  induction d as [|[k0 v0] d IH]; simpl.
  - reflexivity.
  - destruct (String.eqb k k0) eqn:E; simpl.
    + apply string_eqb_eq in E. subst k0.
      destruct (String.eqb k' k); reflexivity.
    + rewrite IH. destruct (String.eqb k' k0) eqn:E0; auto.
      destruct (String.eqb k' k) eqn:E1; auto.
      apply string_eqb_eq in E0. apply string_eqb_eq in E1.
      subst. rewrite string_eqb_refl in E. discriminate.
Qed.

Lemma dict_keys_set_present {V} (k : string) (v old : V)
    (d : list (string * V)) :
  dict_get k d = Some old -> dict_keys (dict_set k v d) = dict_keys d.
Proof.
  induction d as [|[k0 v0] d IH]; simpl; [discriminate|].
  destruct (String.eqb k k0) eqn:E; simpl; auto.
  intros H. unfold dict_keys in *. simpl. rewrite IH; auto.
Qed.

Lemma dict_get_eqb {V} (k k' : string) (d : list (string * V)) :
  String.eqb k k' = true -> dict_get k d = dict_get k' d.
Proof. intros H. apply string_eqb_eq in H. subst. reflexivity. Qed.

(** ** The merge step as a dictionary update *)

Lemma merge_step_get (merged : list (string * Book)) (bk : Book)
    (k : string) :
  dict_get k (merge_step merged bk)
  = if String.eqb k (merge_key bk) then Some (winner merged bk)
    else dict_get k merged.
Proof.
  unfold merge_step, winner.
  destruct (dict_get (merge_key bk) merged) as [old|] eqn:G.
  - destruct (incoming_wins bk old).
    + apply dict_get_set.
    + destruct (String.eqb k (merge_key bk)) eqn:E; auto.
      rewrite (dict_get_eqb _ _ _ E). exact G.
  - apply dict_get_set.
Qed.

(** ** [str.lower] across a separator *)

Lemma is_break_spec (c : char) :
  is_break c = true ->
  is_case_ignorable c = false /\ is_cased c = false
  /\ full_lower c = [c] /\ c <> 931%N.
Proof.
  unfold is_break. intros H.
  apply andb_true_iff in H. destruct H as [H H3].
  apply andb_true_iff in H. destruct H as [H1 H2].
  apply negb_true_iff in H1. apply negb_true_iff in H2.
  repeat split; auto.
  - destruct (full_lower c) as [|d [|e l]]; try discriminate.
    apply N.eqb_eq in H3. subst d. reflexivity.
  - intros ->. vm_compute in H2. discriminate.
Qed.

Lemma final_after_break (s t : string) (c : char) :
  is_break c = true -> final_after (s ++ String c t) = final_after s.
Proof.
  intros B. destruct (is_break_spec c B) as (I & C & _).
  unfold final_after. induction s as [|d s IH]; simpl.
  - rewrite I, C. reflexivity.
  - destruct (is_case_ignorable d); auto.
Qed.

Lemma lower_from_break (before : bool) (s t : string) (c : char) :
  is_break c = true ->
  lower_from before (s ++ String c t)
  = lower_from before s ++ String c (lower t).
Proof.
  intros B. destruct (is_break_spec c B) as (I & C & F & N).
  revert before. induction s as [|d s IH]; intros before; simpl.
  - apply N.eqb_neq in N. rewrite N, F, I, C. reflexivity.
  - rewrite IH, (final_after_break _ _ _ B).
    destruct (d =? 931)%N; [reflexivity|].
    generalize (full_lower d). intros l.
    induction l as [|e l IHl]; simpl; congruence.
Qed.

Lemma lower_break (s t : string) (c : char) :
  is_break c = true ->
  lower (s ++ String c t) = lower s ++ String c (lower t).
Proof. apply lower_from_break. Qed.

Lemma lower_join_break (c : char) (l : list string) :
  is_break c = true ->
  lower (join (String c "") l) = join (String c "") (map lower l).
Proof.
  intros B. induction l as [|x l IH]; [reflexivity|].
  destruct l as [|y l]; [reflexivity|].
  change (join (String c "") (x :: y :: l))
    with (x ++ String c (join (String c "") (y :: l))).
  change (join (String c "") (map lower (x :: y :: l)))
    with (lower x ++ String c (join (String c "") (map lower (y :: l)))).
  rewrite (lower_break _ _ _ B), IH. reflexivity.
Qed.

Lemma lower_join_comma (l : list string) :
  lower (join "," l) = join "," (map lower l).
Proof. apply (lower_join_break 44%N). reflexivity. Qed.

(** Whitespace is what the list says, and no whitespace character changes
    when it is lower-cased. *)
Lemma is_space_enum (c : char) : is_space c = true <-> In c space_chars.
Proof.
  unfold is_space, space_chars.
  rewrite !orb_true_iff, !andb_true_iff, !N.leb_le, !N.eqb_eq.
  simpl. lia.
Qed.

Lemma space_chars_plain :
  Forall (fun c => simple_lower c = c /\ is_word c = false
                   /\ is_cased c = false /\ is_case_ignorable c = false
                   /\ full_lower c = [c] /\ c <> 931%N)
         space_chars.
Proof.
  unfold space_chars.
  repeat (constructor; [vm_compute; repeat split; discriminate|]).
  constructor.
Qed.

Lemma is_space_plain (c : char) :
  is_space c = true ->
  simple_lower c = c /\ is_word c = false
  /\ is_cased c = false /\ is_case_ignorable c = false
  /\ full_lower c = [c] /\ c <> 931%N.
Proof.
  intros H. apply is_space_enum in H.
  exact (proj1 (Forall_forall _ _) space_chars_plain c H).
Qed.

Lemma ci_eqb_space (a c : char) :
  is_space c = true -> is_space a = false -> ci_eqb a c = false.
Proof.
  intros Hc Ha. unfold ci_eqb.
  destruct (is_space_plain c Hc) as [-> _].
  apply orb_false_iff. split.
  - apply N.eqb_neq. intros ->. congruence.
  - apply andb_false_iff. right. apply N.eqb_neq. intros ->.
    discriminate.
Qed.

Lemma is_space_break (c : char) : is_space c = true -> is_break c = true.
Proof.
  intros H. destruct (is_space_plain c H) as (_ & _ & C & I & F & _).
  unfold is_break. rewrite C, I, F, N.eqb_refl. reflexivity.
Qed.

(** ** The lower-case mapping *)

Lemma simple_lower_cases (c : char) :
  In (c, simple_lower c) lowercase_pairs \/ simple_lower c = c.
Proof.
  unfold simple_lower.
  destruct (find (fun p => (fst p =? c)%N) lowercase_pairs) as [[a d]|] eqn:F.
  - apply find_some in F. destruct F as [F1 F2]. simpl in F2.
    apply N.eqb_eq in F2. subst a. left. exact F1.
  - right. reflexivity.
Qed.

Lemma lowercase_pairs_images :
  forallb (fun p => lower_stable (snd p) && negb (is_space (snd p)))
          lowercase_pairs = true.
Proof. vm_compute. reflexivity. Qed.

Lemma simple_lower_image (c : char) :
  lower_stable (simple_lower c) = true
  /\ (is_space c = false -> is_space (simple_lower c) = false).
Proof.
  destruct (simple_lower_cases c) as [H|H].
  - pose proof (proj1 (forallb_forall _ _) lowercase_pairs_images _ H) as K.
    simpl in K. apply andb_true_iff in K. destruct K as [K1 K2].
    apply negb_true_iff in K2. auto.
  - rewrite H. split; auto. unfold lower_stable.
    rewrite H, N.eqb_refl.
    destruct (c =? 931)%N eqn:E1.
    { apply N.eqb_eq in E1. subst c. vm_compute in H. discriminate. }
    destruct (c =? 304)%N eqn:E2.
    { apply N.eqb_eq in E2. subst c. vm_compute in H. discriminate. }
    reflexivity.
Qed.

Lemma full_lower_image (c : char) :
  Forall (fun d => lower_stable d = true
                   /\ (is_space c = false -> is_space d = false))
         (full_lower c)
  /\ full_lower c <> [].
Proof.
  unfold full_lower. destruct (c =? 304)%N eqn:E.
  - split; [|discriminate].
    repeat constructor.
  - split; [|discriminate]. constructor; [|constructor].
    apply simple_lower_image.
Qed.

Lemma lower_stable_spec (c : char) :
  lower_stable c = true -> c <> 931%N /\ full_lower c = [c].
Proof.
  unfold lower_stable, full_lower. intros H.
  apply andb_true_iff in H. destruct H as [H H3].
  apply andb_true_iff in H. destruct H as [H1 H2].
  apply negb_true_iff in H1. apply negb_true_iff in H2.
  apply N.eqb_neq in H1. apply N.eqb_eq in H3.
  rewrite H2, H3. auto.
Qed.

Lemma all_chars_chars (p : char -> bool) (l : list char) (s : string) :
  Forall (fun d => p d = true) l -> all_chars p s = true ->
  all_chars p (chars l s) = true.
Proof.
  intros H Hs. induction H as [|d l Hd Hl IH]; simpl; auto.
  rewrite Hd. exact IH.
Qed.

Lemma lower_from_stable (before : bool) (s : string) :
  all_chars lower_stable (lower_from before s) = true.
Proof.
  revert before. induction s as [|c s IH]; intros before; simpl; auto.
  destruct (c =? 931)%N.
  - simpl. rewrite IH. destruct (before && final_after s); reflexivity.
  - apply all_chars_chars; [|apply IH].
    destruct (full_lower_image c) as [H _].
    eapply Forall_impl; [|exact H]. intros d [Hd _]. exact Hd.
Qed.

Lemma lower_from_fixed (before : bool) (s : string) :
  all_chars lower_stable s = true -> lower_from before s = s.
Proof.
  revert before. induction s as [|c s IH]; intros before; simpl; auto.
  intros H. apply andb_true_iff in H. destruct H as [H1 H2].
  destruct (lower_stable_spec c H1) as [N F].
  apply N.eqb_neq in N. rewrite N, F. simpl. rewrite IH; auto.
Qed.

Lemma lower_idem (s : string) : lower (lower s) = lower s.
Proof. apply lower_from_fixed, lower_from_stable. Qed.

Lemma is_empty_chars (l : list char) (s : string) :
  l <> [] -> is_empty (chars l s) = false.
Proof. destruct l; [congruence|reflexivity]. Qed.

Lemma is_empty_lower_from (before : bool) (s : string) :
  is_empty (lower_from before s) = is_empty s.
Proof.
  destruct s as [|c s]; simpl; auto.
  destruct (c =? 931)%N; auto.
  apply is_empty_chars. apply full_lower_image.
Qed.

Lemma is_empty_lower (s : string) : is_empty (lower s) = is_empty s.
Proof. apply is_empty_lower_from. Qed.

Lemma lower_from_no_space (before : bool) (s : string) :
  all_chars (fun c => negb (is_space c)) s = true ->
  all_chars (fun c => negb (is_space c)) (lower_from before s) = true.
Proof.
  revert before. induction s as [|c s IH]; intros before; simpl; auto.
  intros H. apply andb_true_iff in H. destruct H as [H1 H2].
  apply negb_true_iff in H1.
  destruct (c =? 931)%N.
  - simpl. rewrite (IH _ H2).
    destruct (before && final_after s); reflexivity.
  - apply all_chars_chars; [|apply IH; exact H2].
    destruct (full_lower_image c) as [H _].
    eapply Forall_impl; [|exact H]. intros d [_ Hd].
    rewrite (Hd H1). reflexivity.
Qed.

(** ** Lower case of ASCII text *)

Lemma lowercase_pairs_ascii :
  forallb (fun p => implb (is_ascii (fst p))
                          (is_upper (fst p) && (snd p =? fst p + 32)%N))
          lowercase_pairs = true.
Proof. vm_compute. reflexivity. Qed.

Lemma lowercase_pairs_upper :
  forallb (fun c => existsb (fun p => (fst p =? c)%N) lowercase_pairs)
          [65; 66; 67; 68; 69; 70; 71; 72; 73; 74; 75; 76; 77; 78; 79; 80;
           81; 82; 83; 84; 85; 86; 87; 88; 89; 90]%N = true.
Proof. vm_compute. reflexivity. Qed.

Lemma simple_lower_ascii (c : char) :
  is_ascii c = true -> simple_lower c = lower_char c.
Proof.
  intros A. unfold lower_char.
  destruct (simple_lower_cases c) as [H|H].
  - pose proof (proj1 (forallb_forall _ _) lowercase_pairs_ascii _ H) as K.
    simpl in K. rewrite A in K. simpl in K.
    apply andb_true_iff in K. destruct K as [K1 K2].
    apply N.eqb_eq in K2. rewrite K1. exact K2.
  - destruct (is_upper c) eqn:U; auto. exfalso.
    assert (I : In c [65; 66; 67; 68; 69; 70; 71; 72; 73; 74; 75; 76; 77;
                      78; 79; 80; 81; 82; 83; 84; 85; 86; 87; 88; 89;
                      90]%N).
    { unfold is_upper in U. apply andb_true_iff in U.
      rewrite !N.leb_le in U. simpl. lia. }
    pose proof (proj1 (forallb_forall _ _) lowercase_pairs_upper _ I) as K.
    apply existsb_exists in K. destruct K as [[a d] [K1 K2]].
    simpl in K2. apply N.eqb_eq in K2. subst a.
    pose proof (proj1 (forallb_forall _ _) lowercase_pairs_ascii _ K1) as L.
    simpl in L. rewrite A, U in L. simpl in L. apply N.eqb_eq in L.
    unfold simple_lower in H.
    destruct (find (fun p => (fst p =? c)%N) lowercase_pairs)
      as [[a' d']|] eqn:F.
    + apply find_some in F. destruct F as [F1 F2]. simpl in F2.
      apply N.eqb_eq in F2. subst a' d'.
      pose proof (proj1 (forallb_forall _ _) lowercase_pairs_ascii _ F1)
        as M.
      simpl in M. rewrite A, U in M. simpl in M. apply N.eqb_eq in M. lia.
    + pose proof (find_none _ _ F _ K1) as M. simpl in M.
      rewrite N.eqb_refl in M. discriminate.
Qed.

Lemma lower_from_ascii (before : bool) (s : string) :
  all_chars is_ascii s = true -> lower_from before s = sql_lower s.
Proof.
  revert before. induction s as [|c s IH]; intros before; simpl; auto.
  intros H. apply andb_true_iff in H. destruct H as [H1 H2].
  assert (N1 : (c =? 931)%N = false).
  { apply N.eqb_neq. intros ->. discriminate. }
  assert (N2 : (c =? 304)%N = false).
  { apply N.eqb_neq. intros ->. discriminate. }
  rewrite N1. unfold full_lower. rewrite N2, (simple_lower_ascii _ H1).
  simpl. rewrite IH; auto.
Qed.

Lemma lower_ascii (s : string) :
  all_chars is_ascii s = true -> lower s = sql_lower s.
Proof. apply lower_from_ascii. Qed.

(** ** C1: the merge key *)

(** The key of a record with an ISBN is the ISBN as extracted, not its
    normal form: an ISBN-10 that ends in [X] keeps the upper case. *)
Lemma merge_key_is_not_normalized :
  merge_key ex_book_X = "080213825X"
  /\ spec_merge_key ex_book_X = "080213825x"
  /\ merge_key ex_book_X <> spec_merge_key ex_book_X.
Proof. vm_compute. repeat split; try reflexivity. discriminate. Qed.

(** C1 (amended).  The key under which a record is folded is its ISBN as
    extracted whenever that is not empty, and otherwise the lower-cased
    title, a bar, and the lower-cased authors joined by commas; after the
    fold the map holds an entry under that key and no other key changed.
    Where the extracted ISBN is already in normal form the key is the
    normalized ISBN. *)
Theorem merge_key_is_extracted_isbn (merged : list (string * Book))
    (bk : Book) :
  merge_key bk
  = (if is_empty (isbn bk)
     then lower (title bk) ++ "|" ++ join "," (map lower (authors bk))
     else isbn bk)
  /\ dict_get (merge_key bk) (merge_step merged bk)
     = Some (winner merged bk)
  /\ (forall k, String.eqb k (merge_key bk) = false ->
                dict_get k (merge_step merged bk) = dict_get k merged)
  /\ (is_empty (isbn bk) = false ->
      normalize_isbn (isbn bk) = isbn bk ->
      merge_key bk = spec_merge_key bk).
Proof.
  repeat split.
  - unfold merge_key. destruct (is_empty (isbn bk)); auto.
    change (title bk ++ "|" ++ join "," (authors bk))
      with (title bk ++ String 124%N (join "," (authors bk))).
    rewrite (lower_break _ _ 124%N eq_refl), lower_join_comma.
    reflexivity.
  - rewrite merge_step_get, string_eqb_refl. reflexivity.
  - intros k H. rewrite merge_step_get, H. reflexivity.
  - intros H1 H2. unfold merge_key, spec_merge_key.
    rewrite H2, H1. reflexivity.
Qed.

Lemma merge_key_is_extracted_isbn_witness :
  merge_key ex_rank5 = "111"
  /\ dict_get "Foo|ann" (merge_step [("Foo|ann", ex_rank2)] ex_rank5)
     = Some ex_rank2
  /\ merge_key ex_rank5 = spec_merge_key ex_rank5.
Proof.
  pose proof (merge_key_is_extracted_isbn [("Foo|ann", ex_rank2)] ex_rank5)
    as [H1 [_ [H3 H4]]].
  split; [exact H1|]. split.
  - rewrite (H3 "Foo|ann"); reflexivity.
  - apply H4; reflexivity.
Defined.

(** ** C4: which record survives a collision *)

Lemma incoming_wins_iff (bk old : Book) :
  incoming_wins bk old = true
  <-> exists r, rank bk = Some r
                /\ (rank old = None
                    \/ exists ro, rank old = Some ro /\ (r < ro)%Z).
Proof.
  unfold incoming_wins. destruct (rank bk) as [r|].
  - destruct (rank old) as [ro|].
    + rewrite Z.ltb_lt. split.
      * intros H. exists r. split; auto. right. exists ro. auto.
      * intros [r' [H1 [H2|[ro' [H2 H3]]]]]; [discriminate|].
        congruence.
    + split; auto. intros _. exists r. auto.
  - split; [discriminate|]. intros [r [H _]]. discriminate.
Qed.

(** C4.  When the key of the incoming record is present, the stored record
    is replaced exactly when the incoming rank is present and the stored
    rank is absent or strictly greater; otherwise the map is unchanged.
    What is stored afterwards is one of the two records as a whole, and on
    equal ranks it is the one stored first.  The key keeps its place. *)
Theorem merge_keeps_better_rank (merged : list (string * Book))
    (bk old : Book) :
  dict_get (merge_key bk) merged = Some old ->
  (incoming_wins bk old = true
   <-> exists r, rank bk = Some r
                 /\ (rank old = None
                     \/ exists ro, rank old = Some ro /\ (r < ro)%Z))
  /\ dict_get (merge_key bk) (merge_step merged bk)
     = Some (if incoming_wins bk old then bk else old)
  /\ (incoming_wins bk old = false -> merge_step merged bk = merged)
  /\ (rank bk = rank old -> merge_step merged bk = merged)
  /\ dict_keys (merge_step merged bk) = dict_keys merged.
Proof.
  intros G. split; [apply incoming_wins_iff|].
  assert (Hno : incoming_wins bk old = false -> merge_step merged bk = merged).
  { intros H. unfold merge_step. rewrite G, H. reflexivity. }
  split; [|split; [exact Hno|split]].
  - rewrite merge_step_get, string_eqb_refl. unfold winner.
    rewrite G. reflexivity.
  - intros E. apply Hno. unfold incoming_wins. rewrite E.
    destruct (rank old) as [ro|]; auto. apply Z.ltb_irrefl.
  - unfold merge_step. rewrite G.
    destruct (incoming_wins bk old); auto.
    eapply dict_keys_set_present; eauto.
Qed.

Lemma merge_keeps_better_rank_witness :
  dict_get "111" (merge_step [("111", ex_rank5)] ex_rank2) = Some ex_rank2
  /\ merge_step [("111", ex_rank2)] ex_rank5 = [("111", ex_rank2)]
  /\ merge_step [("111", ex_rank2)] ex_rank2' = [("111", ex_rank2)].
Proof.
  split; [|split].
  - pose proof (merge_keeps_better_rank [("111", ex_rank5)] ex_rank2
                  ex_rank5 eq_refl) as [_ [H _]].
    exact H.
  - pose proof (merge_keeps_better_rank [("111", ex_rank2)] ex_rank5
                  ex_rank2 eq_refl) as [_ [_ [H _]]].
    apply H. reflexivity.
  - pose proof (merge_keeps_better_rank [("111", ex_rank2)] ex_rank2'
                  ex_rank2 eq_refl) as [_ [_ [_ [H _]]]].
    apply H. reflexivity.
Defined.

(** ** Order on strings *)

Lemma char_compare_refl (c : char) : N.compare c c = Eq.
Proof. apply N.compare_refl. Qed.

Lemma char_compare_lt_trans (a b c : char) :
  N.compare a b = Lt -> N.compare b c = Lt -> N.compare a c = Lt.
Proof. rewrite !N.compare_lt_iff. apply N.lt_trans. Qed.

Lemma string_compare_refl (s : string) : String.compare s s = Eq.
Proof.
  induction s as [|c s IH]; simpl; auto.
  rewrite char_compare_refl. exact IH.
Qed.

Lemma string_compare_lt_trans (s1 s2 s3 : string) :
  String.compare s1 s2 = Lt -> String.compare s2 s3 = Lt ->
  String.compare s1 s3 = Lt.
Proof.
  revert s2 s3. induction s1 as [|a s1 IH]; intros [|b s2] [|c s3];
    simpl; try congruence.
  destruct (N.compare a b) eqn:Eab; try discriminate.
  - apply N.compare_eq_iff in Eab. subst b.
    destruct (N.compare a c) eqn:Eac; try congruence.
    apply IH.
  - intros _. destruct (N.compare b c) eqn:Ebc; try discriminate.
    + apply N.compare_eq_iff in Ebc. subst c. rewrite Eab. auto.
    + intros _. rewrite (char_compare_lt_trans _ _ _ Eab Ebc). auto.
Qed.

Lemma string_leb_iff (s1 s2 : string) :
  String.leb s1 s2 = true <-> String.compare s1 s2 = Lt \/ s1 = s2.
Proof.
  unfold String.leb. destruct (String.compare s1 s2) eqn:E.
  - apply string_compare_eq_iff in E. tauto.
  - tauto.
  - split; [discriminate|]. intros [H|H]; [discriminate|].
    subst. rewrite string_compare_refl in E. discriminate.
Qed.

Lemma string_leb_trans (s1 s2 s3 : string) :
  String.leb s1 s2 = true -> String.leb s2 s3 = true ->
  String.leb s1 s3 = true.
Proof.
  rewrite !string_leb_iff. intros [H1|H1] [H2|H2]; subst; auto.
  left. eapply string_compare_lt_trans; eauto.
Qed.

(** ** The sort key spelled out *)

Lemma key_leb_in_order (a b : Book) :
  key_leb (sort_key a) (sort_key b) = true <-> in_order a b.
Proof.
  unfold key_leb, sort_key, key_compare, in_order, title_le, String.leb.
  destruct (rank a) as [ra|], (rank b) as [rb|]; simpl.
  - destruct (Z.compare ra rb) eqn:E.
    + apply Z.compare_eq in E. subst.
      destruct (String.compare (lower (title a)) (lower (title b)));
        split; auto; try discriminate; intros [H|[_ H]]; auto; lia.
    + apply Z.compare_lt_iff in E. split; auto.
    + apply Z.compare_gt_iff in E. split; [discriminate|].
      intros [H|[H _]]; lia.
  - tauto.
  - split; [discriminate|tauto].
  - destruct (String.compare (lower (title a)) (lower (title b)));
      split; auto.
Qed.

Lemma in_order_total (a b : Book) : in_order a b \/ in_order b a.
Proof.
  unfold in_order, title_le.
  destruct (string_leb_total (lower (title a)) (lower (title b))) as [H|H];
    destruct (rank a) as [ra|], (rank b) as [rb|]; auto.
  - destruct (Z.lt_trichotomy ra rb) as [L|[L|L]]; auto.
  - destruct (Z.lt_trichotomy ra rb) as [L|[L|L]]; auto.
Qed.

Lemma in_order_trans (a b c : Book) :
  in_order a b -> in_order b c -> in_order a c.
Proof.
  unfold in_order, title_le.
  destruct (rank a) as [ra|], (rank b) as [rb|], (rank c) as [rc|];
    try tauto.
  - intros [H1|[H1 T1]] [H2|[H2 T2]]; try (left; lia).
    right. split; [lia|]. eapply string_leb_trans; eauto.
  - apply string_leb_trans.
Qed.

(** ** Insertion sort *)

Section SortedFacts.
Context {A K : Type} (key : A -> K) (leb : K -> K -> bool).
Let le (x y : A) : Prop := leb (key x) (key y) = true.
Hypothesis le_total : forall x y, le x y \/ le y x.
Hypothesis le_trans : forall x y z, le x y -> le y z -> le x z.

Lemma insert_sorted_perm (x : A) (l : list A) :
  Permutation (insert_sorted key leb x l) (x :: l).
Proof.
  induction l as [|y l IH]; simpl; auto.
  destruct (leb (key x) (key y)); auto.
  rewrite IH. apply perm_swap.
Qed.

Lemma sorted_perm (l : list A) : Permutation (sorted key leb l) l.
Proof.
  induction l as [|x l IH]; simpl; auto.
  rewrite insert_sorted_perm. auto.
Qed.

Lemma insert_sorted_strongly (x : A) (l : list A) :
  StronglySorted le l -> StronglySorted le (insert_sorted key leb x l).
Proof.
  induction 1 as [|y l Hs IH Hy]; simpl.
  - constructor; constructor.
  - destruct (leb (key x) (key y)) eqn:E.
    + constructor; [constructor; auto|].
      constructor; [exact E|].
      eapply Forall_impl; [|exact Hy]. intros z Hz.
      eapply le_trans; eauto.
    + constructor; auto.
      assert (Hyx : le y x).
      { destruct (le_total x y) as [H|H]; auto.
        unfold le in H. congruence. }
      eapply Permutation_Forall.
      * symmetry. apply insert_sorted_perm.
      * constructor; auto.
Qed.

Lemma sorted_strongly (l : list A) : StronglySorted le (sorted key leb l).
Proof.
  induction l as [|x l IH]; simpl.
  - constructor.
  - apply insert_sorted_strongly. exact IH.
Qed.
End SortedFacts.

Lemma StronglySorted_split {A} (R : A -> A -> Prop)
    (l1 l2 l3 : list A) (a b : A) :
  StronglySorted R (l1 ++ a :: l2 ++ b :: l3)%list -> R a b.
Proof.
  induction l1 as [|x l1 IH]; simpl; intros H.
  - inversion H as [|? ? _ HF]; subst.
    rewrite Forall_forall in HF. apply HF.
    apply in_or_app. right. left. reflexivity.
  - inversion H; subst. auto.
Qed.

Lemma StronglySorted_weaken {A} (R S : A -> A -> Prop) (l : list A) :
  (forall x y, R x y -> S x y) -> StronglySorted R l -> StronglySorted S l.
Proof.
  intros HRS. induction 1 as [|x l Hs IH Hx]; constructor; auto.
  eapply Forall_impl; [|exact Hx]. intros y. apply HRS.
Qed.

(** ** C8: the order of the final sequence *)

(** C8.  The sequence a group produces holds the merged entries, each once,
    and any entry that comes earlier than another is in order with it: a
    present rank before an absent one, a lower rank before a higher one,
    and on equal ranks or two absent ranks the lower-cased titles
    ascending. *)
Theorem group_result_sorted (idx : list (string * NytList))
    (list_slugs : list string) :
  Permutation (group_result idx list_slugs)
              (dict_values (merge_group idx list_slugs))
  /\ StronglySorted in_order (group_result idx list_slugs)
  /\ (forall l1 a l2 b l3,
         group_result idx list_slugs = (l1 ++ a :: l2 ++ b :: l3)%list ->
         in_order a b)
  /\ (forall a b,
         in_order a b
         <-> key_leb (sort_key a) (sort_key b) = true).
Proof.
  assert (S : StronglySorted in_order (group_result idx list_slugs)).
  { unfold group_result.
    eapply StronglySorted_weaken.
    2: { apply (sorted_strongly sort_key key_leb).
         - intros x y. rewrite !key_leb_in_order. apply in_order_total.
         - intros x y z. rewrite !key_leb_in_order. apply in_order_trans. }
    intros x y H. apply key_leb_in_order. exact H. }
  split; [apply sorted_perm|]. split; [exact S|]. split.
  - intros l1 a l2 b l3 E. rewrite E in S.
    eapply StronglySorted_split; eauto.
  - intros a b. symmetry. apply key_leb_in_order.
Qed.

Lemma group_result_sorted_witness :
  map title (group_result (overview_to_index [ex_list_A; ex_list_B])
                          ["A"; "C"; "B"])
  = ["Abc"; "Foo (B)"; "Bar"]
  /\ in_order ex_book_X
       (Book_init "Bar" ["Bo Yi"] "" "A" None None).
Proof.
  split; [reflexivity|].
  pose proof (group_result_sorted (overview_to_index [ex_list_A; ex_list_B])
                ["A"; "C"; "B"]) as [_ [_ [H _]]].
  apply (H [] ex_book_X
           [Book_init "Foo (B)" ["Ann Lee"] "111" "B" (Some 1%Z) None]
           (Book_init "Bar" ["Bo Yi"] "" "A" None None) []).
  reflexivity.
Defined.

(** ** Reading the catalog *)

Lemma advance_advance (n m : nat) (w : World) :
  advance n (advance m w) = advance (n + m) w.
Proof. unfold advance. simpl. f_equal. lia. Qed.

Lemma step_eq (w : World) :
  step w = if faults w (tick w) then Raise OperationalError (advance 1 w)
           else Ok tt (advance 1 w).
Proof. reflexivity. Qed.

Lemma reads_ret {A} (a : A) (w : World) (P : A -> Prop) :
  P a -> reads (ret a) w P.
Proof.
  intros H. unfold reads, ret. split; auto. exists 0.
  destruct w; reflexivity.
Qed.

Lemma reads_bind {A B} (m : M A) (k : A -> M B) (w : World)
    (P : A -> Prop) (Q : B -> Prop) :
  reads m w P ->
  (forall a n, P a -> reads (k a) (advance n w) Q) ->
  reads (bind m k) w Q.
Proof.
  unfold reads, bind. intros Hm Hk.
  destruct (m w) as [a w1|e w1].
  - destruct Hm as [Pa [n ->]]. specialize (Hk a n Pa).
    destruct (k a (advance n w)) as [b w2|e w2].
    + destruct Hk as [Qb [n' ->]]. split; auto.
      exists (n' + n). apply advance_advance.
    + exact Hk.
  - exact Hm.
Qed.

Lemma reads_query {A} (q : Catalog -> A) (w : World) :
  reads (execute_query q) w (fun a => a = q (current w)).
Proof.
  unfold reads, execute_query, bind. rewrite step_eq.
  destruct (faults w (tick w)) eqn:F.
  - split; auto. exists (tick w). exact F.
  - split; auto. exists 1. reflexivity.
Qed.

Lemma reads_weaken {A} (m : M A) (w : World) (P Q : A -> Prop) :
  (forall a, P a -> Q a) -> reads m w P -> reads m w Q.
Proof.
  unfold reads. intros H. destruct (m w); auto.
  intros [Pa Hn]. auto.
Qed.

Lemma reads_total {A} (m : M A) (w : World) (P : A -> Prop) :
  fault_free w -> reads m w P ->
  exists a n, m w = Ok a (advance n w) /\ P a.
Proof.
  unfold reads. intros F. destruct (m w) as [a w'|e w'].
  - intros [Pa [n ->]]. eauto.
  - intros [_ [n Hn]]. rewrite F in Hn. discriminate.
Qed.

(** ** The two strategies *)

Lemma find_book_id_by_isbn_reads (isbn lib : string) (w : World) :
  reads (find_book_id_by_isbn isbn lib) w
        (fun r => r = isbn_strategy (current w) isbn lib).
Proof.
  unfold find_book_id_by_isbn, isbn_strategy.
  destruct (is_empty isbn); [apply reads_ret; reflexivity|].
  destruct (is_empty (normalize_isbn isbn)); [apply reads_ret; reflexivity|].
  eapply reads_bind; [apply reads_query|].
  intros a n ->. apply reads_ret. reflexivity.
Qed.

Lemma author_loop_reads (tnorm : string) (authors : list string)
    (lib : string) (w : World) :
  let hit a := option_map book_id
                 (select_by_author_title tnorm (make_author_like_pattern a)
                                         lib (current w)) in
  reads (author_loop tnorm authors lib) w
        (fun r =>
           (exists l1 a l2 id,
               authors = (l1 ++ a :: l2)%list
               /\ Forall (fun x => hit x = None) l1
               /\ hit a = Some id /\ r = Some id)
           \/ (Forall (fun x => hit x = None) authors /\ r = None)).
Proof.
  intros hit. revert w hit. induction authors as [|a rest IH]; intros w hit.
  - apply reads_ret. right. split; auto.
  - simpl. eapply reads_bind; [apply reads_query|].
    intros row n ->.
    change (current (advance n w)) with (current w).
    destruct (select_by_author_title tnorm (make_author_like_pattern a) lib
                (current w)) as [r|] eqn:E.
    + apply reads_ret. left. exists [], a, rest, (book_id r).
      repeat split; auto. unfold hit. rewrite E. reflexivity.
    + eapply reads_weaken; [|apply IH].
      change (current (advance n w)) with (current w).
      intros r [(l1 & a' & l2 & id & H1 & H2 & H3 & H4)|[H1 H2]].
      * left. exists (a :: l1), a', l2, id. subst rest.
        repeat split; auto. constructor; auto.
        unfold hit. rewrite E. reflexivity.
      * right. split; auto. constructor; auto.
        unfold hit. rewrite E. reflexivity.
Qed.

Lemma find_book_id_by_author_title_reads (title : string)
    (authors : list string) (lib : string) (w : World) :
  reads (find_book_id_by_author_title title authors lib) w
        (first_author_hit (current w) title authors lib).
Proof.
  unfold find_book_id_by_author_title, first_author_hit, author_strategy.
  destruct (is_empty (normalize_title title)) eqn:E.
  - apply reads_ret. right. split; auto.
    apply Forall_forall. auto.
  - apply author_loop_reads.
Qed.

Lemma find_some_book {P : BookRow -> bool} {l : list BookRow} {r : BookRow} :
  find P l = Some r -> In r l /\ P r = true.
Proof. apply find_some. Qed.

Lemma isbn_strategy_truthy (db : Catalog) (isbn lib id : string) :
  ids_nonempty db -> isbn_strategy db isbn lib = Some id ->
  truthy (Some id) = true.
Proof.
  unfold isbn_strategy, ids_nonempty. intros Hdb.
  destruct (is_empty isbn); [discriminate|].
  destruct (is_empty (normalize_isbn isbn)); [discriminate|].
  destruct (select_by_isbn _ lib db) as [r|] eqn:E; [|discriminate].
  apply find_some_book in E. destruct E as [Hin _].
  rewrite Forall_forall in Hdb. specialize (Hdb r Hin).
  simpl. intros [= <-]. apply negb_true_iff. apply is_empty_false. exact Hdb.
Qed.

Lemma author_strategy_truthy (db : Catalog) (title a lib id : string) :
  ids_nonempty db -> author_strategy db title a lib = Some id ->
  truthy (Some id) = true.
Proof.
  unfold author_strategy, ids_nonempty. intros Hdb.
  destruct (is_empty (normalize_title title)); [discriminate|].
  destruct (select_by_author_title _ _ lib db) as [r|] eqn:E;
    [|discriminate].
  apply find_some_book in E. destruct E as [Hin _].
  rewrite Forall_forall in Hdb. specialize (Hdb r Hin).
  simpl. intros [= <-]. apply negb_true_iff. apply is_empty_false. exact Hdb.
Qed.

(** The resolver in any catalog: an identifier counts as found when it is
    not the empty string. *)
Lemma resolve_reads_truthy (b : Book) (lib : string) (w : World) :
  reads (resolve_abs_id_for_book b lib) w
        (fun r =>
           let i := isbn_strategy (current w) (isbn b) lib in
           (truthy i = true /\ r = i)
           \/ (truthy i = false
               /\ exists a,
                    first_author_hit (current w) (title b) (authors b) lib a
                    /\ r = if truthy a then a else None)).
Proof.
  unfold resolve_abs_id_for_book.
  eapply reads_bind; [apply find_book_id_by_isbn_reads|].
  intros bid n ->.
  destruct (truthy (isbn_strategy (current w) (isbn b) lib)) eqn:T.
  - apply reads_ret. left. auto.
  - eapply reads_bind; [apply find_book_id_by_author_title_reads|].
    change (current (advance n w)) with (current w).
    intros a m H.
    destruct (truthy a) eqn:Ta; apply reads_ret; right; split; auto;
      exists a; rewrite Ta; auto.
Qed.

Lemma resolve_reads (b : Book) (lib : string) (w : World) :
  ids_nonempty (current w) ->
  reads (resolve_abs_id_for_book b lib) w (resolve_outcome (current w) b lib).
Proof.
  intros Hdb. eapply reads_weaken; [|apply resolve_reads_truthy].
  intros r. cbv zeta. unfold resolve_outcome.
  destruct (isbn_strategy (current w) (isbn b) lib) as [id|] eqn:E.
  - rewrite (isbn_strategy_truthy _ _ _ _ Hdb E).
    intros [[_ ->]|[T _]]; [reflexivity|discriminate].
  - intros [[T _]|[_ [a [H ->]]]]; [discriminate|].
    destruct H as [(l1 & x & l2 & id & H1 & H2 & H3 & ->)|[H1 ->]].
    + rewrite (author_strategy_truthy _ _ _ _ _ Hdb H3).
      left. exists l1, x, l2, id. auto.
    + right. auto.
Qed.

(** ** C5: the resolver *)

Example resolve_ex_isbn :
  resolve_abs_id_for_book ex_book_isbn "lib1" (quiet ex_db)
  = Ok (Some "cat-42") (advance 1 (quiet ex_db)).
Proof. reflexivity. Qed.

Example resolve_ex_author :
  resolve_abs_id_for_book ex_book_author "lib1" (quiet ex_db)
  = Ok (Some "cat-7") (advance 2 (quiet ex_db)).
Proof. reflexivity. Qed.

Example resolve_ex_unknown :
  resolve_abs_id_for_book ex_book_unknown "lib1" (quiet ex_db)
  = Ok None (advance 2 (quiet ex_db)).
Proof. reflexivity. Qed.

Example resolve_ex_other_library :
  resolve_abs_id_for_book ex_book_isbn "lib2" (quiet ex_db)
  = Ok None (advance 2 (quiet ex_db)).
Proof. reflexivity. Qed.

(** C5.  In a catalog whose book identifiers are not empty, the resolver
    returns what the ISBN strategy finds when it finds a book, otherwise
    what the title-and-author lookup finds for the first author, in list
    order, for which it finds a book, otherwise nothing.  It raises only
    when a statement fails; finding nothing is a value, and the caller
    drops the record. *)
Theorem resolve_first_success (w : World) (b : Book) (lib : string) :
  ids_nonempty (current w) ->
  match resolve_abs_id_for_book b lib w with
  | Ok r w' => resolve_outcome (current w) b lib r /\ current w' = current w
  | Raise e _ => e = OperationalError /\ exists n, faults w n = true
  end
  /\ (fault_free w ->
      exists r n,
        resolve_abs_id_for_book b lib w = Ok r (advance n w)
        /\ resolve_outcome (current w) b lib r)
  /\ (forall seen kept w',
         resolve_abs_id_for_book b lib w = Ok None w' ->
         enrich_step lib (seen, kept) b w = Ok (seen, kept) w').
Proof.
  intros Hdb. pose proof (resolve_reads b lib w Hdb) as R.
  split; [|split].
  - unfold reads in R.
    destruct (resolve_abs_id_for_book b lib w) as [r w'|e w']; auto.
    destruct R as [H [n ->]]. auto.
  - intros F. apply (reads_total _ _ _ F R).
  - intros seen kept w' E. unfold enrich_step, bind. rewrite E. reflexivity.
Qed.

Lemma resolve_first_success_witness :
  exists r n,
    resolve_abs_id_for_book ex_book_author "lib1" (quiet ex_db)
    = Ok r (advance n (quiet ex_db))
    /\ resolve_outcome ex_db ex_book_author "lib1" r.
Proof.
  assert (Hdb : ids_nonempty (current (quiet ex_db)))
    by (repeat constructor; discriminate).
  pose proof (resolve_first_success (quiet ex_db) ex_book_author "lib1" Hdb)
    as [_ [H _]].
  apply H. intros n. reflexivity.
Defined.

(** ** C10: the pattern of a blank author *)

Lemma split_go_all_space (s : string) :
  all_space s = true -> split_go s = (EmptyString, []).
Proof.
  induction s as [|c s IH]; simpl; auto.
  intros H. apply andb_true_iff in H. destruct H as [H1 H2].
  rewrite (IH H2), H1. reflexivity.
Qed.

Lemma blank_pattern (name : string) :
  all_space name = true -> make_author_like_pattern name = "%%".
Proof.
  intros H. unfold make_author_like_pattern, split.
  rewrite (split_go_all_space _ H). reflexivity.
Qed.

Lemma like_match_percent (s : string) : like_match "%" s = true.
Proof.
  induction s as [|c s IH]; [reflexivity|].
  simpl. simpl in IH. exact IH.
Qed.

Lemma like_match_percent_percent (s : string) : like_match "%%" s = true.
Proof.
  destruct s as [|c s]; [reflexivity|].
  change (like_match "%%" (String c s))
    with (like_match "%" (String c s)
          || (fix star (s : string) : bool :=
                like_match "%" s
                || match s with
                   | EmptyString => false
                   | String _ s' => star s'
                   end) s).
  rewrite like_match_percent. reflexivity.
Qed.

Lemma like_percent_percent (s : string) : like "%%" s = true.
Proof. apply like_match_percent_percent. Qed.

Lemma existsb_ext_in {A} (f g : A -> bool) (l : list A) :
  (forall x, f x = g x) -> existsb f l = existsb g l.
Proof.
  intros H. induction l as [|x l IH]; simpl; auto.
  rewrite H, IH. reflexivity.
Qed.

Lemma has_author_like_blank (db : Catalog) (bid : string) :
  has_author_like db "%%" bid = has_contributor db bid.
Proof.
  unfold has_author_like, has_contributor.
  apply existsb_ext_in. intros ba. f_equal.
  apply existsb_ext_in. intros a.
  rewrite like_percent_percent. apply andb_true_r.
Qed.

(** A book of the library whose title matches is not found through a blank
    author when the book has no contributor. *)
Lemma blank_author_needs_a_contributor :
  make_author_like_pattern "  " = "%%"
  /\ title_hit ex_db "Baz" "lib1" (mkBookRow "cat-9" (Some "Baz") None)
  /\ find_book_id_by_author_title "Baz" ["  "] "lib1" (quiet ex_db)
     = Ok None (advance 1 (quiet ex_db)).
Proof.
  split; [reflexivity|]. split; [|reflexivity].
  unfold title_hit. split; [|split]; try reflexivity.
  simpl. auto.
Qed.

(** C10 (amended).  The pattern of an empty or all-whitespace author name is
    [%%], which matches every contributor name; with it the lookup's test
    on contributors only asks that the book has one.  So when a record has
    such an author, and the library holds a book with a matching title and
    at least one contributor, the lookup returns a book of the library with
    a matching title, whatever its contributors are called. *)
Theorem blank_author_matches_any_contributor :
  (forall name, all_space name = true ->
                make_author_like_pattern name = "%%")
  /\ (forall s, like "%%" s = true)
  /\ (forall db tnorm lib name b,
         all_space name = true ->
         where_author_title db tnorm (make_author_like_pattern name) lib b
         = title_is tnorm b && has_contributor db (book_id b)
           && in_library db lib (book_id b))
  /\ (forall w title authors name lib b,
         fault_free w ->
         all_space name = true -> In name authors ->
         is_empty (normalize_title title) = false ->
         title_hit (current w) title lib b ->
         has_contributor (current w) (book_id b) = true ->
         exists b' n,
           find_book_id_by_author_title title authors lib w
           = Ok (Some (book_id b')) (advance n w)
           /\ title_hit (current w) title lib b').
Proof.
  split; [exact blank_pattern|]. split; [exact like_percent_percent|].
  assert (W : forall db tnorm lib name b,
             all_space name = true ->
             where_author_title db tnorm (make_author_like_pattern name)
                                lib b
             = title_is tnorm b && has_contributor db (book_id b)
               && in_library db lib (book_id b)).
  { intros db tnorm lib name b H. unfold where_author_title.
    rewrite (blank_pattern _ H), has_author_like_blank. reflexivity. }
  split; [exact W|].
  intros w title authors name lib b F Hn Hin Ht [Hb [Hbt Hbl]] Hc.
  destruct (reads_total _ _ _ F
              (find_book_id_by_author_title_reads title authors lib w))
    as (r & n & E & H).
  destruct H as [(l1 & a & l2 & id & H1 & H2 & H3 & ->)|[H1 ->]].
  - unfold author_strategy in H3. rewrite Ht in H3.
    destruct (select_by_author_title _ _ lib (current w)) as [b'|] eqn:S;
      [|discriminate].
    injection H3 as <-.
    apply find_some_book in S. destruct S as [S1 S2].
    unfold where_author_title in S2.
    apply andb_true_iff in S2. destruct S2 as [S2 S3].
    apply andb_true_iff in S2. destruct S2 as [S2 _].
    exists b', n. split; [exact E|]. repeat split; auto.
  - exfalso. rewrite Forall_forall in H1. specialize (H1 name Hin).
    unfold author_strategy in H1. rewrite Ht in H1.
    destruct (select_by_author_title _ _ lib (current w)) as [b'|] eqn:S;
      [discriminate|].
    unfold select_by_author_title in S.
    pose proof (find_none _ _ S b Hb) as K.
    rewrite (W _ _ _ _ _ Hn), Hbt, Hc, Hbl in K. discriminate.
Qed.

Lemma blank_author_matches_any_contributor_witness :
  exists b' n,
    find_book_id_by_author_title "THE BAR" ["Zed"; " "] "lib1" (quiet ex_db)
    = Ok (Some (book_id b')) (advance n (quiet ex_db))
    /\ title_hit ex_db "THE BAR" "lib1" b'.
Proof.
  pose proof blank_author_matches_any_contributor as [_ [_ [_ H]]].
  apply (H (quiet ex_db) "THE BAR" ["Zed"; " "] " " "lib1"
           (mkBookRow "cat-7" (Some "The Bar") None)).
  - intros n. reflexivity.
  - reflexivity.
  - simpl. auto.
  - reflexivity.
  - unfold title_hit. split; [|split]; try reflexivity. simpl. auto.
  - reflexivity.
Defined.

(** ** Writing the catalog, when no statement fails *)

Lemma current_set_current (db : Catalog) (w : World) :
  current (set_current db w) = db.
Proof. unfold current, set_current. destruct (pending w); reflexivity. Qed.

Lemma faults_set_current (db : Catalog) (w : World) :
  faults (set_current db w) = faults w.
Proof. unfold set_current. destruct (pending w); reflexivity. Qed.

Lemma execute_query_ok {A} (q : Catalog -> A) (w : World) :
  fault_free w -> execute_query q w = Ok (q (current w)) (advance 1 w).
Proof.
  intros F. unfold execute_query, bind. rewrite step_eq, F. reflexivity.
Qed.

Lemma execute_update_ok (u : Catalog -> Catalog) (w : World) :
  fault_free w ->
  execute_update u w = Ok tt (set_current (u (current w)) (advance 1 w)).
Proof.
  intros F. unfold execute_update, bind. rewrite step_eq, F. reflexivity.
Qed.

Lemma fault_free_advance (n : nat) (w : World) :
  fault_free w -> fault_free (advance n w).
Proof. intros F k. apply F. Qed.

Lemma fault_free_set_current (db : Catalog) (w : World) :
  fault_free w -> fault_free (set_current db w).
Proof. intros F k. rewrite faults_set_current. apply F. Qed.

(** ** C6: [get_or_create_collection] *)

(** A group of that name in another library is reused. *)
Lemma get_or_create_reuses_other_scope :
  exists w',
    get_or_create_collection "NY Times Best Sellers" "lib1"
                             (quiet ex_db_other_scope)
    = Ok "c1" w'
    /\ group_scope (current w') "c1" = Some "lib2".
Proof.
  remember (get_or_create_collection "NY Times Best Sellers" "lib1"
              (quiet ex_db_other_scope)) as r eqn:E.
  vm_compute in E. subst r. eexists. split; reflexivity.
Qed.

Lemma select_collection_some (name : string) (db : Catalog)
    (r : CollectionRow) :
  select_collection name db = Some r ->
  In r (db_collections db) /\ coll_name r = name.
Proof.
  unfold select_collection. intros H. apply find_some in H.
  destruct H as [H1 H2]. apply string_eqb_eq in H2. auto.
Qed.

(** C6 (amended).  The group is looked up by name alone.  When a group of
    that name exists, the first one is returned whatever its library, and
    the call changes nothing but the modification time of the rows with
    its identifier; its library stays what it was.  When none exists, a
    group is added with a fresh identifier, that name, no description, the
    current time as creation and modification time, and the given
    library. *)
Theorem get_or_create_collection_by_name (w : World) (name lib : string) :
  fault_free w ->
  exists cid w',
    get_or_create_collection name lib w = Ok cid w'
    /\ match select_collection name (current w) with
       | Some r =>
           cid = coll_id r
           /\ current w'
              = update_collection_updatedAt (clock w) cid (current w)
           /\ In (touch (clock w) r) (db_collections (current w'))
           /\ coll_libraryId (touch (clock w) r) = coll_libraryId r
       | None =>
           cid = uuid_str (uuid_next w)
           /\ current w' = insert_collection cid name (clock w) lib (current w)
           /\ In (mkCollectionRow cid name None (clock w) (clock w) lib)
                 (db_collections (current w'))
       end.
Proof.
  intros F. unfold get_or_create_collection, bind, utc_now_sql.
  set (w1 := mkWorld (committed w) (pending w) (tick w) (faults w)
                     (S (clock w)) (uuid_next w) (stdout w)).
  assert (F1 : fault_free w1) by exact F.
  rewrite (execute_query_ok _ _ F1).
  change (current w1) with (current w).
  destruct (select_collection name (current w)) as [r|] eqn:S.
  - rewrite (execute_update_ok _ _ (fault_free_advance 1 _ F1)).
    eexists. eexists. split; [reflexivity|].
    rewrite current_set_current.
    change (current (advance 1 (advance 1 w1))) with (current w).
    repeat split.
    apply select_collection_some in S. destruct S as [S1 S2].
    unfold update_collection_updatedAt. simpl.
    apply in_map_iff. exists r. split; auto.
    rewrite string_eqb_refl. reflexivity.
  - unfold new_uuid. simpl.
    match goal with
    | |- context [execute_update ?u ?w2] =>
        assert (F2 : fault_free w2) by exact F;
        rewrite (execute_update_ok u w2 F2)
    end.
    eexists. eexists. split; [reflexivity|].
    rewrite current_set_current. repeat split.
    unfold insert_collection. simpl.
    apply in_or_app. right. left. reflexivity.
Qed.

Lemma get_or_create_collection_by_name_witness :
  exists cid w',
    get_or_create_collection "NY Times Best Sellers" "lib1" (quiet ex_db)
    = Ok cid w'
    /\ cid = "uuid-0"
    /\ group_scope (current w') cid = Some "lib1".
Proof.
  destruct (get_or_create_collection_by_name (quiet ex_db)
              "NY Times Best Sellers" "lib1" (fun n => eq_refl))
    as (cid & w' & E & H1 & H2 & _).
  exists cid, w'. split; [exact E|]. split; [exact H1|].
  rewrite H2, H1. reflexivity.
Defined.

(** ** De-duplication by a set of seen keys *)

Lemma filter_filter {A} (f g : A -> bool) (l : list A) :
  filter f (filter g l) = filter (fun x => g x && f x) l.
Proof.
  induction l as [|x l IH]; simpl; auto.
  destruct (g x); simpl; [destruct (f x)|]; rewrite ?IH; reflexivity.
Qed.

Lemma filter_ext_all {A} (f g : A -> bool) (l : list A) :
  (forall x, f x = g x) -> filter f l = filter g l.
Proof.
  intros H. induction l as [|x l IH]; simpl; auto.
  rewrite H, IH. reflexivity.
Qed.

Lemma nub_In (l : list string) (x : string) : In x (nub l) <-> In x l.
Proof.
  induction l as [|y l IH]; simpl; [tauto|].
  rewrite filter_In, IH, negb_true_iff, string_eqb_neq.
  destruct (string_dec y x) as [->|N]; [tauto|].
  split; intros [H|H]; try tauto.
  right. split; auto.
Qed.

Lemma NoDup_filter {A} (f : A -> bool) (l : list A) :
  NoDup l -> NoDup (filter f l).
Proof.
  induction 1 as [|x l Hx Hl IH]; simpl; [constructor|].
  destruct (f x); auto. constructor; auto.
  rewrite filter_In. tauto.
Qed.

Lemma nub_NoDup (l : list string) : NoDup (nub l).
Proof.
  induction l as [|x l IH]; simpl; constructor.
  - rewrite filter_In, string_eqb_refl. simpl. intros [_ H]. discriminate.
  - apply NoDup_filter. exact IH.
Qed.

(** The loop of [replace_collection_books] keeps the first occurrences. *)
Lemma unique_ids_nub (books : list Book) (seen : list string) :
  unique_ids seen books
  = filter (fun i => negb (mem_str i seen)) (nub (resolved_ids books)).
Proof.
  revert seen. induction books as [|b rest IH]; intros seen; simpl; auto.
  unfold truthy. destruct (abs_book_id b) as [i|]; simpl; auto.
  destruct (is_empty i); simpl; auto.
  destruct (mem_str i seen) eqn:M; simpl.
  - rewrite IH, filter_filter. apply filter_ext_all. intros y.
    destruct (String.eqb y i) eqn:E; simpl; auto.
    apply string_eqb_eq in E. subst y. rewrite M. reflexivity.
  - f_equal. rewrite IH, filter_filter. apply filter_ext_all. intros y.
    simpl. destruct (String.eqb y i); reflexivity.
Qed.

Lemma unique_ids_first_occurrences (books : list Book) :
  unique_ids [] books = nub (resolved_ids books).
Proof.
  rewrite unique_ids_nub. simpl.
  induction (nub (resolved_ids books)) as [|x l IH]; simpl; congruence.
Qed.

(** ** Enumeration *)

Lemma enumerate_fst {A} (i : nat) (l : list A) :
  map fst (enumerate i l) = seq i (List.length l).
Proof.
  revert i. induction l as [|x l IH]; intros i; simpl; auto.
  rewrite IH. reflexivity.
Qed.

Lemma enumerate_snd {A} (i : nat) (l : list A) :
  map snd (enumerate i l) = l.
Proof.
  revert i. induction l as [|x l IH]; intros i; simpl; auto.
  rewrite IH. reflexivity.
Qed.

(** ** Replacing the membership *)

Lemma build_payload_ok (now : Timestamp) (cid : string)
    (ids : list string) (i : nat) (w : World) :
  exists rows w',
    build_payload now cid i ids w = Ok rows w'
    /\ current w' = current w /\ faults w' = faults w
    /\ map cb_position rows = enumerate i ids
    /\ Forall (fun r => cb_collectionId r = cid) rows.
Proof.
  revert i w. induction ids as [|x ids IH]; intros i w; simpl.
  - exists [], w. repeat split; auto.
  - unfold bind, new_uuid.
    match goal with
    | |- context [build_payload now cid (S i) ids ?w1] =>
        destruct (IH (S i) w1) as (rows & w' & E & H1 & H2 & H3 & H4)
    end.
    rewrite E. eexists. exists w'. split; [reflexivity|].
    split; [exact H1|]. split; [exact H2|]. split.
    + simpl. rewrite H3. reflexivity.
    + constructor; auto.
Qed.

Lemma set_collectionBooks_same (db : Catalog) :
  set_collectionBooks db (db_collectionBooks db) = db.
Proof. destruct db; reflexivity. Qed.

Lemma executemany_insert_ok (payload : list CollectionBookRow) (w : World) :
  fault_free w ->
  exists w',
    executemany_insert payload w = Ok tt w'
    /\ fault_free w'
    /\ current w'
       = set_collectionBooks (current w)
           (db_collectionBooks (current w) ++ payload)%list.
Proof.
  unfold executemany_insert. revert w.
  induction payload as [|r rest IH]; intros w F; simpl.
  - exists w. repeat split; auto.
    rewrite app_nil_r, set_collectionBooks_same. reflexivity.
  - unfold bind. rewrite (execute_update_ok _ _ F).
    match goal with
    | |- context [for_each rest _ tt ?w1] =>
        assert (F1 : fault_free w1)
          by (apply fault_free_set_current, fault_free_advance, F);
        destruct (IH w1 F1) as (w' & E & F' & H)
    end.
    exists w'. split; [exact E|]. split; [exact F'|].
    rewrite H, current_set_current. unfold insert_collection_book.
    simpl. rewrite <- app_assoc. reflexivity.
Qed.

Lemma membership_after_replace (db : Catalog) (cid cid' : string)
    (rows : list CollectionBookRow) :
  Forall (fun r => cb_collectionId r = cid) rows ->
  membership
    (set_collectionBooks (delete_collection_books cid db)
       (db_collectionBooks (delete_collection_books cid db) ++ rows)%list)
    cid'
  = if String.eqb cid' cid then map cb_position rows
    else membership db cid'.
Proof.
  intros H. unfold membership, delete_collection_books. simpl.
  rewrite filter_app, filter_filter, map_app.
  destruct (String.eqb cid' cid) eqn:E.
  - apply string_eqb_eq in E. subst cid'.
    replace (filter _ (db_collectionBooks db)) with (@nil CollectionBookRow).
    + simpl. f_equal. induction H as [|r rs Hr _ IH]; simpl; auto.
      rewrite Hr, string_eqb_refl, IH. reflexivity.
    + symmetry. induction (db_collectionBooks db) as [|r rs IH]; simpl; auto.
      destruct (String.eqb (cb_collectionId r) cid); simpl; auto.
  - replace (filter (fun r => String.eqb (cb_collectionId r) cid') rows)
      with (@nil CollectionBookRow).
    + rewrite app_nil_r. f_equal. apply filter_ext_all. intros r.
      destruct (String.eqb (cb_collectionId r) cid') eqn:E1;
        [|apply andb_false_r].
      apply string_eqb_eq in E1. rewrite E1, E. reflexivity.
    + symmetry. induction H as [|r rs Hr _ IH]; simpl; auto.
      rewrite Hr. rewrite string_eqb_sym, E. exact IH.
Qed.

Lemma replace_collection_books_ok (w : World) (cid : string)
    (books : list Book) :
  fault_free w ->
  exists w',
    replace_collection_books cid books w = Ok tt w'
    /\ fault_free w'
    /\ forall cid',
         membership (current w') cid'
         = if String.eqb cid' cid
           then enumerate 1 (nub (resolved_ids books))
           else membership (current w) cid'.
Proof.
  intros F. unfold replace_collection_books, bind, utc_now_sql.
  set (w1 := mkWorld (committed w) (pending w) (tick w) (faults w)
                     (S (clock w)) (uuid_next w) (stdout w)).
  assert (F1 : fault_free w1) by exact F.
  rewrite (execute_update_ok _ _ F1).
  change (current w1) with (current w).
  set (w2 := set_current (delete_collection_books cid (current w))
                         (advance 1 w1)).
  assert (F2 : fault_free w2)
    by (apply fault_free_set_current, fault_free_advance, F1).
  assert (C2 : current w2 = delete_collection_books cid (current w))
    by apply current_set_current.
  rewrite unique_ids_first_occurrences.
  destruct (nub (resolved_ids books)) as [|x ids] eqn:N.
  - exists w2. split; [reflexivity|]. split; [exact F2|].
    intros cid'. rewrite C2.
    pose proof (membership_after_replace (current w) cid cid' []
                  (Forall_nil _)) as H.
    rewrite app_nil_r, set_collectionBooks_same in H. exact H.
  - destruct (build_payload_ok (clock w) cid (x :: ids) 1 w2)
      as (rows & w3 & E3 & C3 & Fa3 & P3 & A3).
    rewrite E3.
    assert (F3 : fault_free w3) by (intros n; rewrite Fa3; apply F2).
    destruct (executemany_insert_ok rows w3 F3) as (w4 & E4 & F4 & C4).
    exists w4. split; [exact E4|]. split; [exact F4|].
    intros cid'. rewrite C4, C3, C2, membership_after_replace by exact A3.
    rewrite P3. reflexivity.
Qed.

(** ** C3: [replace_collection_books] *)

Example replace_ex :
  exists w',
    replace_collection_books "c1" ex_books_resolved (quiet ex_db_stale)
    = Ok tt w'
    /\ membership (current w') "c1" = [(1, "cat-42"); (2, "cat-7")]
    /\ membership (current w') "c2" = [(1, "cat-2")].
Proof.
  remember (replace_collection_books "c1" ex_books_resolved
              (quiet ex_db_stale)) as r eqn:E.
  vm_compute in E. subst r. eexists. split; [reflexivity|].
  split; reflexivity.
Qed.

(** C3.  Whatever rows the group had, after the call its membership is the
    identifiers the input carries, first occurrences only and in input
    order, at positions 1, 2, ... without a gap and without a repeated
    identifier; the other groups keep their rows.  When no identifier
    survives the group is left empty and the call still returns.  A second
    call with the same input leaves the same membership. *)
Theorem replace_collection_books_membership (w : World) (cid : string)
    (books : list Book) :
  fault_free w ->
  exists w',
    replace_collection_books cid books w = Ok tt w'
    /\ membership (current w') cid = enumerate 1 (nub (resolved_ids books))
    /\ map fst (membership (current w') cid)
       = seq 1 (List.length (nub (resolved_ids books)))
    /\ NoDup (map snd (membership (current w') cid))
    /\ (forall i, In i (map snd (membership (current w') cid))
                  <-> In i (resolved_ids books))
    /\ (nub (resolved_ids books) = [] -> membership (current w') cid = [])
    /\ (forall cid', String.eqb cid' cid = false ->
                     membership (current w') cid'
                     = membership (current w) cid')
    /\ exists w'',
         replace_collection_books cid books w' = Ok tt w''
         /\ membership (current w'') cid = membership (current w') cid.
Proof.
  intros F.
  destruct (replace_collection_books_ok w cid books F) as (w' & E & F' & H).
  exists w'. split; [exact E|].
  assert (Hm : membership (current w') cid
               = enumerate 1 (nub (resolved_ids books))).
  { rewrite H, string_eqb_refl. reflexivity. }
  split; [exact Hm|]. rewrite Hm.
  split; [apply enumerate_fst|]. rewrite enumerate_snd.
  split; [apply nub_NoDup|]. split; [apply nub_In|].
  split; [intros ->; reflexivity|]. split.
  - intros cid' N. rewrite H, N. reflexivity.
  - destruct (replace_collection_books_ok w' cid books F')
      as (w'' & E' & _ & H').
    exists w''. split; [exact E'|].
    rewrite H', string_eqb_refl. reflexivity.
Qed.

Lemma replace_collection_books_membership_witness :
  exists w',
    replace_collection_books "c1" ex_books_resolved (quiet ex_db_stale)
    = Ok tt w'
    /\ membership (current w') "c1" = [(1, "cat-42"); (2, "cat-7")].
Proof.
  destruct (replace_collection_books_membership (quiet ex_db_stale) "c1"
              ex_books_resolved (fun n => eq_refl))
    as (w' & E & H & _).
  exists w'. split; [exact E|]. exact H.
Defined.

(** ** Statements inside a transaction *)

Lemma tx_safe_ret {A} (a : A) : tx_safe (ret a).
Proof. intros w H. simpl. auto. Qed.

Lemma tx_safe_raise {A} (e : exn) : tx_safe (@raise A e).
Proof. intros w H. simpl. auto. Qed.

Lemma tx_safe_bind {A B} (m : M A) (k : A -> M B) :
  tx_safe m -> (forall a, tx_safe (k a)) -> tx_safe (bind m k).
Proof.
  intros Hm Hk w H. unfold bind. specialize (Hm w H).
  destruct (m w) as [a w1|e w1]; auto.
  destruct Hm as [C1 P1]. specialize (Hk a w1 P1).
  destruct (k a w1); rewrite <- C1; exact Hk.
Qed.

Lemma tx_safe_step : tx_safe step.
Proof.
  intros w H. rewrite step_eq. destruct (faults w (tick w)); simpl; auto.
Qed.

Lemma tx_safe_query {A} (q : Catalog -> A) : tx_safe (execute_query q).
Proof.
  apply tx_safe_bind; [apply tx_safe_step|].
  intros _ w H. simpl. auto.
Qed.

Lemma tx_safe_update (u : Catalog -> Catalog) : tx_safe (execute_update u).
Proof.
  apply tx_safe_bind; [apply tx_safe_step|].
  intros _ w H. unfold set_current.
  destruct (pending w); [|congruence]. simpl. split; auto. discriminate.
Qed.

Lemma tx_safe_now : tx_safe utc_now_sql.
Proof. intros w H. simpl. auto. Qed.

Lemma tx_safe_uuid : tx_safe new_uuid.
Proof. intros w H. simpl. auto. Qed.

Lemma tx_safe_print (line : string * string * nat) : tx_safe (print line).
Proof.
  apply tx_safe_bind; [apply tx_safe_step|].
  intros _ w H. simpl. auto.
Qed.

Lemma tx_safe_for_each {A S} (l : list A) (body : S -> A -> M S) (s : S) :
  (forall s x, tx_safe (body s x)) -> tx_safe (for_each l body s).
Proof.
  intros Hb. revert s. induction l as [|x l IH]; intros s; simpl.
  - apply tx_safe_ret.
  - apply tx_safe_bind; auto.
Qed.

Create HintDb tx.
#[local] Hint Resolve tx_safe_ret tx_safe_raise tx_safe_step tx_safe_query
  tx_safe_update tx_safe_now tx_safe_uuid tx_safe_print : tx.

Ltac tx_step :=
  match goal with
  | |- tx_safe (bind _ _) => apply tx_safe_bind; [|intros]
  | |- tx_safe (for_each _ _ _) => apply tx_safe_for_each; intros
  | |- tx_safe (match ?x with _ => _ end) => destruct x
  | |- tx_safe _ => solve [auto with tx]
  end.

Ltac tx_auto := repeat tx_step.

Lemma tx_safe_find_book_id_by_isbn (isbn lib : string) :
  tx_safe (find_book_id_by_isbn isbn lib).
Proof. unfold find_book_id_by_isbn. tx_auto. Qed.

Lemma tx_safe_author_loop (tnorm : string) (authors : list string)
    (lib : string) : tx_safe (author_loop tnorm authors lib).
Proof.
  induction authors as [|a rest IH]; simpl; tx_auto; auto.
Qed.

Lemma tx_safe_resolve (b : Book) (lib : string) :
  tx_safe (resolve_abs_id_for_book b lib).
Proof.
  unfold resolve_abs_id_for_book, find_book_id_by_author_title.
  pose proof tx_safe_find_book_id_by_isbn.
  pose proof tx_safe_author_loop.
  tx_auto; auto.
Qed.

Lemma tx_safe_phase_enrich (lib : string)
    (collections : list (string * list Book)) :
  tx_safe (phase_enrich lib collections).
Proof.
  unfold phase_enrich, enrich_and_filter, enrich_step.
  pose proof tx_safe_resolve. tx_auto; auto.
Qed.

Lemma tx_safe_get_or_create_collection (name lib : string) :
  tx_safe (get_or_create_collection name lib).
Proof. unfold get_or_create_collection. tx_auto. Qed.

Lemma tx_safe_build_payload (now : Timestamp) (cid : string) (i : nat)
    (ids : list string) : tx_safe (build_payload now cid i ids).
Proof.
  revert i. induction ids as [|x ids IH]; intros i; simpl; tx_auto; auto.
Qed.

Lemma tx_safe_replace_collection_books (cid : string) (books : list Book) :
  tx_safe (replace_collection_books cid books).
Proof.
  unfold replace_collection_books, executemany_insert.
  pose proof tx_safe_build_payload. tx_auto; auto.
Qed.

Lemma tx_safe_phase_sync (lib : string)
    (collections : list (string * list Book)) :
  tx_safe (phase_sync lib collections).
Proof.
  unfold phase_sync, upsert_abs_collection_with_books.
  pose proof tx_safe_get_or_create_collection.
  pose proof tx_safe_replace_collection_books.
  tx_auto; auto.
Qed.

(** ** C2: a failed run leaves the catalog as it was *)

Lemma get_library_id_no_write (name : string) (w : World) :
  match get_library_id name w with
  | Ok _ w' => committed w' = committed w /\ pending w' = pending w
  | Raise _ w' => committed w' = committed w /\ pending w' = pending w
  end.
Proof.
  unfold get_library_id, execute_query, bind. rewrite step_eq.
  destruct (faults w (tick w)); simpl; auto.
  destruct (select_library name _); simpl; auto.
Qed.

Lemma rollback_keeps_committed (w : World) :
  match rollback w with
  | Ok _ w' => committed w' = committed w /\ pending w' = None
  | Raise _ w' => committed w' = committed w
  end.
Proof.
  unfold rollback, bind. rewrite step_eq.
  destruct (faults w (tick w)); simpl; auto.
  destruct (pending w); simpl; auto.
Qed.

(** The body of the [try]: until [COMMIT] takes effect nothing is
    committed, and [COMMIT] is the last statement. *)
Lemma transaction_body_raises (lib : string)
    (collections : list (string * list Book)) (w : World) (e : exn)
    (w' : World) :
  pending w <> None ->
  (collections' <- phase_enrich lib collections ;;
   phase_sync lib collections' ;;; commit) w = Raise e w' ->
  committed w' = committed w /\ pending w' <> None.
Proof.
  intros P. unfold bind.
  pose proof (tx_safe_phase_enrich lib collections w P) as H1.
  destruct (phase_enrich lib collections w) as [c1 w1|e1 w1].
  - destruct H1 as [C1 P1].
    pose proof (tx_safe_phase_sync lib c1 w1 P1) as H2.
    destruct (phase_sync lib c1 w1) as [[] w2|e2 w2].
    + destruct H2 as [C2 P2]. unfold commit, bind. rewrite step_eq.
      destruct (faults w2 (tick w2)).
      * intros [= <- <-]. simpl. split; [congruence|exact P2].
      * simpl. destruct (pending w2) eqn:E; [discriminate|congruence].
    + intros [= <- <-]. destruct H2. split; congruence.
  - intros [= <- <-]. exact H1.
Qed.

(** On success the run has committed and closed its transaction. *)
Lemma main_sync_success (collections : list (string * list Book))
    (w w' : World) :
  pending w = None ->
  main_sync collections w = Ok tt w' -> pending w' = None.
Proof.
  intros P. unfold main_sync. unfold bind at 1.
  destruct (get_library_id ABS_LIBRARY_NAME w) as [lib w0|e0 w0];
    [|discriminate].
  unfold bind at 1. unfold begin_immediate, bind at 1. rewrite step_eq.
  destruct (faults w0 (tick w0)); [discriminate|]. simpl.
  destruct (pending w0); [discriminate|].
  unfold try_except_reraise, bind at 1.
  match goal with
  | |- context [phase_enrich lib collections ?w1] =>
      destruct (phase_enrich lib collections w1) as [c1 w2|e1 w2]
  end.
  2: { destruct (rollback w2); discriminate. }
  unfold bind at 1.
  destruct (phase_sync lib c1 w2) as [[] w3|e3 w3].
  2: { destruct (rollback w3); discriminate. }
  unfold commit, bind. rewrite step_eq.
  destruct (faults w3 (tick w3)).
  { match goal with
    | |- context [rollback ?x] => destruct (rollback x); discriminate
    end. }
  simpl. destruct (pending w3).
  - intros [= <-]. reflexivity.
  - match goal with
    | |- context [rollback ?x] => destruct (rollback x); discriminate
    end.
Qed.

(** The writes of a failing run are seen when [ROLLBACK] fails as well:
    the exception leaves the transaction open, with the group created and
    filled in it and nothing of that committed. *)
Example failing_run_had_written :
  exists e w',
    main [ex_list_A] [("NY Times Best Sellers", ["A"])]
         ex_world_failing_twice
    = Raise e w'
    /\ committed w' = ex_db
    /\ option_map (fun db => membership db "uuid-0") (pending w')
       = Some [(1, "cat-42")].
Proof.
  remember (main [ex_list_A] [("NY Times Best Sellers", ["A"])]
              ex_world_failing_twice) as r eqn:E.
  vm_compute in E. subst r. eexists. eexists.
  split; [reflexivity|]. split; reflexivity.
Qed.

(** C2.  If the run raises, at whatever step, what is committed in the
    catalog afterwards is what was committed before the run: the writes of
    the enrich and sync phases were made inside the transaction, and
    nothing of it reaches the catalog without [COMMIT]. *)
Theorem main_failure_rolls_back (overview : list NytList)
    (mapping : list (string * list string)) (w : World) (e : exn)
    (w' : World) :
  pending w = None ->
  main overview mapping w = Raise e w' ->
  committed w' = committed w.
Proof.
  unfold main. generalize (build_abs_collections overview mapping).
  intros collections.
  intros P. unfold main_sync. unfold bind at 1.
  pose proof (get_library_id_no_write ABS_LIBRARY_NAME w) as H0.
  destruct (get_library_id ABS_LIBRARY_NAME w) as [lib w0|e0 w0].
  2: { intros [= <- <-]. apply H0. }
  destruct H0 as [C0 P0]. unfold bind at 1.
  unfold begin_immediate, bind at 1. rewrite step_eq.
  destruct (faults w0 (tick w0)).
  { intros [= <- <-]. exact C0. }
  simpl. rewrite P0, P. simpl.
  set (w1 := set_tx (committed w0) (Some (committed w0)) (advance 1 w0)).
  assert (P1 : pending w1 <> None) by discriminate.
  assert (C1 : committed w1 = committed w) by exact C0.
  unfold try_except_reraise.
  destruct ((collections' <- phase_enrich lib collections ;;
             phase_sync lib collections' ;;; commit) w1)
    as [[] w2|e2 w2] eqn:B; [discriminate|].
  apply (transaction_body_raises lib collections w1 e2 w2 P1) in B.
  destruct B as [C2 _].
  pose proof (rollback_keeps_committed w2) as R.
  destruct (rollback w2) as [[] w3|e3 w3].
  - intros [= <- <-]. destruct R. congruence.
  - intros [= <- <-]. congruence.
Qed.

Lemma main_failure_rolls_back_witness :
  exists e w',
    main [ex_list_A] [("NY Times Best Sellers", ["A"])] ex_world_failing
    = Raise e w'
    /\ committed w' = ex_db /\ pending w' = None.
Proof.
  remember (main [ex_list_A] [("NY Times Best Sellers", ["A"])]
              ex_world_failing) as r eqn:E.
  pose proof (main_failure_rolls_back [ex_list_A]
                [("NY Times Best Sellers", ["A"])] ex_world_failing) as H.
  rewrite <- E in H. vm_compute in E. subst r.
  eexists. eexists. split; [reflexivity|]. split.
  - eapply H; reflexivity.
  - reflexivity.
Defined.

(** ** Splitting: the regular expression against the plain separators *)

Example spec_parse_authors_ex :
  spec_parse_authors "By: Sandy Anderson, WITH Andy , sandy anderson and and"
  = ["Sandy Anderson"; "Andy"].
Proof. vm_compute. reflexivity. Qed.

Lemma rstrip_app_space (p ws : string) :
  all_space ws = true -> rstrip (p ++ ws) = rstrip p.
Proof.
  intros H. induction p as [|c p IH]; simpl.
  - apply rstrip_empty. exact H.
  - rewrite IH. reflexivity.
Qed.

Lemma strip_app_space (p ws : string) :
  all_space ws = true -> strip (p ++ ws) = strip p.
Proof.
  intros H. unfold strip. induction p as [|c p IH]; simpl.
  - apply rstrip_empty. apply lstrip_all_space in H. rewrite H. reflexivity.
  - destruct (is_space c); [exact IH|].
    apply (rstrip_app_space (String c p) ws H).
Qed.

Lemma strip_space_app (ws p : string) :
  all_space ws = true -> strip (ws ++ p) = strip p.
Proof.
  unfold strip. induction ws as [|c ws IH]; simpl; auto.
  intros H. apply andb_true_iff in H. destruct H as [H1 H2].
  rewrite H1. auto.
Qed.

Lemma drop_drop (k m : nat) (s : string) :
  drop m (drop k s) = drop (k + m) s.
Proof.
  revert s. induction k as [|k IH]; intros s; simpl; auto.
  destruct s as [|c s]; simpl; auto.
  destruct m; reflexivity.
Qed.

Lemma take_take_drop (k m : nat) (s : string) :
  take k s ++ take m (drop k s) = take (k + m) s.
Proof.
  revert s. induction k as [|k IH]; intros s; simpl; auto.
  destruct s as [|c s]; simpl.
  - destruct m; reflexivity.
  - rewrite IH. reflexivity.
Qed.

Lemma drop_while_count (p : char -> bool) (s : string) :
  drop_while p s = drop (count_while p s) s.
Proof.
  induction s as [|c s IH]; simpl; auto.
  destruct (p c); auto.
Qed.

Lemma take_count_all_space (s : string) :
  all_space (take (count_while is_space s) s) = true.
Proof.
  induction s as [|c s IH]; simpl; auto.
  destruct (is_space c) eqn:E; simpl; auto.
  rewrite E. exact IH.
Qed.

Lemma count_while_le (p : char -> bool) (s : string) :
  count_while p s <= String.length s.
Proof.
  induction s as [|c s IH]; simpl; auto.
  destruct (p c); lia.
Qed.

Lemma length_drop (n : nat) (s : string) :
  String.length (drop n s) = String.length s - n.
Proof.
  revert s. induction n as [|n IH]; intros [|c s]; simpl; auto.
Qed.

Lemma last_of_snoc (pre : string) (c : char) :
  last_of (pre ++ String c EmptyString) = Some c.
Proof.
  induction pre as [|d pre IH]; simpl; auto.
  destruct (pre ++ String c EmptyString) eqn:E; auto.
  destruct pre; discriminate.
Qed.

Lemma get_lt (k : nat) (s : string) :
  k < String.length s -> exists c, String.get k s = Some c.
Proof.
  revert k. induction s as [|d s IH]; intros k H; simpl in *; [lia|].
  destruct k; simpl; [eauto|]. apply IH. lia.
Qed.

Lemma last_char_take (k : nat) (s pre : string) :
  k <= String.length s ->
  last_char (last_of pre) s k = last_of (pre ++ take k s).
Proof.
  revert s pre. induction k as [|k IH]; intros s pre H.
  - simpl. destruct s; rewrite str_app_nil_r; reflexivity.
  - destruct s as [|c s]; simpl in H; [lia|].
    change (take (S k) (String c s)) with (String c (take k s)).
    replace (pre ++ String c (take k s))
      with ((pre ++ String c EmptyString) ++ take k s)
      by (rewrite str_app_assoc; reflexivity).
    rewrite <- IH by lia. rewrite last_of_snoc.
    destruct k as [|k']; [reflexivity|].
    simpl. destruct (get_lt k' s) as [x Hx]; [lia|]. rewrite Hx.
    reflexivity.
Qed.

Lemma starts_with_ci_drop (w t rest : string) :
  starts_with_ci w t = Some rest ->
  rest = drop (String.length w) t /\ String.length w <= String.length t.
Proof.
  revert t. induction w as [|a w IH]; intros t; simpl.
  - intros [= <-]. destruct t; simpl; split; auto; lia.
  - destruct t as [|c t]; [discriminate|].
    destruct (ci_eqb a c); [|discriminate].
    intros H. apply IH in H. simpl. destruct H. split; auto; lia.
Qed.

(** The comparison of [re.IGNORECASE] on the letters of the patterns. *)
Lemma lowercase_pairs_letters :
  forallb (fun p =>
             forallb (fun a =>
                        implb (snd p =? a)%N
                              ((fst p + 32 =? a)%N
                               || (a =? 105)%N && (fst p =? 304)%N))
                     pattern_letters
             && negb (snd p =? 305)%N && negb (fst p =? 305)%N
             && implb (fst p =? 304)%N (snd p =? 105)%N)
          lowercase_pairs = true.
Proof. vm_compute. reflexivity. Qed.

Ltac bool_cases :=
  repeat match goal with
         | H : context [(?a =? ?b)%N] |- _ =>
             destruct (N.eqb_spec a b); simpl in H; try discriminate H
         | H : context [(?a <=? ?b)%N] |- _ =>
             destruct (N.leb_spec a b); simpl in H; try discriminate H
         | H : context [(?a <? ?b)%N] |- _ =>
             destruct (N.ltb_spec a b); simpl in H; try discriminate H
         | |- context [(?a =? ?b)%N] => destruct (N.eqb_spec a b); simpl
         end; try reflexivity; try lia.

Lemma ci_eqb_spec_letter (a c : char) :
  In a pattern_letters -> ci_eqb a c = spec_letter a c.
Proof.
  intros Ha. unfold ci_eqb, spec_letter. cbv zeta.
  assert (La : (97 <= a <= 122)%N) by (simpl in Ha; lia).
  destruct (simple_lower_cases c) as [H|H].
  - pose proof (proj1 (forallb_forall _ _) lowercase_pairs_letters _ H) as K.
    pose proof (proj1 (forallb_forall _ _) lowercase_pairs_ascii _ H) as A.
    cbn [fst snd] in K, A. unfold is_ascii, is_upper in A.
    apply andb_true_iff in K. destruct K as [K K4].
    apply andb_true_iff in K. destruct K as [K K3].
    apply andb_true_iff in K. destruct K as [K1 K2].
    pose proof (proj1 (forallb_forall _ _) K1 a Ha) as K. cbv beta in K.
    clear K1 H Ha. set (l := simple_lower c) in *. clearbody l.
    bool_cases.
  - rewrite H. assert (U : is_ascii c = true -> lower_char c = c).
    { intros A. rewrite <- (simple_lower_ascii c A). exact H. }
    assert (D : c <> 304%N).
    { intros ->. vm_compute in H. discriminate. }
    unfold is_ascii, lower_char, is_upper in U. clear H Ha.
    destruct (N.eqb_spec (c + 32) a) as [E|E].
    + exfalso. assert (L : (c <? 128)%N = true) by (apply N.ltb_lt; lia).
      specialize (U L).
      assert (((65 <=? c) && (c <=? 90))%N = true)
        by (apply andb_true_iff; rewrite !N.leb_le; lia).
      rewrite H in U. lia.
    + rewrite orb_false_r.
      destruct (N.eqb_spec c 304); [contradiction|]. reflexivity.
Qed.

Lemma starts_with_ci_spec (w s : string) :
  Forall (fun a => In a pattern_letters) (chars_of w) ->
  starts_with_ci w s = spec_starts_with w s.
Proof.
  revert s. induction w as [|a w IH]; intros s H; simpl; auto.
  inversion H as [|? ? Ha Hw]; subst.
  destruct s as [|c s]; auto.
  rewrite (ci_eqb_spec_letter a c Ha), (IH _ Hw). reflexivity.
Qed.

Lemma keyword_at_spec (w : string) (prev : option char) (s : string) :
  Forall (fun a => In a pattern_letters) (chars_of w) ->
  spec_word_at w prev s = keyword_at w prev s.
Proof.
  intros H. unfold spec_word_at, keyword_at.
  rewrite (starts_with_ci_spec _ _ H). reflexivity.
Qed.

Lemma spec_sep_keyword (prev : option char) (s : string) :
  spec_sep prev s
  = match s with
    | EmptyString => None
    | String c _ =>
        if N.eqb c 44 then Some 1
        else match keyword_at "and" prev s with
             | Some _ => Some 3
             | None => match keyword_at "with" prev s with
                       | Some _ => Some 4
                       | None => None
                       end
             end
    end.
Proof.
  unfold spec_sep.
  rewrite !keyword_at_spec by (repeat constructor; simpl; tauto).
  reflexivity.
Qed.

Lemma keyword_at_rest (w : string) (prev : option char) (t rest : string) :
  keyword_at w prev t = Some rest ->
  rest = drop (String.length w) t /\ String.length w <= String.length t.
Proof.
  unfold keyword_at. destruct (prev_is_word prev); [discriminate|].
  destruct (starts_with_ci w t) as [r|] eqn:E; [|discriminate].
  destruct (head_is_word r); [discriminate|].
  intros [= <-]. apply starts_with_ci_drop. exact E.
Qed.

Lemma keyword_at_not_space (w : string) (prev : option char) (c : char)
    (t rest : string) :
  is_space c = true ->
  is_space (chr w) = false -> w <> EmptyString ->
  keyword_at w prev (String c t) = Some rest -> False.
Proof.
  intros Hc Ha Hw. unfold keyword_at.
  destruct (prev_is_word prev); [discriminate|].
  destruct w as [|a w]; [congruence|]. simpl in *.
  rewrite (ci_eqb_space _ _ Hc Ha). discriminate.
Qed.

Lemma spec_sep_space (prev : option char) (c : char) (t : string) :
  is_space c = true -> spec_sep prev (String c t) = None.
Proof.
  intros Hc. rewrite spec_sep_keyword.
  destruct (N.eqb c 44) eqn:E.
  { apply N.eqb_eq in E. subst c. discriminate. }
  destruct (keyword_at "and" prev (String c t)) eqn:K1.
  { exfalso.
    apply (keyword_at_not_space "and" prev c t s Hc eq_refl); auto.
    discriminate. }
  destruct (keyword_at "with" prev (String c t)) eqn:K2; auto.
  exfalso.
  apply (keyword_at_not_space "with" prev c t s Hc eq_refl); auto.
  discriminate.
Qed.

Lemma spec_sep_bound (prev : option char) (t : string) (m : nat) :
  spec_sep prev t = Some m -> 1 <= m <= String.length t.
Proof.
  rewrite spec_sep_keyword. destruct t as [|c t]; [discriminate|].
  destruct (N.eqb c 44).
  { intros [= <-]. simpl. lia. }
  destruct (keyword_at "and" prev (String c t)) eqn:K1.
  { intros [= <-]. apply keyword_at_rest in K1. simpl in *. lia. }
  destruct (keyword_at "with" prev (String c t)) eqn:K2; [|discriminate].
  intros [= <-]. apply keyword_at_rest in K2. simpl in *. lia.
Qed.

(** The regular expression matches where a plain separator follows the
    whitespace at the head, and takes the whitespace on both sides. *)
Lemma sep_match_spec (prev : option char) (s : string) :
  sep_match prev s
  = let k := count_while is_space s in
    match spec_sep (last_char prev s k) (drop k s) with
    | Some m => Some (k + m + count_while is_space (drop (k + m) s))
    | None => None
    end.
Proof.
  cbv zeta. rewrite spec_sep_keyword. unfold sep_match.
  rewrite drop_while_count.
  set (k := count_while is_space s). simpl.
  destruct (drop k s) as [|c t] eqn:D; [reflexivity|].
  destruct (N.eqb c 44).
  { rewrite <- drop_drop, D. reflexivity. }
  destruct (keyword_at "and" (last_char prev s k) (String c t)) eqn:K1.
  { apply keyword_at_rest in K1. destruct K1 as [-> _].
    rewrite <- drop_drop, D. reflexivity. }
  destruct (keyword_at "with" (last_char prev s k) (String c t)) eqn:K2;
    [|reflexivity].
  apply keyword_at_rest in K2. destruct K2 as [-> _].
  rewrite <- drop_drop, D. reflexivity.
Qed.

Lemma re_split_go_skip (s pre : string) (k : nat) :
  re_split_go (last_of pre) k s
  = re_split_go (last_of (pre ++ take k s)) 0 (drop k s).
Proof.
  revert pre k. induction s as [|c s IH]; intros pre k.
  - destruct k; reflexivity.
  - destruct k as [|k].
    + simpl take. simpl drop. rewrite str_app_nil_r. reflexivity.
    + change (re_split_go (last_of pre) (S k) (String c s))
        with (re_split_go (Some c) k s).
      rewrite <- (last_of_snoc pre c), IH, str_app_assoc. reflexivity.
Qed.

Lemma spec_split_go_skip (s pre : string) (k : nat) :
  spec_split_go (last_of pre) k s
  = spec_split_go (last_of (pre ++ take k s)) 0 (drop k s).
Proof.
  revert pre k. induction s as [|c s IH]; intros pre k.
  - destruct k; reflexivity.
  - destruct k as [|k].
    + simpl take. simpl drop. rewrite str_app_nil_r. reflexivity.
    + change (spec_split_go (last_of pre) (S k) (String c s))
        with (spec_split_go (Some c) k s).
      rewrite <- (last_of_snoc pre c), IH, str_app_assoc. reflexivity.
Qed.

Lemma re_split_go_0 (prev : option char) (c : char) (s : string) :
  re_split_go prev 0 (String c s)
  = match sep_match prev (String c s) with
    | Some n =>
        let (p, ps) := re_split_go (Some c) (pred n) s in
        (EmptyString, p :: ps)
    | None =>
        let (p, ps) := re_split_go (Some c) 0 s in (String c p, ps)
    end.
Proof. reflexivity. Qed.

Lemma spec_split_go_0 (prev : option char) (c : char) (s : string) :
  spec_split_go prev 0 (String c s)
  = match spec_sep prev (String c s) with
    | Some n =>
        let (p, ps) := spec_split_go (Some c) (pred n) s in
        (EmptyString, p :: ps)
    | None =>
        let (p, ps) := spec_split_go (Some c) 0 s in (String c p, ps)
    end.
Proof. reflexivity. Qed.

(** The plain splitter walks over the whitespace at the head of [s] and
    leaves it in front of the part. *)
Lemma spec_split_go_spaces (s pre : string) :
  let k := count_while is_space s in
  spec_split_go (last_of pre) 0 s
  = let (p, ps) := spec_split_go (last_of (pre ++ take k s)) 0 (drop k s) in
    (take k s ++ p, ps).
Proof.
  revert pre. induction s as [|c s IH]; intros pre.
  - reflexivity.
  - cbn [count_while]. destruct (is_space c) eqn:E.
    + rewrite spec_split_go_0, (spec_sep_space _ _ _ E).
      rewrite <- (last_of_snoc pre c), IH.
      cbn [take drop]. rewrite str_app_assoc. cbn [String.append].
      destruct (spec_split_go _ 0 _). reflexivity.
    + cbn [take drop]. rewrite str_app_nil_r.
      destruct (spec_split_go _ 0 _). reflexivity.
Qed.

Lemma sep_match_none (prev : option char) (c : char) (s : string) :
  sep_match prev (String c s) = None -> spec_sep prev (String c s) = None.
Proof.
  destruct (is_space c) eqn:E; [intros _; apply spec_sep_space; exact E|].
  rewrite sep_match_spec. cbn [count_while]. rewrite E.
  cbn [last_char drop]. destruct (spec_sep prev (String c s)); auto.
  discriminate.
Qed.

Lemma sep_match_some (prev : option char) (s : string) (n0 : nat) :
  sep_match prev s = Some n0 ->
  exists m,
    spec_sep (last_char prev s (count_while is_space s))
             (drop (count_while is_space s) s) = Some m
    /\ n0 = count_while is_space s + m
            + count_while is_space (drop (count_while is_space s + m) s).
Proof.
  rewrite sep_match_spec. cbv zeta.
  destruct (spec_sep _ (drop _ s)) as [m|]; [|discriminate].
  intros [= <-]. exists m. split; reflexivity.
Qed.

Lemma spec_split_go_at_sep (s pre : string) (m : nat) :
  let k := count_while is_space s in
  let k2 := count_while is_space (drop (k + m) s) in
  spec_sep (last_char (last_of pre) s k) (drop k s) = Some m ->
  spec_split_go (last_of pre) 0 s
  = let (p, ps) := spec_split_go (last_of (pre ++ take (k + m + k2) s)) 0
                     (drop (k + m + k2) s) in
    (take k s, (take k2 (drop (k + m) s) ++ p) :: ps).
Proof.
  intros k k2 SS.
  rewrite (spec_split_go_spaces s pre). fold k.
  rewrite last_char_take in SS by apply count_while_le.
  pose proof (spec_sep_bound _ _ _ SS) as [Hm _].
  destruct (drop k s) as [|c' t'] eqn:D; [discriminate|].
  rewrite spec_split_go_0, SS.
  destruct m as [|j]; [lia|].
  change (spec_split_go (Some c') (pred (S j)) t')
    with (spec_split_go (last_of (pre ++ take k s)) (S j) (String c' t')).
  rewrite spec_split_go_skip, <- D.
  rewrite (spec_split_go_spaces (drop (S j) (drop k s))).
  rewrite !drop_drop. fold k2.
  rewrite (str_app_assoc pre), take_take_drop, str_app_assoc,
    take_take_drop.
  destruct (spec_split_go _ 0 _) as [p ps].
  rewrite str_app_nil_r. reflexivity.
Qed.

Lemma split_refines (n : nat) (s pre : string) :
  String.length s <= n ->
  split_rel (re_split_go (last_of pre) 0 s)
            (spec_split_go (last_of pre) 0 s).
Proof.
  revert s pre. induction n as [|n IH]; intros s pre Hlen.
  - destruct s; simpl in Hlen; [|lia].
    split; [exists EmptyString; auto|constructor].
  - destruct s as [|c s'].
    { split; [exists EmptyString; auto|constructor]. }
    simpl in Hlen. rewrite re_split_go_0.
    destruct (sep_match (last_of pre) (String c s')) as [n0|] eqn:SM.
    + destruct (sep_match_some _ _ _ SM) as (m & SS & En).
      pose proof (spec_sep_bound _ _ _ SS) as [Hm _].
      rewrite (spec_split_go_at_sep _ _ _ SS), <- En.
      assert (HR : re_split_go (Some c) (pred n0) s'
                   = re_split_go (last_of (pre ++ take n0 (String c s'))) 0
                       (drop n0 (String c s'))).
      { destruct n0 as [|j]; [lia|].
        change (re_split_go (Some c) (pred (S j)) s')
          with (re_split_go (last_of pre) (S j) (String c s')).
        apply re_split_go_skip. }
      rewrite HR.
      assert (Hd : String.length (drop n0 (String c s')) <= n).
      { rewrite length_drop.
        change (String.length (String c s')) with (S (String.length s')).
        lia. }
      specialize (IH (drop n0 (String c s')) (pre ++ take n0 (String c s'))
                     Hd).
      destruct (re_split_go _ 0 (drop n0 _)) as [p1 ps1].
      destruct (spec_split_go _ 0 (drop n0 _)) as [p2 ps2].
      destruct IH as [[ws [Hws Hp]] Hps]. simpl in Hp, Hps.
      split; simpl.
      * exists (take (count_while is_space (String c s')) (String c s')).
        split; [apply take_count_all_space|reflexivity].
      * constructor; [|exact Hps].
        rewrite Hp, strip_space_app by apply take_count_all_space.
        symmetry. apply strip_app_space. exact Hws.
    + rewrite spec_split_go_0, (sep_match_none _ _ _ SM).
      assert (Hs : String.length s' <= n) by lia.
      specialize (IH s' (pre ++ String c EmptyString) Hs).
      rewrite last_of_snoc in IH.
      destruct (re_split_go (Some c) 0 s') as [p1 ps1].
      destruct (spec_split_go (Some c) 0 s') as [p2 ps2].
      destruct IH as [[ws [Hws Hp]] Hps]. simpl in Hp, Hps.
      split; simpl; [|exact Hps].
      exists ws. split; [exact Hws|]. rewrite Hp. reflexivity.
Qed.

Lemma split_parts_refines (s : string) :
  map strip (re_split s) = map strip (spec_split s).
Proof.
  unfold re_split, spec_split.
  pose proof (split_refines (String.length s) s EmptyString (le_n _)) as H.
  simpl in H.
  destruct (re_split_go None 0 s) as [p1 ps1].
  destruct (spec_split_go None 0 s) as [p2 ps2].
  destruct H as [[ws [Hws Hp]] Hps]. simpl in Hp, Hps.
  simpl. f_equal.
  - rewrite Hp. symmetry. apply strip_app_space. exact Hws.
  - induction Hps; simpl; congruence.
Qed.

(** ** De-duplication up to case *)

Lemma dedup_ci_nub (l seen : list string) :
  dedup_ci seen l
  = filter (fun q => negb (mem_str (lower q) seen)) (nub_ci l).
Proof.
  revert seen. induction l as [|p ps IH]; intros seen; simpl; auto.
  destruct (mem_str (lower p) seen) eqn:M; simpl.
  - rewrite IH, filter_filter. apply filter_ext_all. intros q.
    destruct (String.eqb (lower q) (lower p)) eqn:E; simpl; auto.
    apply string_eqb_eq in E. rewrite E, M. reflexivity.
  - f_equal. rewrite IH, filter_filter. apply filter_ext_all. intros q.
    simpl. destruct (String.eqb (lower q) (lower p)); reflexivity.
Qed.

Lemma dedup_ci_first_occurrences (l : list string) :
  dedup_ci [] l = nub_ci l.
Proof.
  rewrite dedup_ci_nub. simpl.
  induction (nub_ci l) as [|x l' IH]; simpl; congruence.
Qed.

Lemma nub_ci_NoDup (l : list string) : NoDup (map lower (nub_ci l)).
Proof.
  induction l as [|x l IH]; simpl; constructor.
  - rewrite in_map_iff. intros [y [E H]]. apply filter_In in H.
    destruct H as [_ H]. rewrite E, string_eqb_refl in H. discriminate.
  - clear -IH. induction (nub_ci l) as [|y l' IH']; simpl; auto.
    inversion IH as [|? ? Hy Hl]; subst.
    destruct (negb (String.eqb (lower y) (lower x))); simpl; auto.
    constructor; auto.
    rewrite in_map_iff. intros [z [E H]]. apply filter_In in H.
    destruct H as [H _]. apply Hy. rewrite <- E. apply in_map. exact H.
Qed.

Lemma sub_leading_by_stripped (s : string) :
  sub_leading_by (strip s) = spec_strip_by (strip s).
Proof.
  unfold sub_leading_by, spec_strip_by.
  pose proof (strip_trimmed s) as T. unfold trimmed in T.
  apply andb_true_iff in T. destruct T as [T _].
  apply negb_true_iff in T. rewrite (lstrip_id _ T).
  rewrite keyword_at_spec by (repeat constructor; simpl; tauto).
  unfold keyword_at. simpl.
  destruct (strip s) as [|b [|y rest]]; try reflexivity.
  - simpl. destruct (ci_eqb 98%N b); reflexivity.
  - simpl. unfold chr.
    destruct (ci_eqb 98%N b); [|reflexivity].
    destruct (ci_eqb 121%N y); [|reflexivity].
    simpl. destruct (head_is_word rest); reflexivity.
Qed.

(** ** C9: [parse_authors] *)

(** C9.  On every input [parse_authors] returns what the description
    gives: one leading whole word "by", in any case, goes with the colons
    and whitespace after it; the rest is split at every comma and every
    whole word "and" or "with", in any case; the parts are trimmed, the
    empty ones dropped, and of the names equal up to case the first stays,
    in its place and casing.  Every name returned is trimmed and not
    empty, and no two are equal up to case.  The two examples of the
    specification evaluate as given. *)
Theorem parse_authors_refines_spec :
  (forall s, parse_authors s = spec_parse_authors s)
  /\ (forall s, Forall (fun x => trimmed x = true /\ is_empty x = false)
                       (parse_authors s))
  /\ (forall s, NoDup (map lower (parse_authors s)))
  /\ parse_authors "by James Patterson and Duane Swierczynski"
     = ["James Patterson"; "Duane Swierczynski"]
  /\ parse_authors "Trey Gowdy with Christopher Greyson"
     = ["Trey Gowdy"; "Christopher Greyson"].
Proof.
  assert (R : forall s, parse_authors s = spec_parse_authors s).
  { intros s. unfold parse_authors, spec_parse_authors, split_parts.
    destruct (is_empty s) eqn:E.
    - apply is_empty_true in E. subst s. reflexivity.
    - rewrite dedup_ci_first_occurrences, sub_leading_by_stripped,
        split_parts_refines. reflexivity. }
  split; [exact R|]. split; [|split; [|split; reflexivity]].
  - intros s. apply Forall_forall. intros x H.
    apply parse_authors_elem in H. destruct H as [H1 H2].
    split; auto. apply is_empty_false. exact H2.
  - intros s. rewrite R. apply nub_ci_NoDup.
Qed.

(** ** End-to-end scenarios *)

Example scenario_two_lists :
  map (fun b => (title b, rank b, nyt_list b))
      (group_result (overview_to_index ex_overview) ["A"; "B"])
  = [("Foo", Some 1%Z, "B")]
  /\ run_membership (main ex_overview [("G", ["A"; "B"])] (quiet ex_db)) "G"
     = Some [(1, "cat-42")].
Proof. split; vm_compute; reflexivity. Qed.

Example scenario_missing_list :
  run_membership (main ex_overview [("G", ["C"])] (quiet ex_db)) "G"
  = Some [].
Proof. vm_compute. reflexivity. Qed.

(** A second call writes the same positions and identifiers in rows of
    their own: the row identifiers and creation times are new. *)
Example replace_twice_rows :
  exists w' w'',
    replace_collection_books "c1" ex_books_resolved (quiet ex_db_stale)
    = Ok tt w'
    /\ replace_collection_books "c1" ex_books_resolved w' = Ok tt w''
    /\ membership (current w'') "c1" = membership (current w') "c1"
    /\ map cb_id (db_collectionBooks (current w')) = ["r2"; "uuid-0"; "uuid-1"]
    /\ map cb_id (db_collectionBooks (current w''))
       = ["r2"; "uuid-2"; "uuid-3"].
Proof.
  remember (replace_collection_books "c1" ex_books_resolved
              (quiet ex_db_stale)) as r eqn:E.
  vm_compute in E. subst r. eexists. eexists.
  split; [reflexivity|].
  match goal with
  | |- ?m = _ /\ _ => remember m as r eqn:E
  end.
  vm_compute in E. subst r.
  split; [reflexivity|]. repeat split; reflexivity.
Qed.

(* ================================================================== *)
(** * Part III: further properties of the script *)
(* ================================================================== *)

(** ** The normalizers *)

Ltac char_arith :=
  repeat match goal with
         | H : _ && _ = true |- _ => apply andb_true_iff in H; destruct H
         | H : _ || _ = true |- _ => apply orb_true_iff in H; destruct H
         | H : _ && _ = false |- _ => apply andb_false_iff in H; destruct H
         | H : _ || _ = false |- _ => apply orb_false_iff in H; destruct H
         | H : negb _ = true |- _ => apply negb_true_iff in H
         | H : negb _ = false |- _ => apply negb_false_iff in H
         | H : (_ <=? _)%N = true |- _ => apply N.leb_le in H
         | H : (_ <=? _)%N = false |- _ => apply N.leb_gt in H
         | H : (_ <? _)%N = true |- _ => apply N.ltb_lt in H
         | H : (_ <? _)%N = false |- _ => apply N.ltb_ge in H
         | H : (_ =? _)%N = true |- _ => apply N.eqb_eq in H
         | H : (_ =? _)%N = false |- _ => apply N.eqb_neq in H
         end.

Ltac char_goal :=
  repeat match goal with
         | |- context [(?a <=? ?b)%N] => destruct (N.leb_spec a b)
         | |- context [(?a <? ?b)%N] => destruct (N.ltb_spec a b)
         | |- context [(?a =? ?b)%N] => destruct (N.eqb_spec a b)
         end; simpl; try reflexivity; try lia.

Lemma isbn_char_ascii (c : char) : isbn_char c = true -> is_ascii c = true.
Proof.
  unfold isbn_char, is_digit, is_ascii. intros H. char_arith; char_goal.
Qed.

Lemma isbn_char_lower (c : char) :
  isbn_char c = true -> isbn_norm_char (lower_char c) = true.
Proof.
  unfold isbn_char, isbn_norm_char, is_digit, lower_char.
  intros H. destruct (is_upper c) eqn:U; unfold is_upper in U;
    char_arith; char_goal.
Qed.

Lemma isbn_norm_char_fixed (c : char) :
  isbn_norm_char c = true -> isbn_char c = true /\ lower_char c = c.
Proof.
  unfold isbn_norm_char, isbn_char, lower_char, is_digit.
  intros H. destruct (is_upper c) eqn:U; unfold is_upper in U;
    split; char_arith; char_goal.
Qed.

Lemma filter_isbn_ascii (s : string) :
  all_chars is_ascii (filter_chars isbn_char s) = true.
Proof.
  induction s as [|c s IH]; simpl; auto.
  destruct (isbn_char c) eqn:E; simpl; auto.
  rewrite (isbn_char_ascii _ E). exact IH.
Qed.

(** On the characters of an ISBN Python's [lower] is the ASCII one. *)
Lemma normalize_isbn_sql_lower (s : string) :
  normalize_isbn s = sql_lower (filter_chars isbn_char s).
Proof. apply lower_ascii, filter_isbn_ascii. Qed.

Lemma normalize_isbn_chars (s : string) :
  all_chars isbn_norm_char (normalize_isbn s) = true.
Proof.
  rewrite normalize_isbn_sql_lower.
  induction s as [|c s IH]; simpl; auto.
  destruct (isbn_char c) eqn:E; simpl; auto.
  rewrite (isbn_char_lower _ E). exact IH.
Qed.

Lemma normalize_isbn_fixed (s : string) :
  all_chars isbn_norm_char s = true -> normalize_isbn s = s.
Proof.
  rewrite normalize_isbn_sql_lower.
  induction s as [|c s IH]; simpl; auto.
  intros H. apply andb_true_iff in H. destruct H as [H1 H2].
  destruct (isbn_norm_char_fixed _ H1) as [E1 E2].
  rewrite E1. simpl. rewrite E2, (IH H2). reflexivity.
Qed.

(** X1.  [normalize_isbn] returns only digits and lower-case [x], leaves
    such a string as it is, and so is idempotent. *)
Theorem normalize_isbn_normal_form :
  (forall s, all_chars isbn_norm_char (normalize_isbn s) = true)
  /\ (forall s, normalize_isbn (normalize_isbn s) = normalize_isbn s)
  /\ (forall s, normalize_isbn s = s
                <-> all_chars isbn_norm_char s = true).
Proof.
  split; [exact normalize_isbn_chars|]. split.
  - intros s. apply normalize_isbn_fixed, normalize_isbn_chars.
  - intros s. split.
    + intros H. rewrite <- H. apply normalize_isbn_chars.
    + apply normalize_isbn_fixed.
Qed.

Lemma cons_nonempty_lower (w : string) (ws : list string) :
  cons_nonempty (lower w) (map lower ws) = map lower (cons_nonempty w ws).
Proof.
  unfold cons_nonempty. rewrite is_empty_lower.
  destruct (is_empty w); reflexivity.
Qed.

Lemma split_go_tokens (s : string) :
  all_chars (fun c => negb (is_space c)) (fst (split_go s)) = true
  /\ Forall (fun w => is_token w = true) (snd (split_go s)).
Proof.
  induction s as [|c s IH]; simpl; auto.
  destruct (split_go s) as [w ws]. simpl in *. destruct IH as [H1 H2].
  destruct (is_space c) eqn:E; simpl.
  - split; auto. unfold cons_nonempty.
    destruct (is_empty w) eqn:W; auto.
    constructor; auto. unfold is_token. rewrite W, H1. reflexivity.
  - rewrite E. simpl. auto.
Qed.

Lemma split_tokens (s : string) : Forall (fun w => is_token w = true) (split s).
Proof.
  unfold split. pose proof (split_go_tokens s) as [H1 H2].
  destruct (split_go s) as [w ws]. simpl in *. unfold cons_nonempty.
  destruct (is_empty w) eqn:W; auto.
  constructor; auto. unfold is_token. rewrite W, H1. reflexivity.
Qed.

Lemma split_go_token_app (w rest : string) :
  all_chars (fun c => negb (is_space c)) w = true ->
  split_go (w ++ rest)
  = (w ++ fst (split_go rest), snd (split_go rest)).
Proof.
  induction w as [|c w IH]; simpl.
  - destruct (split_go rest); reflexivity.
  - intros H. apply andb_true_iff in H. destruct H as [H1 H2].
    apply negb_true_iff in H1. rewrite (IH H2), H1. reflexivity.
Qed.

Lemma split_token_app_space (w rest : string) :
  is_token w = true -> split (w ++ " " ++ rest) = w :: split rest.
Proof.
  unfold is_token. intros H. apply andb_true_iff in H. destruct H as [H1 H2].
  unfold split. rewrite (split_go_token_app _ _ H2).
  change (split_go (" " ++ rest))
    with (let (w0, ws) := split_go rest in
          (EmptyString, cons_nonempty w0 ws)).
  destruct (split_go rest) as [w0 ws]. simpl.
  rewrite str_app_nil_r. unfold cons_nonempty at 1.
  apply negb_true_iff in H1. rewrite H1. reflexivity.
Qed.

Lemma split_join (ws : list string) :
  Forall (fun w => is_token w = true) ws -> split (join " " ws) = ws.
Proof.
  induction 1 as [|w ws Hw Hws IH]; [reflexivity|].
  destruct ws as [|w' ws'].
  - simpl. unfold is_token in Hw. apply andb_true_iff in Hw.
    destruct Hw as [H1 H2]. unfold split.
    rewrite <- (str_app_nil_r w) at 1.
    rewrite (split_go_token_app _ _ H2). simpl. rewrite str_app_nil_r.
    unfold cons_nonempty. apply negb_true_iff in H1. rewrite H1. reflexivity.
  - change (join " " (w :: w' :: ws'))
      with (w ++ " " ++ join " " (w' :: ws')).
    rewrite (split_token_app_space _ _ Hw), IH. reflexivity.
Qed.

Lemma split_go_chars (l : list char) (s : string) :
  Forall (fun d => is_space d = false) l ->
  split_go (chars l s) = (chars l (fst (split_go s)), snd (split_go s)).
Proof.
  induction 1 as [|d l Hd Hl IH]; simpl.
  - destruct (split_go s); reflexivity.
  - rewrite IH, Hd. reflexivity.
Qed.

(** The word at the head of a string ends at a whitespace character or at
    the end of the string. *)
Lemma split_go_head (s : string) :
  exists rest,
    s = fst (split_go s) ++ rest
    /\ match rest with
       | EmptyString => True
       | String c _ => is_space c = true
       end.
Proof.
  induction s as [|c s IH]; simpl.
  - exists EmptyString. auto.
  - destruct (split_go s) as [w ws]. simpl in *.
    destruct (is_space c) eqn:E; simpl.
    + exists (String c s). auto.
    + destruct IH as (rest & E1 & E2). exists rest. split; auto.
      congruence.
Qed.

Lemma final_after_head (s : string) :
  final_after (fst (split_go s)) = final_after s.
Proof.
  destruct (split_go_head s) as (rest & E & R).
  destruct rest as [|c rest].
  - rewrite str_app_nil_r in E. congruence.
  - rewrite E at 2. symmetry. apply final_after_break.
    apply is_space_break. exact R.
Qed.

Lemma split_go_lower_from (before : bool) (s : string) :
  split_go (lower_from before s)
  = (lower_from before (fst (split_go s)), map lower (snd (split_go s))).
Proof.
  revert before. induction s as [|c s IH]; intros before; [reflexivity|].
  destruct (is_space c) eqn:E.
  - destruct (is_space_plain c E) as (_ & _ & C & I & F & N).
    apply N.eqb_neq in N.
    simpl. rewrite N, F, I, C, E. simpl. rewrite E, IH.
    destruct (split_go s) as [w ws]. simpl.
    rewrite cons_nonempty_lower. reflexivity.
  - pose proof (final_after_head s) as FA.
    simpl. specialize (IH (if is_case_ignorable c then before
                           else is_cased c)).
    destruct (split_go s) as [w ws]. simpl in *. rewrite E. simpl.
    rewrite FA. destruct (c =? 931)%N.
    + simpl. rewrite IH. simpl.
      replace (is_space (if before && final_after s then 962%N else 963%N))
        with false by (destruct (before && final_after s); reflexivity).
      reflexivity.
    + rewrite split_go_chars, IH; [reflexivity|].
      destruct (full_lower_image c) as [H _].
      eapply Forall_impl; [|exact H]. intros d [_ Hd]. auto.
Qed.

Lemma split_lower (s : string) : split (lower s) = map lower (split s).
Proof.
  unfold split, lower. rewrite split_go_lower_from.
  destruct (split_go s) as [w ws]. simpl. apply cons_nonempty_lower.
Qed.

Lemma lower_join_space (l : list string) :
  lower (join " " l) = join " " (map lower l).
Proof. apply (lower_join_break 32%N). reflexivity. Qed.

Lemma normalize_title_words (s : string) :
  split (normalize_title s) = map lower (split s).
Proof.
  unfold normalize_title. rewrite split_lower, split_join; auto.
  apply split_tokens.
Qed.

(** X2.  [normalize_title] keeps the words of the title, lower-cased, and
    nothing else: the words of the result are the lower-cased words of the
    input, the result is trimmed, two titles with the same words up to case
    have the same normal form, and normalizing twice changes nothing. *)
Theorem normalize_title_normal_form :
  (forall s, split (normalize_title s) = map lower (split s))
  /\ (forall s, normalize_title s = join " " (map lower (split s)))
  /\ (forall s t, map lower (split s) = map lower (split t)
                  <-> normalize_title s = normalize_title t)
  /\ (forall s, normalize_title (normalize_title s) = normalize_title s)
  /\ normalize_title " The  Fox " = normalize_title "the fox".
Proof.
  assert (J : forall s, normalize_title s = join " " (map lower (split s))).
  { intros s. unfold normalize_title. apply lower_join_space. }
  split; [exact normalize_title_words|]. split; [exact J|]. split; [|split].
  - intros s t. split.
    + intros H. rewrite !J, H. reflexivity.
    + intros H. rewrite <- !normalize_title_words, H. reflexivity.
  - intros s. rewrite (J (normalize_title s)), normalize_title_words.
    rewrite map_map, J. f_equal. apply map_ext. intros w. apply lower_idem.
  - reflexivity.
Qed.

(** ** The author pattern and [LIKE] *)

Lemma like_skip (p s1 s2 : string) :
  like_match p s2 = true -> like_match ("%" ++ p) (s1 ++ s2) = true.
Proof.
  intros H. induction s1 as [|c s1 IH].
  - destruct s2 as [|d s2]; simpl in *; rewrite H; reflexivity.
  - change (like_match ("%" ++ p) (String c s1 ++ s2))
      with (like_match p (String c (s1 ++ s2))
            || like_match ("%" ++ p) (s1 ++ s2)).
    rewrite IH. apply orb_true_r.
Qed.

Lemma like_same_prefix (w p s : string) :
  like_match p s = true -> like_match (w ++ p) (w ++ s) = true.
Proof.
  intros H. induction w as [|c w IH]; [exact H|].
  destruct (N.eqb c 37) eqn:E.
  - apply N.eqb_eq in E. subst c.
    apply (like_skip (w ++ p) "%" (w ++ s)). exact IH.
  - simpl. rewrite E, IH, N.eqb_refl, orb_true_r. reflexivity.
Qed.

Lemma like_chain_weave (g0 : string) (wgs : list (string * string)) :
  like_match (like_chain (map fst wgs)) (g0 ++ weave wgs) = true.
Proof.
  revert g0. induction wgs as [|[w g] rest IH]; intros g0; simpl.
  - rewrite str_app_nil_r. apply like_match_percent.
  - apply (like_skip (w ++ like_chain (map fst rest)) g0).
    apply like_same_prefix. apply IH.
Qed.

Lemma c_str_no_nul (s : string) : no_nul s = true -> c_str s = s.
Proof.
  unfold no_nul. induction s as [|c s IH]; simpl; auto.
  intros H. apply andb_true_iff in H. destruct H as [H1 H2].
  apply negb_true_iff in H1. rewrite H1, (IH H2). reflexivity.
Qed.

Lemma no_nul_app (s t : string) :
  no_nul (s ++ t) = no_nul s && no_nul t.
Proof.
  unfold no_nul. induction s as [|c s IH]; simpl; auto.
  rewrite IH. apply andb_assoc.
Qed.

Lemma no_nul_sql_lower (s : string) : no_nul (sql_lower s) = no_nul s.
Proof.
  unfold no_nul. induction s as [|c s IH]; simpl; auto.
  rewrite IH. f_equal. unfold lower_char.
  destruct (is_upper c) eqn:U; auto.
  unfold is_upper in U. char_arith. char_goal.
Qed.

Lemma no_nul_like_chain (wgs : list (string * string)) :
  no_nul (weave wgs) = true -> no_nul (like_chain (map fst wgs)) = true.
Proof.
  induction wgs as [|[w g] rest IH]; simpl; auto.
  rewrite !no_nul_app. intros H.
  apply andb_true_iff in H. destruct H as [H1 H].
  apply andb_true_iff in H. destruct H as [_ H].
  change (no_nul (String 37%N (w ++ like_chain (map fst rest))))
    with (no_nul (w ++ like_chain (map fst rest))).
  rewrite no_nul_app, H1, (IH H). reflexivity.
Qed.

Lemma replace_char_token (w : string) :
  all_chars (fun c => negb (is_space c)) w = true ->
  replace_char (chr " ") (chr "%") w = w.
Proof.
  unfold chr. induction w as [|c w IH]; simpl; auto.
  intros H. apply andb_true_iff in H. destruct H as [H1 H2].
  rewrite (IH H2). destruct (N.eqb c 32) eqn:E; auto.
  apply N.eqb_eq in E. subst c. discriminate.
Qed.

Lemma replace_char_app (a b : char) (s t : string) :
  replace_char a b (s ++ t) = replace_char a b s ++ replace_char a b t.
Proof. induction s as [|c s IH]; simpl; congruence. Qed.

Lemma pattern_chain (ws : list string) :
  Forall (fun w => is_token w = true) ws -> ws <> [] ->
  "%" ++ replace_char (chr " ") (chr "%") (join " " ws) ++ "%"
  = like_chain ws.
Proof.
  induction 1 as [|w ws Hw Hws IH]; [congruence|]. intros _.
  unfold is_token in Hw. apply andb_true_iff in Hw. destruct Hw as [_ Hw].
  destruct ws as [|w' ws'].
  - cbn [join String.concat]. rewrite (replace_char_token _ Hw).
    reflexivity.
  - change (join " " (w :: w' :: ws'))
      with (w ++ " " ++ join " " (w' :: ws')).
    rewrite !replace_char_app, (replace_char_token _ Hw).
    change (like_chain (w :: w' :: ws'))
      with ("%" ++ w ++ like_chain (w' :: ws')).
    rewrite <- IH by discriminate.
    rewrite !str_app_assoc. reflexivity.
Qed.

Lemma is_token_lower (w : string) :
  is_token w = true -> is_token (lower w) = true.
Proof.
  unfold is_token. intros H. apply andb_true_iff in H.
  destruct H as [H1 H2]. rewrite is_empty_lower, H1. simpl.
  apply lower_from_no_space. exact H2.
Qed.

Lemma make_author_like_pattern_chain (name : string) :
  split name <> [] ->
  make_author_like_pattern name = like_chain (map lower (split name)).
Proof.
  intros H. unfold make_author_like_pattern.
  rewrite lower_join_space. apply pattern_chain.
  - apply Forall_forall. intros w Hin. apply in_map_iff in Hin.
    destruct Hin as [x [<- Hx]]. apply is_token_lower.
    pose proof (split_tokens name) as T. rewrite Forall_forall in T. auto.
  - destruct (split name); [congruence|discriminate].
Qed.

Lemma map_fst_combine {A B} (l : list A) (l' : list B) :
  List.length l' = List.length l -> map fst (combine l l') = l.
Proof.
  revert l'. induction l as [|x l IH]; intros [|y l'] L; simpl in *;
    try discriminate; auto.
  rewrite IH by lia. reflexivity.
Qed.

Lemma pattern_matches_weave (name g0 : string) (gaps : list string) :
  List.length gaps = List.length (split name) ->
  no_nul (g0 ++ weave (combine (map lower (split name)) gaps)) = true ->
  like (make_author_like_pattern name)
       (g0 ++ weave (combine (map lower (split name)) gaps)) = true.
Proof.
  intros L Z. unfold like. rewrite (c_str_no_nul _ Z).
  destruct (split name) as [|w ws] eqn:S.
  - unfold make_author_like_pattern. rewrite S. simpl.
    apply like_match_percent_percent.
  - rewrite make_author_like_pattern_chain by (rewrite S; discriminate).
    rewrite S.
    assert (F : map fst (combine (map lower (w :: ws)) gaps)
                = map lower (w :: ws)).
    { apply map_fst_combine. rewrite length_map. exact L. }
    rewrite <- F at 1.
    rewrite no_nul_app in Z. apply andb_true_iff in Z.
    destruct Z as [_ Z].
    rewrite (c_str_no_nul _ (no_nul_like_chain _ Z)).
    apply like_chain_weave.
Qed.

(** Every string is its words with the whitespace between them. *)
Lemma split_go_unweave (s : string) :
  exists g gaps,
    List.length gaps = List.length (snd (split_go s))
    /\ s = fst (split_go s) ++ g ++ weave (combine (snd (split_go s)) gaps).
Proof.
  induction s as [|c s IH].
  - exists EmptyString, []. split; reflexivity.
  - simpl. destruct (split_go s) as [w ws]. simpl in *.
    destruct IH as (g & gaps & L & E).
    destruct (is_space c); simpl.
    + unfold cons_nonempty. destruct (is_empty w) eqn:W.
      * apply is_empty_true in W. subst w. simpl in E.
        exists (String c g), gaps. split; auto. simpl. congruence.
      * exists (String c EmptyString), (g :: gaps). split; [simpl; lia|].
        simpl. rewrite E at 1. reflexivity.
    + exists g, gaps. split; auto. rewrite E at 1. reflexivity.
Qed.

Lemma split_unweave (s : string) :
  exists g0 gaps,
    List.length gaps = List.length (split s)
    /\ s = g0 ++ weave (combine (split s) gaps).
Proof.
  unfold split. destruct (split_go_unweave s) as (g & gaps & L & E).
  destruct (split_go s) as [w ws]. simpl in *. unfold cons_nonempty.
  destruct (is_empty w) eqn:W.
  - apply is_empty_true in W. subst w. exists g, gaps. auto.
  - exists EmptyString, (g :: gaps). split; [simpl; lia|]. exact E.
Qed.

Lemma has_author_like_row (db : Catalog) (pat bid : string)
    (ba : BookAuthorRow) (a : AuthorRow) :
  In ba (db_bookAuthors db) -> In a (db_authors db) ->
  ba_bookId ba = bid -> author_id a = ba_authorId ba ->
  like pat (sql_lower (author_name a)) = true ->
  has_author_like db pat bid = true.
Proof.
  intros Hba Ha E1 E2 L. unfold has_author_like.
  apply existsb_exists. exists ba. split; auto.
  rewrite E1, string_eqb_refl. simpl.
  apply existsb_exists. exists a. split; auto.
  rewrite E2, string_eqb_refl, L. reflexivity.
Qed.

(** X3.  The contributor test of the fallback lookup compares the pattern,
    whose words Python has lower-cased, with the stored name as SQLite
    lower-cases it.  A stored name passes whenever, lower-cased by SQLite,
    it holds the words of the author name, lower-cased by Python, in their
    order, whatever stands before, between and after them (middle names,
    initials, a collaborator suffix).  So a contributor stored under the
    author's own name is found when the two ways of lower-casing agree on
    the name, as they do on every name in ASCII.  They do not agree on a
    capital letter outside ASCII: a contributor stored as [Éric Vuillard]
    is not found for the author [Éric Vuillard]. *)
Theorem author_pattern_matches_its_words :
  (forall name stored g0 gaps,
      no_nul stored = true ->
      List.length gaps = List.length (split name) ->
      sql_lower stored
      = g0 ++ weave (combine (map lower (split name)) gaps) ->
      like (make_author_like_pattern name) (sql_lower stored) = true)
  /\ (forall db name bid ba a,
         In ba (db_bookAuthors db) -> In a (db_authors db) ->
         ba_bookId ba = bid -> author_id a = ba_authorId ba ->
         author_name a = name ->
         no_nul name = true -> lower name = sql_lower name ->
         has_author_like db (make_author_like_pattern name) bid = true)
  /\ (forall name, all_chars is_ascii name = true ->
                   lower name = sql_lower name)
  /\ like (make_author_like_pattern "Éric Vuillard")
          (sql_lower "Éric Vuillard") = false.
Proof.
  assert (P1 : forall name stored g0 gaps,
             no_nul stored = true ->
             List.length gaps = List.length (split name) ->
             sql_lower stored
             = g0 ++ weave (combine (map lower (split name)) gaps) ->
             like (make_author_like_pattern name) (sql_lower stored)
             = true).
  { intros name stored g0 gaps Z L E. rewrite E.
    apply pattern_matches_weave; auto.
    rewrite <- E, no_nul_sql_lower. exact Z. }
  split; [exact P1|]. split; [|split; [exact lower_ascii|reflexivity]].
  intros db name bid ba a Hba Ha E1 E2 E3 Z LS.
  apply (has_author_like_row db _ bid ba a); auto.
  rewrite E3.
  destruct (split_unweave (lower name)) as (g0 & gaps & L & E).
  rewrite split_lower in E, L. rewrite length_map in L.
  apply (P1 name name g0 gaps); auto. rewrite <- LS. exact E.
Qed.

Lemma author_pattern_matches_its_words_witness :
  make_author_like_pattern "James  Patterson" = "%james%patterson%"
  /\ like (make_author_like_pattern "James  Patterson")
          (sql_lower "Dr. James B. Patterson Jr") = true.
Proof.
  split; [reflexivity|].
  pose proof author_pattern_matches_its_words as [H _].
  apply (H "James  Patterson" "Dr. James B. Patterson Jr" "dr. "
           [" b. "; " jr"]); reflexivity.
Defined.

(** ** The extractor and the index of the overview *)

Lemma parse_authors_stripped (s : string) :
  map strip (parse_authors s) = parse_authors s.
Proof.
  rewrite <- (map_id (parse_authors s)) at 2. apply map_ext_in.
  intros x H. apply parse_authors_elem in H. destruct H as [H _].
  apply strip_id. exact H.
Qed.

(** X4.  The extractor turns every entry of a list into one record, in
    the order of the list, and drops none, whatever the entry holds: the
    records carry the entries' ranks, their titles and ISBNs are trimmed,
    their authors are trimmed, not empty and distinct up to case, the list
    name is the list's, and no catalog identifier is set. *)
Theorem extract_books_from_list_shape (list_obj : NytList) :
  List.length (extract_books_from_list list_obj)
  = List.length (books list_obj)
  /\ map rank (extract_books_from_list list_obj)
     = map j_rank (books list_obj)
  /\ Forall (fun b =>
               trimmed (title b) = true
               /\ trimmed (isbn b) = true
               /\ Forall (fun a => trimmed a = true /\ is_empty a = false)
                         (authors b)
               /\ NoDup (map lower (authors b))
               /\ nyt_list b = get_default (list_name_encoded list_obj) ""
               /\ abs_book_id b = None)
            (extract_books_from_list list_obj).
Proof.
  unfold extract_books_from_list. split; [apply length_map|]. split.
  - rewrite map_map. reflexivity.
  - apply Forall_forall. intros b H. apply in_map_iff in H.
    destruct H as [e [<- _]]. unfold extract_book. simpl.
    rewrite parse_authors_stripped.
    split; [apply strip_trimmed|]. split; [apply strip_trimmed|].
    split; [|split; [|split; reflexivity]].
    + apply Forall_forall. intros a Ha. apply parse_authors_elem in Ha.
      destruct Ha as [H1 H2]. split; auto. apply is_empty_false. exact H2.
    + unfold parse_authors. destruct (is_empty _); [constructor|].
      rewrite dedup_ci_first_occurrences. apply nub_ci_NoDup.
Qed.

(** X5.  The author text of a record is the entry's [author] when that is
    present and not empty, whatever [contributor] holds, and the entry's
    [contributor] otherwise; the ISBN is the trimmed [primary_isbn13] when
    that is present and not empty, and the trimmed [primary_isbn10]
    otherwise.  Neither is normalized. *)
Theorem extract_book_precedence (list_obj : NytList) (b : NytBook) :
  (forall a, j_author b = Some a -> is_empty a = false ->
             authors (extract_book list_obj b) = parse_authors a)
  /\ (py_or (j_author b) "" = "" ->
      authors (extract_book list_obj b)
      = parse_authors (py_or (j_contributor b) ""))
  /\ (forall i, j_primary_isbn13 b = Some i -> is_empty i = false ->
                isbn (extract_book list_obj b) = strip i)
  /\ (py_or (j_primary_isbn13 b) "" = "" ->
      isbn (extract_book list_obj b)
      = strip (py_or (j_primary_isbn10 b) "")).
Proof.
  unfold extract_book. simpl. rewrite parse_authors_stripped.
  split; [|split; [|split]].
  - intros a Ha Hn. rewrite Ha. simpl. rewrite Hn. reflexivity.
  - destruct (j_author b) as [a|]; auto. simpl.
    destruct (is_empty a) eqn:E; auto. intros H. subst a. discriminate.
  - intros i Hi Hn. rewrite Hi. simpl. rewrite Hn. reflexivity.
  - destruct (j_primary_isbn13 b) as [i|]; auto. simpl.
    destruct (is_empty i) eqn:E; auto. intros H. subst i. discriminate.
Qed.

Lemma extract_book_precedence_witness :
  authors (extract_book ex_list_A ex_entry_both) = ["Ann Lee"]
  /\ isbn (extract_book ex_list_A ex_entry_both) = "9780306406157"
  /\ authors (extract_book ex_list_A ex_entry_fallback) = ["Bo Yi"]
  /\ isbn (extract_book ex_list_A ex_entry_fallback) = "0306406152".
Proof.
  pose proof (extract_book_precedence ex_list_A ex_entry_both)
    as [H1 [_ [H3 _]]].
  pose proof (extract_book_precedence ex_list_A ex_entry_fallback)
    as [_ [H2 [_ H4]]].
  split; [|split; [|split]].
  - rewrite (H1 "by Ann Lee"); reflexivity.
  - rewrite (H3 " 9780306406157 "); reflexivity.
  - rewrite H2; reflexivity.
  - rewrite H4; reflexivity.
Defined.

Lemma find_snoc {A} (f : A -> bool) (l : list A) (x : A) :
  find f (l ++ [x])%list
  = match find f l with
    | Some y => Some y
    | None => if f x then Some x else None
    end.
Proof.
  induction l as [|y l IH]; simpl; auto.
  destruct (f y); auto.
Qed.

Lemma overview_to_index_go_get (lists : list NytList)
    (idx : list (string * NytList)) (slug : string) :
  dict_get slug (overview_to_index_go lists idx)
  = match find (named slug) (rev lists) with
    | Some lst => Some lst
    | None => dict_get slug idx
    end.
Proof.
  revert idx. induction lists as [|lst rest IH]; intros idx; simpl; auto.
  rewrite find_snoc. unfold named at 2.
  destruct (list_name_encoded lst) as [key|] eqn:K.
  - destruct (is_empty key) eqn:E; simpl.
    + rewrite IH. destruct (find (named slug) (rev rest)); reflexivity.
    + rewrite IH, dict_get_set.
      destruct (find (named slug) (rev rest)); auto.
      destruct (String.eqb slug key); reflexivity.
  - rewrite IH. destruct (find (named slug) (rev rest)); reflexivity.
Qed.

(** X6.  Looking a name up in the index of the overview gives the last
    list of the overview that has this name; it gives nothing when no list
    has it, and nothing for the empty name. *)
Theorem overview_to_index_last_wins (overview : list NytList)
    (slug : string) :
  dict_get slug (overview_to_index overview)
  = find (named slug) (rev overview)
  /\ dict_get "" (overview_to_index overview) = None
  /\ (dict_get slug (overview_to_index overview) = None
      <-> Forall (fun lst => named slug lst = false) overview).
Proof.
  assert (G : forall s, dict_get s (overview_to_index overview)
                        = find (named s) (rev overview)).
  { intros s. unfold overview_to_index. rewrite overview_to_index_go_get.
    destruct (find (named s) (rev overview)); reflexivity. }
  split; [apply G|]. split.
  - rewrite G. destruct (find (named "") (rev overview)) as [l|] eqn:F; auto.
    apply find_some in F. destruct F as [_ F]. unfold named in F.
    destruct (list_name_encoded l) as [k|]; [|discriminate].
    destruct k; discriminate.
  - rewrite G, Forall_forall. split.
    + intros F l Hl. apply (find_none _ _ F). apply in_rev in Hl. exact Hl.
    + intros H. destruct (find (named slug) (rev overview)) as [l|] eqn:F;
        auto.
      apply find_some in F. destruct F as [F1 F2].
      apply in_rev in F1. rewrite (H l F1) in F2. discriminate.
Qed.

(** ** Invariants of the merge *)

Lemma dict_get_none {V} (k : string) (d : list (string * V)) :
  dict_get k d = None <-> ~ In k (dict_keys d).
Proof.
  induction d as [|[k0 v0] d IH]; simpl.
  - tauto.
  - destruct (String.eqb k k0) eqn:E.
    + apply string_eqb_eq in E. subst. split; [discriminate|tauto].
    + apply string_eqb_neq in E. rewrite IH. split.
      * intros H [H1|H1]; auto.
      * tauto.
Qed.

Lemma dict_set_absent {V} (k : string) (v : V) (d : list (string * V)) :
  dict_get k d = None -> dict_set k v d = (d ++ [(k, v)])%list.
Proof.
  induction d as [|[k0 v0] d IH]; simpl; auto.
  destruct (String.eqb k k0); [discriminate|].
  intros H. rewrite (IH H). reflexivity.
Qed.

Lemma dict_set_Forall {V} (P : string * V -> Prop) (k : string) (v : V)
    (d : list (string * V)) :
  Forall P d -> P (k, v) -> Forall P (dict_set k v d).
Proof.
  intros H Hk. induction H as [|[k0 v0] d H0 Hd IH]; simpl.
  - constructor; auto.
  - destruct (String.eqb k k0) eqn:E.
    + apply string_eqb_eq in E. subst. constructor; auto.
    + constructor; auto.
Qed.

Lemma dict_get_In {V} (k : string) (v : V) (d : list (string * V)) :
  dict_get k d = Some v -> In (k, v) d.
Proof.
  induction d as [|[k0 v0] d IH]; simpl; [discriminate|].
  destruct (String.eqb k k0) eqn:E.
  - apply string_eqb_eq in E. intros [= ->]. subst. auto.
  - auto.
Qed.

Lemma merge_step_ok (m : list (string * Book)) (bk : Book) :
  merged_ok m -> merged_ok (merge_step m bk).
Proof.
  intros [H1 H2]. unfold merge_step.
  destruct (dict_get (merge_key bk) m) as [old|] eqn:G.
  - destruct (incoming_wins bk old); [|split; auto]. split.
    + rewrite (dict_keys_set_present _ _ _ _ G). exact H1.
    + apply dict_set_Forall; auto.
  - split.
    + rewrite (dict_set_absent _ _ _ G). unfold dict_keys.
      rewrite map_app. simpl. apply NoDup_app; auto.
      * repeat constructor. simpl. tauto.
      * intros x Hx [<-|[]]. apply dict_get_none in G. auto.
    + apply dict_set_Forall; auto.
Qed.

Lemma merge_books_ok (bks : list Book) (m : list (string * Book)) :
  merged_ok m -> merged_ok (merge_books m bks).
Proof.
  unfold merge_books. revert m.
  induction bks as [|bk rest IH]; intros m H; simpl; auto.
  apply IH, merge_step_ok, H.
Qed.

Lemma merge_books_app (a b : list Book) (m : list (string * Book)) :
  merge_books m (a ++ b) = merge_books (merge_books m a) b.
Proof. unfold merge_books. apply fold_left_app. Qed.

Lemma merge_group_books (idx : list (string * NytList))
    (list_slugs : list string) (m : list (string * Book)) :
  fold_left (merge_slug idx) list_slugs m
  = merge_books m (group_books idx list_slugs).
Proof.
  revert m. induction list_slugs as [|slug rest IH]; intros m; simpl; auto.
  rewrite IH, merge_books_app. unfold merge_slug.
  destruct (dict_get slug idx); reflexivity.
Qed.

Lemma merged_ok_key (m : list (string * Book)) (k : string) (st : Book) :
  merged_ok m -> dict_get k m = Some st -> merge_key st = k.
Proof.
  intros [_ H] G. apply dict_get_In in G.
  rewrite Forall_forall in H. apply (H _ G).
Qed.

Lemma merged_ok_values (m : list (string * Book)) :
  merged_ok m -> map merge_key (dict_values m) = dict_keys m.
Proof.
  intros [_ H]. unfold dict_values, dict_keys. rewrite map_map.
  induction H as [|kb m Hk _ IH]; simpl; congruence.
Qed.

(** X7.  The merge of a group is the fold of the merge step over the
    records of its lists, taken list after list in the configured order; a
    list that the snapshot does not hold adds nothing, and a group none of
    whose lists is in the snapshot is empty. *)
Theorem merge_group_is_fold (idx : list (string * NytList))
    (list_slugs : list string) :
  merge_group idx list_slugs
  = merge_books [] (group_books idx list_slugs)
  /\ (forall a b, group_books idx (a ++ b)%list
                  = (group_books idx a ++ group_books idx b)%list)
  /\ (Forall (fun slug => dict_get slug idx = None) list_slugs ->
      group_result idx list_slugs = []).
Proof.
  split; [apply merge_group_books|]. split.
  - intros a b. unfold group_books. apply flat_map_app.
  - intros H. unfold group_result, merge_group.
    rewrite merge_group_books.
    replace (group_books idx list_slugs) with (@nil Book); [reflexivity|].
    symmetry. induction H as [|slug rest Hs _ IH]; simpl; auto.
    rewrite Hs. exact IH.
Qed.

Lemma merge_group_is_fold_witness :
  group_result (overview_to_index [ex_list_A; ex_list_B]) ["C"; ""] = [].
Proof.
  pose proof (merge_group_is_fold (overview_to_index [ex_list_A; ex_list_B])
                ["C"; ""]) as [_ [_ H]].
  apply H. repeat constructor.
Defined.

(** X8.  In the merged map of a group every key occurs once and every
    record is stored under its own merge key, so the sequence the group
    produces holds at most one entry for a merge key. *)
Theorem merged_keys_unique (idx : list (string * NytList))
    (list_slugs : list string) :
  merged_ok (merge_group idx list_slugs)
  /\ NoDup (map merge_key (group_result idx list_slugs)).
Proof.
  assert (H : merged_ok (merge_group idx list_slugs)).
  { unfold merge_group. rewrite merge_group_books.
    apply merge_books_ok. split; constructor. }
  split; [exact H|].
  unfold group_result.
  eapply Permutation_NoDup.
  - apply Permutation_map. symmetry. apply sorted_perm.
  - rewrite (merged_ok_values _ H). apply H.
Qed.

Lemma rank_le_refl (a : option Z) : rank_le a a.
Proof. destruct a; simpl; auto. apply Z.le_refl. Qed.

Lemma rank_le_trans (a b c : option Z) :
  rank_le a b -> rank_le b c -> rank_le a c.
Proof.
  destruct a, b, c; simpl; auto; try tauto. apply Z.le_trans.
Qed.

Lemma incoming_wins_rank (bk old : Book) :
  rank_le (rank (if incoming_wins bk old then bk else old)) (rank bk)
  /\ rank_le (rank (if incoming_wins bk old then bk else old)) (rank old).
Proof.
  destruct (incoming_wins bk old) eqn:W.
  - split; [apply rank_le_refl|].
    apply incoming_wins_iff in W. destruct W as (r & Hr & [Ho|(ro & Ho & L)]);
      rewrite Hr, Ho; simpl; auto; lia.
  - split; [|apply rank_le_refl].
    unfold incoming_wins in W.
    destruct (rank bk) as [r|], (rank old) as [ro|]; simpl; auto;
      try discriminate.
    apply Z.ltb_ge in W. exact W.
Qed.

Lemma winner_rank (m : list (string * Book)) (bk : Book) :
  rank_le (rank (winner m bk)) (rank bk)
  /\ (winner m bk = bk \/ dict_get (merge_key bk) m = Some (winner m bk))
  /\ forall old, dict_get (merge_key bk) m = Some old ->
                 rank_le (rank (winner m bk)) (rank old)
                 /\ (winner m bk = old \/ winner m bk = bk).
Proof.
  unfold winner. destruct (dict_get (merge_key bk) m) as [old|] eqn:G.
  - destruct (incoming_wins_rank bk old) as [R1 R2].
    split; [exact R1|]. split.
    + destruct (incoming_wins bk old); auto.
    + intros o [= <-]. split; [exact R2|].
      destruct (incoming_wins bk old); auto.
  - split; [apply rank_le_refl|]. split; auto. discriminate.
Qed.

(** What is stored under a key only gets better, and is the record stored
    before or one of the records folded. *)
Lemma merge_books_improves (bks : list Book) (m : list (string * Book))
    (k : string) (old : Book) :
  dict_get k m = Some old ->
  exists st,
    dict_get k (merge_books m bks) = Some st
    /\ rank_le (rank st) (rank old)
    /\ (st = old \/ In st bks).
Proof.
  unfold merge_books. revert m old.
  induction bks as [|bk rest IH]; intros m old G; simpl.
  - exists old. split; auto. split; [apply rank_le_refl|auto].
  - assert (G' : exists x, dict_get k (merge_step m bk) = Some x
                           /\ rank_le (rank x) (rank old)
                           /\ (x = old \/ x = bk)).
    { rewrite merge_step_get. destruct (String.eqb k (merge_key bk)) eqn:E.
      - apply string_eqb_eq in E. subst k.
        destruct (winner_rank m bk) as [_ [_ W]].
        destruct (W old G) as [W1 W2]. eauto.
      - exists old. split; auto. split; [apply rank_le_refl|auto]. }
    destruct G' as (x & Gx & Rx & Mx).
    destruct (IH _ _ Gx) as (st & Gs & Rs & Ms).
    exists st. split; auto. split; [eapply rank_le_trans; eauto|].
    destruct Ms as [->|Ms]; [|auto]. destruct Mx as [->| ->]; auto.
Qed.

Lemma merge_books_represents (bks : list Book) (m : list (string * Book))
    (bk : Book) :
  In bk bks ->
  exists st,
    dict_get (merge_key bk) (merge_books m bks) = Some st
    /\ rank_le (rank st) (rank bk)
    /\ (In st bks \/ exists k, dict_get k m = Some st).
Proof.
  revert m. induction bks as [|b rest IH]; intros m H; [destruct H|].
  destruct H as [->|H].
  - assert (G : dict_get (merge_key bk) (merge_step m bk)
                = Some (winner m bk))
      by (rewrite merge_step_get, string_eqb_refl; reflexivity).
    destruct (merge_books_improves rest _ _ _ G) as (st & Gs & Rs & Ms).
    destruct (winner_rank m bk) as [W1 [W2 _]].
    exists st. split; [exact Gs|]. split; [eapply rank_le_trans; eauto|].
    destruct Ms as [->|Ms]; [|left; right; exact Ms].
    destruct W2 as [W2|W2]; [left; left; auto|right; eauto].
  - destruct (IH (merge_step m b) H) as (st & Gs & Rs & Ms).
    exists st. split; [exact Gs|]. split; [exact Rs|].
    destruct Ms as [Ms|[k Gk]]; [left; right; exact Ms|].
    rewrite merge_step_get in Gk.
    destruct (String.eqb k (merge_key b)) eqn:E; [|right; eauto].
    injection Gk as <-. destruct (winner_rank m b) as [_ [W2 _]].
    destruct W2 as [W2|W2]; [left; left; auto|right; eauto].
Qed.

(** X9.  Every record of every list of a group that the snapshot holds is
    represented in the sequence the group produces: the sequence has an
    entry with the record's merge key, which is one of the group's records
    as a whole, and whose rank is at least as good as the record's. *)
Theorem group_result_best_rank (idx : list (string * NytList))
    (list_slugs : list string) (slug : string) (lst : NytList) (bk : Book) :
  In slug list_slugs ->
  dict_get slug idx = Some lst ->
  In bk (extract_books_from_list lst) ->
  exists st,
    In st (group_result idx list_slugs)
    /\ merge_key st = merge_key bk
    /\ rank_le (rank st) (rank bk)
    /\ In st (group_books idx list_slugs).
Proof.
  intros Hs Hl Hb.
  assert (Hin : In bk (group_books idx list_slugs)).
  { unfold group_books. apply in_flat_map. exists slug. split; auto.
    rewrite Hl. exact Hb. }
  destruct (merge_books_represents _ [] _ Hin) as (st & G & R & M).
  assert (Hok : merged_ok (merge_books [] (group_books idx list_slugs)))
    by (apply merge_books_ok; split; constructor).
  exists st. split; [|split; [|split]].
  - unfold group_result, merge_group. rewrite merge_group_books.
    eapply Permutation_in; [symmetry; apply sorted_perm|].
    apply dict_get_In in G. unfold dict_values.
    apply in_map_iff. exists (merge_key bk, st). auto.
  - apply (merged_ok_key _ _ _ Hok G).
  - exact R.
  - destruct M as [M|[k M]]; [exact M|discriminate].
Qed.

Lemma group_result_best_rank_witness :
  exists st,
    In st (group_result (overview_to_index ex_overview) ["A"; "B"])
    /\ merge_key st = "111"
    /\ rank_le (rank st) (Some 3%Z).
Proof.
  destruct (group_result_best_rank (overview_to_index ex_overview)
              ["A"; "B"] "A"
              (mkNytList (Some "A")
                 [mkNytBook (Some "Foo") None None (Some "111") None
                            (Some 3%Z)])
              (Book_init "Foo" [] "111" "A" (Some 3%Z) None))
    as (st & H1 & H2 & H3 & _).
  - simpl. auto.
  - reflexivity.
  - simpl. auto.
  - exists st. auto.
Defined.

(** ** [build_abs_collections] over the configured groups *)

Lemma dict_get_app_other {V} (k k' : string) (v : V)
    (d : list (string * V)) :
  String.eqb k k' = false ->
  dict_get k (d ++ [(k', v)])%list = dict_get k d.
Proof.
  intros E. induction d as [|[k0 v0] d IH]; simpl.
  - rewrite E. reflexivity.
  - destruct (String.eqb k k0); auto.
Qed.

Lemma build_fold_distinct {V} (f : list string -> V)
    (mapping : list (string * list string)) (acc : list (string * V)) :
  NoDup (map fst mapping) ->
  (forall n, In n (map fst mapping) -> dict_get n acc = None) ->
  fold_left (fun collections '(coll_name, list_slugs) =>
               dict_set coll_name (f list_slugs) collections)
            mapping acc
  = (acc ++ map (fun '(n, sl) => (n, f sl)) mapping)%list.
Proof.
  revert acc. induction mapping as [|[n sl] rest IH]; intros acc N H; simpl.
  - rewrite app_nil_r. reflexivity.
  - inversion N as [|? ? Hn Hrest]; subst.
    rewrite (dict_set_absent n (f sl) acc) by (apply H; simpl; auto).
    rewrite IH; auto.
    + rewrite <- app_assoc. reflexivity.
    + intros n' Hn'. rewrite dict_get_app_other.
      * apply H. simpl. auto.
      * apply string_eqb_neq. intros ->. auto.
Qed.

(** X10.  For a mapping whose group names are distinct, as the keys of a
    dictionary are, [build_abs_collections] gives every configured group,
    in the configured order, the sequence of its own lists; a group none
    of whose lists is in the snapshot is there too, with no record. *)
Theorem build_abs_collections_per_group (overview : list NytList)
    (mapping : list (string * list string)) :
  NoDup (map fst mapping) ->
  build_abs_collections overview mapping
  = map (fun '(name, list_slugs) =>
           (name, group_result (overview_to_index overview) list_slugs))
        mapping.
Proof.
  intros N. unfold build_abs_collections.
  rewrite (build_fold_distinct (group_result (overview_to_index overview)))
    by auto.
  reflexivity.
Qed.

Lemma build_abs_collections_per_group_witness :
  map fst (build_abs_collections ex_overview
             [("G", ["A"; "B"]); ("H", ["C"])])
  = ["G"; "H"]
  /\ dict_get "H" (build_abs_collections ex_overview
                     [("G", ["A"; "B"]); ("H", ["C"])])
     = Some [].
Proof.
  rewrite build_abs_collections_per_group.
  - split; reflexivity.
  - repeat constructor; simpl; intuition discriminate.
Defined.

(** ** What the ISBN lookup can match *)

Lemma isbn_norm_char_lower_inv (c : char) :
  isbn_norm_char (lower_char c) = true -> isbn_char c = true.
Proof.
  unfold isbn_norm_char, isbn_char, is_digit, lower_char.
  destruct (is_upper c) eqn:U; unfold is_upper in U; intros H;
    char_arith; char_goal.
Qed.

Lemma isbn_char_not_hyphen (c : char) :
  isbn_char c = true -> N.eqb (lower_char c) 45 = false.
Proof.
  intros H. apply isbn_char_lower in H.
  destruct (N.eqb (lower_char c) 45) eqn:E; auto.
  apply N.eqb_eq in E. rewrite E in H. discriminate.
Qed.

Lemma lower_char_hyphen (c : char) : lower_char c = 45%N -> c = 45%N.
Proof.
  unfold lower_char. destruct (is_upper c) eqn:U; auto.
  unfold is_upper in U. char_arith. lia.
Qed.

Lemma stored_key_clean (si : string) :
  all_chars isbn_or_hyphen si = true ->
  filter_chars (fun c => negb (N.eqb c 45)) (sql_lower si)
  = normalize_isbn si.
Proof.
  rewrite normalize_isbn_sql_lower.
  induction si as [|c si IH]; simpl; auto.
  intros H. apply andb_true_iff in H. destruct H as [H1 H2].
  unfold isbn_or_hyphen in H1.
  destruct (isbn_char c) eqn:E.
  - rewrite (isbn_char_not_hyphen _ E). simpl. rewrite (IH H2). reflexivity.
  - simpl in H1. apply N.eqb_eq in H1. subst c. simpl. apply IH, H2.
Qed.

Lemma stored_key_dirty (si : string) :
  all_chars isbn_or_hyphen si = false ->
  all_chars isbn_norm_char
    (filter_chars (fun c => negb (N.eqb c 45)) (sql_lower si))
  = false.
Proof.
  induction si as [|c si IH]; simpl; [discriminate|].
  intros H. apply andb_false_iff in H.
  destruct (N.eqb (lower_char c) 45) eqn:Hy; simpl.
  - destruct H as [H|H]; [|auto].
    exfalso. unfold isbn_or_hyphen in H. apply orb_false_iff in H.
    destruct H as [_ H]. apply N.eqb_eq in Hy.
    apply lower_char_hyphen in Hy. subst c. discriminate.
  - destruct H as [H|H].
    + apply andb_false_iff. left.
      destruct (isbn_norm_char (lower_char c)) eqn:N; auto.
      apply isbn_norm_char_lower_inv in N. unfold isbn_or_hyphen in H.
      rewrite N in H. discriminate.
    + apply andb_false_iff. right. auto.
Qed.

(** X11.  The ISBN lookup reads a stored ISBN without its hyphens and in
    lower case, and nothing more.  A stored ISBN of digits, [X] and hyphens
    is matched by exactly the raw ISBNs that have its normal form; a stored
    ISBN with any other character, a space for instance, is matched by no
    raw ISBN at all, and neither is a missing one. *)
Theorem stored_isbn_matching (db : Catalog) (lib raw : string)
    (b : BookRow) :
  (forall si, book_isbn b = Some si ->
              all_chars isbn_or_hyphen si = true ->
              where_isbn db (normalize_isbn raw) lib b
              = String.eqb (normalize_isbn si) (normalize_isbn raw)
                && in_library db lib (book_id b))
  /\ (forall si, book_isbn b = Some si ->
                 all_chars isbn_or_hyphen si = false ->
                 where_isbn db (normalize_isbn raw) lib b = false)
  /\ (book_isbn b = None ->
      is_empty (normalize_isbn raw) = false ->
      where_isbn db (normalize_isbn raw) lib b = false).
Proof.
  unfold where_isbn, stored_isbn_key. split; [|split].
  - intros si E H. rewrite E. simpl. rewrite (stored_key_clean _ H).
    reflexivity.
  - intros si E H. rewrite E. simpl.
    destruct (String.eqb _ (normalize_isbn raw)) eqn:Q; auto.
    apply string_eqb_eq in Q. apply stored_key_dirty in H.
    rewrite Q, normalize_isbn_chars in H. discriminate.
  - intros E H. rewrite E. simpl.
    destruct (normalize_isbn raw); [discriminate|reflexivity].
Qed.

Lemma stored_isbn_matching_witness :
  where_isbn ex_db (normalize_isbn "1 1-1") "lib1"
             (mkBookRow "cat-42" (Some "Foo") (Some "1-11")) = true
  /\ where_isbn ex_db (normalize_isbn "111") "lib1"
                (mkBookRow "cat-42" (Some "Foo") (Some "1 11")) = false
  /\ where_isbn ex_db (normalize_isbn "111") "lib1"
                (mkBookRow "cat-42" (Some "Foo") None) = false.
Proof.
  split; [|split].
  - pose proof (stored_isbn_matching ex_db "lib1" "1 1-1"
                  (mkBookRow "cat-42" (Some "Foo") (Some "1-11")))
      as [H _].
    rewrite (H "1-11"); reflexivity.
  - pose proof (stored_isbn_matching ex_db "lib1" "111"
                  (mkBookRow "cat-42" (Some "Foo") (Some "1 11")))
      as [_ [H _]].
    apply (H "1 11"); reflexivity.
  - pose proof (stored_isbn_matching ex_db "lib1" "111"
                  (mkBookRow "cat-42" (Some "Foo") None))
      as [_ [_ H]].
    apply H; reflexivity.
Defined.

(** ** The resolver and the library *)

Lemma isbn_strategy_in_library (db : Catalog) (isbn lib id : string) :
  isbn_strategy db isbn lib = Some id ->
  exists row, In row (db_books db) /\ book_id row = id
              /\ in_library db lib id = true.
Proof.
  unfold isbn_strategy. destruct (is_empty isbn); [discriminate|].
  destruct (is_empty (normalize_isbn isbn)); [discriminate|].
  destruct (select_by_isbn _ lib db) as [r|] eqn:E; [|discriminate].
  intros [= <-]. apply find_some in E. destruct E as [E1 E2].
  unfold where_isbn in E2. apply andb_true_iff in E2.
  exists r. tauto.
Qed.

Lemma author_strategy_in_library (db : Catalog) (title a lib id : string) :
  author_strategy db title a lib = Some id ->
  exists row, In row (db_books db) /\ book_id row = id
              /\ in_library db lib id = true.
Proof.
  unfold author_strategy. destruct (is_empty (normalize_title title));
    [discriminate|].
  destruct (select_by_author_title _ _ lib db) as [r|] eqn:E;
    [|discriminate].
  intros [= <-]. apply find_some in E. destruct E as [E1 E2].
  unfold where_author_title in E2. apply andb_true_iff in E2.
  exists r. tauto.
Qed.

(** X12.  Whatever the resolver returns is the identifier of a book of the
    catalog that has an item in the given library: a book of another
    library is never returned, in whatever state the catalog is. *)
Theorem resolve_stays_in_library (w : World) (b : Book) (lib : string) :
  match resolve_abs_id_for_book b lib w with
  | Ok (Some id) _ =>
      exists row, In row (db_books (current w)) /\ book_id row = id
                  /\ in_library (current w) lib id = true
  | _ => True
  end.
Proof.
  pose proof (resolve_reads_truthy b lib w) as R. unfold reads in R.
  destruct (resolve_abs_id_for_book b lib w) as [[id|] w'|e w']; auto.
  destruct R as [R _]. cbv zeta in R.
  destruct R as [[_ R]|[_ [a [H R]]]].
  - symmetry in R. apply isbn_strategy_in_library in R. exact R.
  - destruct (truthy a); [|discriminate]. subst a.
    destruct H as [(l1 & x & l2 & i & _ & _ & H & [= ->])|[_ H]];
      [|discriminate].
    apply author_strategy_in_library in H. exact H.
Qed.

Lemma find_book_id_by_isbn_no_key (isbn lib : string) (w : World) :
  is_empty (normalize_isbn isbn) = true ->
  find_book_id_by_isbn isbn lib w = Ok None w.
Proof.
  intros H. unfold find_book_id_by_isbn.
  destruct (is_empty isbn); [reflexivity|]. rewrite H. reflexivity.
Qed.

(** X13.  A record whose ISBN holds no digit and no [X], and which has no
    author or no word in its title, is not looked up at all: the resolver
    returns nothing without running a statement, so it cannot fail on
    such a record. *)
Theorem resolve_without_keys (w : World) (b : Book) (lib : string) :
  is_empty (normalize_isbn (isbn b)) = true ->
  authors b = [] \/ is_empty (normalize_title (title b)) = true ->
  resolve_abs_id_for_book b lib w = Ok None w.
Proof.
  intros Hi Ha. unfold resolve_abs_id_for_book. unfold bind at 1.
  rewrite (find_book_id_by_isbn_no_key _ _ _ Hi). simpl.
  unfold bind, find_book_id_by_author_title.
  destruct Ha as [Ha|Ha].
  - rewrite Ha. destruct (is_empty (normalize_title (title b))); reflexivity.
  - rewrite Ha. reflexivity.
Qed.

Lemma resolve_without_keys_witness :
  resolve_abs_id_for_book ex_book_no_keys "lib1" ex_world_failing_twice
  = Ok None ex_world_failing_twice.
Proof.
  apply resolve_without_keys.
  - reflexivity.
  - left. reflexivity.
Defined.

(** ** The group of a name *)

Lemma get_or_create_collection_ok (w : World) (name lib : string) :
  fault_free w ->
  exists w',
    get_or_create_collection name lib w = Ok (collection_id_for name w) w'
    /\ fault_free w'
    /\ current w' = catalog_after_ensure name lib w.
Proof.
  intros F. unfold get_or_create_collection, bind, utc_now_sql,
    collection_id_for, catalog_after_ensure.
  set (w1 := mkWorld (committed w) (pending w) (tick w) (faults w)
                     (S (clock w)) (uuid_next w) (stdout w)).
  assert (F1 : fault_free w1) by exact F.
  rewrite (execute_query_ok _ _ F1).
  change (current w1) with (current w).
  destruct (select_collection name (current w)) as [r|] eqn:S.
  - rewrite (execute_update_ok _ _ (fault_free_advance 1 _ F1)).
    eexists. split; [reflexivity|]. split.
    + apply fault_free_set_current, fault_free_advance,
        fault_free_advance, F1.
    + apply current_set_current.
  - unfold new_uuid. simpl.
    match goal with
    | |- context [execute_update ?u ?w2] =>
        assert (F2 : fault_free w2) by exact F;
        rewrite (execute_update_ok u w2 F2)
    end.
    eexists. split; [reflexivity|]. split.
    + apply fault_free_set_current, fault_free_advance, F2.
    + apply current_set_current.
Qed.

Lemma find_map_same {A} (p : A -> bool) (f : A -> A) (l : list A) :
  (forall x, p (f x) = p x) ->
  find p (map f l) = option_map f (find p l).
Proof.
  intros H. induction l as [|x l IH]; simpl; auto.
  rewrite H. destruct (p x); auto.
Qed.

Lemma find_app_none {A} (p : A -> bool) (l : list A) (x : A) :
  find p l = None -> p x = true -> find p (l ++ [x])%list = Some x.
Proof.
  intros H Hx. rewrite find_snoc, H, Hx. reflexivity.
Qed.

Lemma select_after_ensure (name lib : string) (w : World) :
  exists r,
    select_collection name (catalog_after_ensure name lib w) = Some r
    /\ coll_id r = collection_id_for name w
    /\ coll_name r = name.
Proof.
  unfold catalog_after_ensure, collection_id_for, select_collection.
  destruct (find _ (db_collections (current w))) as [r|] eqn:S.
  - simpl. rewrite find_map_same.
    + rewrite S. simpl. exists
        (if String.eqb (coll_id r) (coll_id r) then touch (clock w) r
         else r).
      split; [reflexivity|]. rewrite string_eqb_refl. simpl.
      apply find_some in S. destruct S as [_ S].
      apply string_eqb_eq in S. auto.
    + intros x. destruct (String.eqb (coll_id x) (coll_id r)); reflexivity.
  - simpl. rewrite (find_app_none _ _ _ S).
    + eexists. split; [reflexivity|]. auto.
    + simpl. apply string_eqb_refl.
Qed.

(** X14.  Asking twice for the group of a name gives the same identifier:
    the second call finds the group the first one found or created, even
    when it is given another library, and adds no group.  Neither call
    touches a membership row. *)
Theorem get_or_create_collection_twice (w : World) (name lib lib' : string) :
  fault_free w ->
  exists cid w1 w2,
    get_or_create_collection name lib w = Ok cid w1
    /\ get_or_create_collection name lib' w1 = Ok cid w2
    /\ List.length (db_collections (current w2))
       = List.length (db_collections (current w1))
    /\ db_collectionBooks (current w1) = db_collectionBooks (current w)
    /\ db_collectionBooks (current w2) = db_collectionBooks (current w).
Proof.
  intros F.
  destruct (get_or_create_collection_ok w name lib F) as (w1 & E1 & F1 & C1).
  destruct (get_or_create_collection_ok w1 name lib' F1)
    as (w2 & E2 & F2 & C2).
  destruct (select_after_ensure name lib w) as (r & S & Hid & Hn).
  rewrite <- C1 in S.
  assert (Hc : collection_id_for name w1 = collection_id_for name w).
  { unfold collection_id_for at 1. rewrite S. exact Hid. }
  exists (collection_id_for name w), w1, w2.
  split; [exact E1|]. split; [rewrite <- Hc; exact E2|].
  assert (B1 : db_collectionBooks (current w1)
               = db_collectionBooks (current w)).
  { rewrite C1. unfold catalog_after_ensure.
    destruct (select_collection name (current w)); reflexivity. }
  split; [|split; [exact B1|]].
  - rewrite C2. unfold catalog_after_ensure. rewrite S. simpl.
    apply length_map.
  - rewrite C2. unfold catalog_after_ensure. rewrite S. simpl. exact B1.
Qed.

Lemma get_or_create_collection_twice_witness :
  exists cid w1 w2,
    get_or_create_collection "NY Times Best Sellers" "lib1" (quiet ex_db)
    = Ok cid w1
    /\ get_or_create_collection "NY Times Best Sellers" "lib2" w1
       = Ok cid w2
    /\ List.length (db_collections (current w2)) = 1.
Proof.
  destruct (get_or_create_collection_twice (quiet ex_db)
              "NY Times Best Sellers" "lib1" "lib2" (fun n => eq_refl))
    as (cid & w1 & w2 & E1 & E2 & L & _).
  exists cid, w1, w2. split; [exact E1|]. split; [exact E2|].
  rewrite L. vm_compute in E1. injection E1 as _ <-. reflexivity.
Defined.

(** ** [upsert_abs_collection_with_books] *)

Lemma membership_after_ensure (name lib cid : string) (w : World) :
  membership (catalog_after_ensure name lib w) cid
  = membership (current w) cid.
Proof.
  unfold catalog_after_ensure.
  destruct (select_collection name (current w)); reflexivity.
Qed.

Lemma upsert_ok (w : World) (name lib_name lib : string)
    (books : list Book) :
  fault_free w ->
  exists w',
    upsert_abs_collection_with_books name books lib_name (Some lib) w
    = Ok (collection_id_for name w) w'
    /\ fault_free w'
    /\ (exists r, select_collection name (current w') = Some r
                  /\ coll_id r = collection_id_for name w)
    /\ db_collections (current w')
       = db_collections (catalog_after_ensure name lib w)
    /\ forall cid,
         membership (current w') cid
         = if String.eqb cid (collection_id_for name w)
           then enumerate 1 (nub (resolved_ids books))
           else membership (current w) cid.
Proof.
  intros F. unfold upsert_abs_collection_with_books.
  unfold bind at 1. unfold ret at 1. unfold bind at 1.
  destruct (get_or_create_collection_ok w name lib F) as (w1 & E1 & F1 & C1).
  rewrite E1. unfold bind.
  destruct (replace_collection_books_ok w1 (collection_id_for name w) books
              F1) as (w2 & E2 & F2 & M2).
  rewrite E2. exists w2. split; [reflexivity|]. split; [exact F2|].
  assert (Hc : db_collections (current w2) = db_collections (current w1)).
  { clear -E2 F1. revert E2.
    unfold replace_collection_books, bind, utc_now_sql.
    match goal with
    | |- context [execute_update ?u ?wa] =>
        assert (Fa : fault_free wa) by exact F1;
        rewrite (execute_update_ok u wa Fa)
    end.
    set (wb := set_current _ _).
    assert (Cb : db_collections (current wb) = db_collections (current w1)).
    { unfold wb. rewrite current_set_current. reflexivity. }
    assert (Fb : fault_free wb)
      by (apply fault_free_set_current, fault_free_advance, Fa).
    destruct (unique_ids [] books) as [|x ids].
    - intros [= <-]. exact Cb.
    - destruct (build_payload_ok (clock w1) (collection_id_for name w)
                  (x :: ids) 1 wb) as (rows & wc & Ec & Cc & Fc & _).
      rewrite Ec.
      assert (Fc' : fault_free wc) by (intros n; rewrite Fc; apply Fb).
      destruct (executemany_insert_ok rows wc Fc') as (wd & Ed & _ & Cd).
      rewrite Ed. intros [= <-]. rewrite Cd, Cc. exact Cb. }
  split; [|split].
  - destruct (select_after_ensure name lib w) as (r & S & Hid & _).
    exists r. split; [|exact Hid].
    unfold select_collection in *. rewrite Hc, C1. exact S.
  - rewrite Hc, C1. reflexivity.
  - intros cid. rewrite M2, C1, membership_after_ensure. reflexivity.
Qed.

(** X15.  With the library given, [upsert_abs_collection_with_books]
    returns the identifier of the group of that name, which exists
    afterwards, and the group's membership is then the identifiers the
    records carry, first occurrences only, at positions 1, 2, ...; the
    membership of every other group is what it was. *)
Theorem upsert_sets_membership (w : World) (name lib_name lib : string)
    (books : list Book) :
  fault_free w ->
  exists cid w',
    upsert_abs_collection_with_books name books lib_name (Some lib) w
    = Ok cid w'
    /\ (exists r, select_collection name (current w') = Some r
                  /\ coll_id r = cid)
    /\ membership (current w') cid = enumerate 1 (nub (resolved_ids books))
    /\ forall cid', String.eqb cid' cid = false ->
                    membership (current w') cid'
                    = membership (current w) cid'.
Proof.
  intros F. destruct (upsert_ok w name lib_name lib books F)
    as (w' & E & _ & S & _ & M).
  exists (collection_id_for name w), w'.
  split; [exact E|]. split; [exact S|]. split.
  - rewrite M, string_eqb_refl. reflexivity.
  - intros cid' N. rewrite M, N. reflexivity.
Qed.

Lemma upsert_sets_membership_witness :
  exists cid w',
    upsert_abs_collection_with_books "NY Times Best Sellers"
      ex_books_resolved "books" (Some "lib1") (quiet ex_db_stale)
    = Ok cid w'
    /\ membership (current w') cid = [(1, "cat-42"); (2, "cat-7")].
Proof.
  destruct (upsert_sets_membership (quiet ex_db_stale)
              "NY Times Best Sellers" "books" "lib1" ex_books_resolved
              (fun n => eq_refl))
    as (cid & w' & E & _ & M & _).
  exists cid, w'. split; [exact E|]. exact M.
Defined.

(** ** Phase 1: enrich and filter *)

Lemma author_loop_ok (tnorm : string) (authors : list string)
    (lib : string) (w : World) :
  fault_free w ->
  exists n,
    author_loop tnorm authors lib w
    = Ok (author_loop_value (current w) tnorm authors lib) (advance n w).
Proof.
  revert w. induction authors as [|a rest IH]; intros w F; simpl.
  - exists 0. unfold ret. f_equal. destruct w; reflexivity.
  - unfold bind. rewrite (execute_query_ok _ _ F).
    destruct (select_by_author_title tnorm (make_author_like_pattern a) lib
                (current w)) as [r|].
    + exists 1. reflexivity.
    + destruct (IH (advance 1 w) (fault_free_advance 1 w F)) as [n E].
      rewrite E. exists (n + 1). rewrite advance_advance. reflexivity.
Qed.

Lemma resolve_ok (b : Book) (lib : string) (w : World) :
  fault_free w ->
  exists n,
    resolve_abs_id_for_book b lib w
    = Ok (resolve_value (current w) b lib) (advance n w).
Proof.
  intros F. unfold resolve_abs_id_for_book, resolve_value. unfold bind at 1.
  destruct (reads_total _ _ _ F (find_book_id_by_isbn_reads (isbn b) lib w))
    as (a & n & E & ->).
  rewrite E. cbv zeta.
  destruct (truthy (isbn_strategy (current w) (isbn b) lib)).
  - exists n. reflexivity.
  - unfold bind, find_book_id_by_author_title.
    change (current w) with (current (advance n w)).
    destruct (is_empty (normalize_title (title b))).
    + exists n. reflexivity.
    + destruct (author_loop_ok (normalize_title (title b)) (authors b) lib
                  (advance n w) (fault_free_advance n w F)) as [m E'].
      rewrite E'. exists (m + n). rewrite advance_advance.
      destruct (truthy _); reflexivity.
Qed.

Lemma mem_str_iff (k : string) (l : list string) :
  mem_str k l = true <-> In k l.
Proof.
  induction l as [|x l IH]; simpl.
  - split; [discriminate|tauto].
  - rewrite orb_true_iff, IH, string_eqb_eq. split; intros [H|H]; auto.
Qed.

Lemma resolved_ids_app (a b : list Book) :
  resolved_ids (a ++ b) = (resolved_ids a ++ resolved_ids b)%list.
Proof. unfold resolved_ids. apply flat_map_app. Qed.

Lemma resolved_ids_truthy (b : Book) (l : list Book) :
  truthy (abs_book_id b) = true ->
  resolved_ids (b :: l) = get_default (abs_book_id b) "" :: resolved_ids l.
Proof.
  unfold resolved_ids, truthy. simpl.
  destruct (abs_book_id b) as [i|]; [|discriminate].
  destruct (is_empty i); [discriminate|reflexivity].
Qed.

Lemma subseq_refl_nil {A} (l : list A) : subseq [] l.
Proof. induction l; constructor; auto. Qed.

Lemma resolve_value_unresolved (db : Catalog) (b : Book) (a : option string)
    (lib : string) :
  resolve_value db (set_abs_book_id b a) lib = resolve_value db b lib.
Proof. reflexivity. Qed.

Lemma enrich_step_ok (lib : string) (seen : list string)
    (kept : list Book) (b : Book) (w : World) :
  fault_free w ->
  exists n,
    enrich_step lib (seen, kept) b w
    = Ok (let a := resolve_value (current w) b lib in
          if negb (truthy a) || mem_str (get_default a "") seen
          then (seen, kept)
          else (get_default a "" :: seen,
                (kept ++ [set_abs_book_id b a])%list))
         (advance n w).
Proof.
  intros F. unfold enrich_step, bind.
  destruct (resolve_ok b lib w F) as [n E]. rewrite E. exists n. cbv zeta.
  destruct (negb _ || _); reflexivity.
Qed.

Lemma enrich_loop_ok (lib : string) (books : list Book) (w : World)
    (seen : list string) (kept0 : list Book) :
  fault_free w ->
  exists seen' kept n,
    for_each books (enrich_step lib) (seen, kept0) w
    = Ok (seen', (kept0 ++ kept)%list) (advance n w)
    /\ kept_ok (current w) lib seen books kept.
Proof.
  revert w seen kept0. induction books as [|b rest IH];
    intros w seen kept0 F.
  - exists seen, [], 0. split.
    + simpl. unfold ret. rewrite app_nil_r. f_equal. destruct w; reflexivity.
    + unfold kept_ok. simpl.
      repeat split; auto; try constructor; try (intros ? []).
  - change (for_each (b :: rest) (enrich_step lib) (seen, kept0) w)
      with (bind (enrich_step lib (seen, kept0) b)
                 (fun s' => for_each rest (enrich_step lib) s') w).
    unfold bind. destruct (enrich_step_ok lib seen kept0 b w F) as [n E].
    rewrite E. cbv zeta.
    set (a := resolve_value (current w) b lib).
    destruct (negb (truthy a) || mem_str (get_default a "") seen) eqn:D.
    + destruct (IH (advance n w) seen kept0 (fault_free_advance n w F))
        as (seen' & kept & m & E' & K).
      rewrite E'. exists seen', kept, (m + n).
      split; [rewrite advance_advance; reflexivity|].
      change (current (advance n w)) with (current w) in K.
      destruct K as (K1 & K2 & K3 & K4 & K5).
      unfold kept_ok. repeat split; auto.
      * apply (subseq_skip (unresolved b)). exact K4.
      * intros b0 [<-|Hb] T; [|apply K5; auto].
        fold a in T |- *. cbv zeta. rewrite T in D. simpl in D.
        left. apply mem_str_iff. exact D.
    + apply orb_false_iff in D. destruct D as [D1 D2].
      apply negb_false_iff in D1.
      destruct (IH (advance n w) (get_default a "" :: seen)
                   (kept0 ++ [set_abs_book_id b a])%list
                   (fault_free_advance n w F))
        as (seen' & kept & m & E' & K).
      rewrite E'.
      exists seen', (set_abs_book_id b a :: kept), (m + n).
      split.
      { rewrite advance_advance, <- app_assoc. reflexivity. }
      change (current (advance n w)) with (current w) in K.
      destruct K as (K1 & K2 & K3 & K4 & K5).
      assert (Hn : ~ In (get_default a "") (resolved_ids kept)).
      { intros H. apply (K3 _ H). left. reflexivity. }
      unfold kept_ok.
      rewrite (resolved_ids_truthy (set_abs_book_id b a) kept D1).
      change (abs_book_id (set_abs_book_id b a)) with a.
      repeat split.
      * constructor; auto.
      * constructor; auto.
      * intros i [<-|Hi].
        -- intros H. apply mem_str_iff in H. congruence.
        -- intros H. apply (K3 _ Hi). right. exact H.
      * apply (subseq_take (unresolved b)). exact K4.
      * intros b0 [<-|Hb] T.
        -- right. left. reflexivity.
        -- destruct (K5 b0 Hb T) as [[H|H]|H].
           ++ right. left. exact H.
           ++ left. exact H.
           ++ right. right. exact H.
Qed.

Lemma nub_NoDup_id (l : list string) : NoDup l -> nub l = l.
Proof.
  induction 1 as [|x l Hx Hl IH]; simpl; auto.
  rewrite IH. f_equal.
  clear -Hx. induction l as [|y l IH]; simpl; auto.
  destruct (String.eqb y x) eqn:E.
  - apply string_eqb_eq in E. subst. exfalso. apply Hx. left. reflexivity.
  - simpl. rewrite IH; auto. intros H. apply Hx. right. exact H.
Qed.

Lemma resolved_ids_all_truthy (l : list Book) :
  Forall (fun b => truthy (abs_book_id b) = true) l ->
  resolved_ids l = map (fun b => get_default (abs_book_id b) "") l.
Proof.
  induction 1 as [|b l Hb _ IH]; [reflexivity|].
  rewrite (resolved_ids_truthy _ _ Hb), IH. reflexivity.
Qed.

(** X16.  When no statement fails, the records phase 1 keeps are records
    of the input in their order, each with the identifier the resolver
    finds for it, which is not empty, and no identifier is kept twice; a
    record is left out only when the resolver finds nothing for it or its
    identifier was kept before.  So the de-duplication of
    [replace_collection_books] removes nothing, and the number of rows it
    writes is the number of records printed. *)
Theorem enrich_and_filter_keeps_distinct (w : World) (lib : string)
    (books : list Book) :
  fault_free w ->
  exists kept n,
    enrich_and_filter lib books w = Ok kept (advance n w)
    /\ kept_ok (current w) lib [] books kept
    /\ unique_ids [] kept
       = map (fun b => get_default (abs_book_id b) "") kept
    /\ List.length (unique_ids [] kept) = List.length kept.
Proof.
  intros F. unfold enrich_and_filter, bind.
  destruct (enrich_loop_ok lib books w [] [] F) as (seen' & kept & n & E & K).
  rewrite E. exists kept, n. split; [reflexivity|]. split; [exact K|].
  destruct K as (K1 & K2 & _).
  assert (T : Forall (fun b => truthy (abs_book_id b) = true) kept).
  { eapply Forall_impl; [|exact K1]. intros b [H _]. exact H. }
  assert (U : unique_ids [] kept
              = map (fun b => get_default (abs_book_id b) "") kept).
  { rewrite unique_ids_first_occurrences, (nub_NoDup_id _ K2).
    apply resolved_ids_all_truthy. exact T. }
  split; [exact U|]. rewrite U. apply length_map.
Qed.

Lemma enrich_and_filter_keeps_distinct_witness :
  exists kept n,
    enrich_and_filter "lib1"
      [ex_book_isbn; ex_book_unknown; ex_book_author; ex_book_isbn]
      (quiet ex_db)
    = Ok kept (advance n (quiet ex_db))
    /\ List.length (unique_ids [] kept) = List.length kept.
Proof.
  destruct (enrich_and_filter_keeps_distinct (quiet ex_db) "lib1"
              [ex_book_isbn; ex_book_unknown; ex_book_author; ex_book_isbn]
              (fun n => eq_refl))
    as (kept & n & E & _ & _ & L).
  exists kept, n. split; [exact E|exact L].
Defined.

(** ** The script writes two tables only *)

Lemma same_library_refl (db : Catalog) : same_library db db.
Proof. unfold same_library. auto. Qed.

Lemma keeps_ret {A} (a : A) : keeps (ret a).
Proof. intros db0 w H. exact H. Qed.

Lemma keeps_raise {A} (e : exn) : keeps (@raise A e).
Proof. intros db0 w H. exact H. Qed.

Lemma keeps_bind {A B} (m : M A) (k : A -> M B) :
  keeps m -> (forall a, keeps (k a)) -> keeps (bind m k).
Proof.
  intros Hm Hk db0 w H. unfold bind. specialize (Hm db0 w H).
  destruct (m w) as [a w1|e w1]; auto. apply (Hk a db0 w1 Hm).
Qed.

Lemma keeps_step : keeps step.
Proof.
  intros db0 w H. rewrite step_eq. destruct (faults w (tick w)); exact H.
Qed.

Lemma keeps_query {A} (q : Catalog -> A) : keeps (execute_query q).
Proof.
  apply keeps_bind; [apply keeps_step|]. intros _ db0 w H. exact H.
Qed.

Lemma keeps_update (u : Catalog -> Catalog) :
  (forall db, same_library db (u db)) -> keeps (execute_update u).
Proof.
  intros Hu. apply keeps_bind; [apply keeps_step|].
  intros _ db0 w [H1 H2]. unfold set_current, current.
  destruct (pending w) as [p|] eqn:P; simpl.
  - split; auto. intros p' [= <-].
    destruct (H2 p eq_refl) as (A1 & A2 & A3 & A4 & A5).
    destruct (Hu p) as (B1 & B2 & B3 & B4 & B5).
    unfold same_library. repeat split; congruence.
  - split; [|discriminate].
    destruct H1 as (A1 & A2 & A3 & A4 & A5).
    destruct (Hu (committed w)) as (B1 & B2 & B3 & B4 & B5).
    unfold same_library. simpl. repeat split; congruence.
Qed.

Lemma keeps_begin : keeps begin_immediate.
Proof.
  apply keeps_bind; [apply keeps_step|]. intros _ db0 w H.
  destruct (pending w) eqn:P; [exact H|].
  destruct H as [H1 H2]. split; [exact H1|].
  simpl. intros p [= <-]. exact H1.
Qed.

Lemma keeps_commit : keeps commit.
Proof.
  apply keeps_bind; [apply keeps_step|]. intros _ db0 w H.
  destruct (pending w) as [p|] eqn:P; [|exact H].
  destruct H as [H1 H2]. split; [apply H2; exact P|].
  simpl. discriminate.
Qed.

Lemma keeps_rollback : keeps rollback.
Proof.
  apply keeps_bind; [apply keeps_step|]. intros _ db0 w H.
  destruct (pending w) as [p|] eqn:P; [|exact H].
  destruct H as [H1 H2]. split; [exact H1|].
  simpl. discriminate.
Qed.

Lemma keeps_now : keeps utc_now_sql.
Proof. intros db0 w H. exact H. Qed.

Lemma keeps_uuid : keeps new_uuid.
Proof. intros db0 w H. exact H. Qed.

Lemma keeps_print (line : string * string * nat) : keeps (print line).
Proof.
  apply keeps_bind; [apply keeps_step|]. intros _ db0 w H. exact H.
Qed.

Lemma keeps_for_each {A S} (l : list A) (body : S -> A -> M S) (s : S) :
  (forall s x, keeps (body s x)) -> keeps (for_each l body s).
Proof.
  intros Hb. revert s. induction l as [|x l IH]; intros s; simpl.
  - apply keeps_ret.
  - apply keeps_bind; auto.
Qed.

Lemma keeps_try {A} (body : M A) (handler : M unit) :
  keeps body -> keeps handler -> keeps (try_except_reraise body handler).
Proof.
  intros Hb Hh db0 w H. unfold try_except_reraise.
  specialize (Hb db0 w H). destruct (body w) as [a w1|e w1]; auto.
  specialize (Hh db0 w1 Hb). destruct (handler w1); exact Hh.
Qed.

Lemma keeps_update_collection (now : Timestamp) (cid : string) :
  keeps (execute_update (update_collection_updatedAt now cid)).
Proof.
  apply keeps_update. intros db. unfold same_library. simpl. auto.
Qed.

Lemma keeps_insert_collection (cid name : string) (now : Timestamp)
    (lib : string) :
  keeps (execute_update (insert_collection cid name now lib)).
Proof.
  apply keeps_update. intros db. unfold same_library. simpl. auto.
Qed.

Lemma keeps_delete_collection_books (cid : string) :
  keeps (execute_update (delete_collection_books cid)).
Proof.
  apply keeps_update. intros db. unfold same_library. simpl. auto.
Qed.

Lemma keeps_insert_collection_book (r : CollectionBookRow) :
  keeps (execute_update (insert_collection_book r)).
Proof.
  apply keeps_update. intros db. unfold same_library. simpl. auto.
Qed.

#[local] Hint Resolve keeps_ret keeps_raise keeps_step keeps_query
  keeps_begin keeps_commit keeps_rollback keeps_now keeps_uuid keeps_print
  keeps_update_collection keeps_insert_collection
  keeps_delete_collection_books keeps_insert_collection_book : tx.

Ltac keeps_step_tac :=
  match goal with
  | |- keeps (bind _ _) => apply keeps_bind; [|intros]
  | |- keeps (for_each _ _ _) => apply keeps_for_each; intros
  | |- keeps (try_except_reraise _ _) => apply keeps_try
  | |- keeps (match ?x with _ => _ end) => destruct x
  | |- keeps _ => solve [auto with tx]
  end.

Ltac keeps_auto := repeat keeps_step_tac.

Lemma keeps_author_loop (tnorm : string) (authors : list string)
    (lib : string) : keeps (author_loop tnorm authors lib).
Proof.
  induction authors as [|a rest IH]; simpl; keeps_auto; auto.
Qed.

Lemma keeps_resolve (b : Book) (lib : string) :
  keeps (resolve_abs_id_for_book b lib).
Proof.
  unfold resolve_abs_id_for_book, find_book_id_by_isbn,
    find_book_id_by_author_title.
  pose proof keeps_author_loop. keeps_auto; auto.
Qed.

Lemma keeps_build_payload (now : Timestamp) (cid : string) (i : nat)
    (ids : list string) : keeps (build_payload now cid i ids).
Proof.
  revert i. induction ids as [|x ids IH]; intros i; simpl; keeps_auto; auto.
Qed.

Lemma keeps_main_sync (collections : list (string * list Book)) :
  keeps (main_sync collections).
Proof.
  unfold main_sync, get_library_id, phase_enrich, enrich_and_filter,
    enrich_step, phase_sync, upsert_abs_collection_with_books,
    get_or_create_collection, replace_collection_books, executemany_insert,
    get_library_id.
  pose proof keeps_resolve. pose proof keeps_build_payload.
  keeps_auto; auto.
Qed.

(** X17.  However a run of [main] ends, the libraries, books, authors,
    book-author links and library items that are committed afterwards are
    those committed before: the script writes groups and membership rows
    and nothing else. *)
Theorem main_writes_only_groups (overview : list NytList)
    (mapping : list (string * list string)) (w : World) :
  pending w = None ->
  match main overview mapping w with
  | Ok _ w' => same_library (committed w) (committed w')
  | Raise _ w' => same_library (committed w) (committed w')
  end.
Proof.
  intros P. unfold main.
  assert (K : world_keeps (committed w) w).
  { split; [apply same_library_refl|]. rewrite P. discriminate. }
  pose proof (keeps_main_sync (build_abs_collections overview mapping)
                (committed w) w K) as H.
  destruct (main_sync _ w); destruct H as [H _]; exact H.
Qed.

Lemma main_writes_only_groups_witness :
  match main ex_overview [("G", ["A"; "B"])] (quiet ex_db) with
  | Ok _ w' => db_books (committed w') = db_books ex_db
  | Raise _ _ => False
  end.
Proof.
  pose proof (main_writes_only_groups ex_overview [("G", ["A"; "B"])]
                (quiet ex_db) eq_refl) as H.
  remember (main ex_overview [("G", ["A"; "B"])] (quiet ex_db)) as r eqn:E.
  vm_compute in E. subst r. destruct H as (_ & H & _). exact H.
Defined.

(** ** A whole run *)

Lemma get_library_id_ok (name : string) (w : World) (r : LibraryRow) :
  faults w (tick w) = false ->
  select_library name (current w) = Some r ->
  get_library_id name w = Ok (library_id r) (advance 1 w).
Proof.
  intros F S. unfold get_library_id, execute_query, bind.
  rewrite step_eq, F. change (current (advance 1 w)) with (current w).
  rewrite S. reflexivity.
Qed.

Lemma get_library_id_missing (name : string) (w : World) :
  faults w (tick w) = false ->
  select_library name (current w) = None ->
  exists msg, get_library_id name w = Raise (RuntimeError msg) (advance 1 w).
Proof.
  intros F S. unfold get_library_id, execute_query, bind.
  rewrite step_eq, F. change (current (advance 1 w)) with (current w).
  rewrite S. eexists. reflexivity.
Qed.

Lemma begin_immediate_ok (w : World) :
  fault_free w -> pending w = None ->
  begin_immediate w
  = Ok tt (set_tx (committed w) (Some (committed w)) (advance 1 w)).
Proof.
  intros F P. unfold begin_immediate, bind. rewrite step_eq, F.
  change (pending (advance 1 w)) with (pending w). rewrite P. reflexivity.
Qed.

Lemma commit_ok (w : World) (p : Catalog) :
  fault_free w -> pending w = Some p ->
  commit w = Ok tt (set_tx p None (advance 1 w)).
Proof.
  intros F P. unfold commit, bind. rewrite step_eq, F.
  change (pending (advance 1 w)) with (pending w). rewrite P. reflexivity.
Qed.

Lemma print_ok (line : string * string * nat) (w : World) :
  fault_free w ->
  exists w', print line w = Ok tt w'
             /\ fault_free w' /\ current w' = current w.
Proof.
  intros F. unfold print, bind. rewrite step_eq, F.
  eexists. split; [reflexivity|]. split; [exact F|reflexivity].
Qed.

Lemma phase_enrich_single_ok (lib name : string) (books : list Book)
    (w : World) :
  fault_free w ->
  exists kept n,
    phase_enrich lib [(name, books)] w = Ok [(name, kept)] (advance n w)
    /\ kept_ok (current w) lib [] books kept.
Proof.
  intros F. destruct (enrich_loop_ok lib books w [] [] F)
    as (seen' & kept & n & E & K).
  exists kept, n. split; [|exact K].
  unfold phase_enrich. simpl. unfold bind, enrich_and_filter, bind.
  rewrite E. simpl. rewrite string_eqb_refl. reflexivity.
Qed.

Lemma phase_sync_single_ok (lib name : string) (kept : list Book)
    (w : World) :
  fault_free w ->
  exists w',
    phase_sync lib [(name, kept)] w = Ok tt w'
    /\ fault_free w'
    /\ (exists r, select_collection name (current w') = Some r
                  /\ coll_id r = collection_id_for name w)
    /\ membership (current w') (collection_id_for name w)
       = enumerate 1 (nub (resolved_ids kept)).
Proof.
  intros F.
  destruct (upsert_ok w name ABS_LIBRARY_NAME lib kept F)
    as (w1 & E1 & F1 & S1 & _ & M1).
  destruct (print_ok (name, collection_id_for name w, List.length kept)
                     w1 F1) as (w2 & E2 & F2 & C2).
  exists w2. split; [|split; [exact F2|]].
  - unfold phase_sync. simpl. unfold bind at 1. unfold bind at 1.
    rewrite E1, E2. reflexivity.
  - rewrite C2. split; [exact S1|].
    rewrite M1, string_eqb_refl. reflexivity.
Qed.

Lemma kept_ok_ids (db : Catalog) (lib : string) (books kept : list Book) :
  kept_ok db lib [] books kept ->
  nub (resolved_ids kept)
  = map (fun b => get_default (abs_book_id b) "") kept.
Proof.
  intros (K1 & K2 & _). rewrite (nub_NoDup_id _ K2).
  apply resolved_ids_all_truthy.
  eapply Forall_impl; [|exact K1]. intros b [H _]. exact H.
Qed.

(** X18.  With one configured group, as the script has it, a run in which
    no statement fails and whose catalog has the library commits and closes
    its transaction; afterwards the group of the configured name exists,
    and its committed membership is the identifiers of the records phase 1
    keeps of the group's sequence, in that order, at positions 1, 2, .... *)
Theorem main_single_group (overview : list NytList) (name : string)
    (list_slugs : list string) (w : World) (r : LibraryRow) :
  fault_free w ->
  pending w = None ->
  select_library ABS_LIBRARY_NAME (committed w) = Some r ->
  exists w' kept cid,
    main overview [(name, list_slugs)] w = Ok tt w'
    /\ pending w' = None
    /\ kept_ok (committed w) (library_id r) []
               (group_result (overview_to_index overview) list_slugs) kept
    /\ (exists c, select_collection name (committed w') = Some c
                  /\ coll_id c = cid)
    /\ membership (committed w') cid
       = enumerate 1 (map (fun b => get_default (abs_book_id b) "") kept).
Proof.
  intros F P L. unfold main.
  change (build_abs_collections overview [(name, list_slugs)])
    with [(name, group_result (overview_to_index overview) list_slugs)].
  set (books := group_result (overview_to_index overview) list_slugs).
  assert (Cw : current w = committed w) by (unfold current; rewrite P; auto).
  unfold main_sync. unfold bind at 1.
  rewrite (get_library_id_ok _ _ r (F _)) by (rewrite Cw; exact L).
  unfold bind at 1.
  rewrite (begin_immediate_ok _ (fault_free_advance 1 w F)) by exact P.
  set (w2 := set_tx _ _ _).
  assert (F2 : fault_free w2) by exact F.
  assert (C2 : current w2 = committed w) by reflexivity.
  assert (P2 : pending w2 <> None) by discriminate.
  destruct (phase_enrich_single_ok (library_id r) name books w2 F2)
    as (kept & n & E3 & K).
  rewrite C2 in K.
  set (w3 := advance n w2) in *.
  assert (F3 : fault_free w3) by exact F.
  destruct (phase_sync_single_ok (library_id r) name kept w3 F3)
    as (w5 & E5 & F5 & S5 & M5).
  pose proof (tx_safe_phase_sync (library_id r) [(name, kept)] w3 P2) as T.
  rewrite E5 in T. destruct T as [_ P5].
  destruct (pending w5) as [p|] eqn:Pp; [|congruence].
  assert (C5 : current w5 = p) by (unfold current; rewrite Pp; auto).
  unfold try_except_reraise, bind. rewrite E3, E5.
  rewrite (commit_ok w5 p F5 Pp).
  eexists. exists kept, (collection_id_for name w3).
  split; [reflexivity|]. split; [reflexivity|]. split; [exact K|].
  simpl. rewrite <- C5. split; [exact S5|].
  rewrite M5, (kept_ok_ids _ _ _ _ K). reflexivity.
Qed.

Lemma main_single_group_witness :
  exists w' kept cid,
    main ex_overview [("G", ["A"; "B"])] (quiet ex_db) = Ok tt w'
    /\ pending w' = None
    /\ membership (committed w') cid
       = enumerate 1 (map (fun b => get_default (abs_book_id b) "") kept).
Proof.
  destruct (main_single_group ex_overview "G" ["A"; "B"] (quiet ex_db)
              (mkLibraryRow "lib1" "books") (fun n => eq_refl) eq_refl
              eq_refl)
    as (w' & kept & cid & E & P & _ & _ & M).
  exists w', kept, cid. auto.
Defined.

(** X19.  When the catalog has no library of the configured name, the run
    raises [RuntimeError] after its first statement: no transaction is
    opened, no other statement runs, and nothing is written. *)
Theorem main_without_library (overview : list NytList)
    (mapping : list (string * list string)) (w : World) :
  faults w (tick w) = false ->
  select_library ABS_LIBRARY_NAME (current w) = None ->
  exists msg,
    main overview mapping w = Raise (RuntimeError msg) (advance 1 w).
Proof.
  intros F S. unfold main, main_sync. unfold bind at 1.
  destruct (get_library_id_missing ABS_LIBRARY_NAME w F S) as [msg E].
  rewrite E. exists msg. reflexivity.
Qed.

Lemma main_without_library_witness :
  exists msg,
    main ex_overview [("G", ["A"; "B"])] (quiet ex_db_no_library)
    = Raise (RuntimeError msg) (advance 1 (quiet ex_db_no_library)).
Proof.
  apply main_without_library; reflexivity.
Defined.

(** ** What the title lookup can match *)

Lemma normalize_title_lower (s : string) :
  normalize_title (lower s) = normalize_title s.
Proof.
  unfold normalize_title. rewrite split_lower, <- lower_join_space.
  apply lower_idem.
Qed.

Lemma normalize_title_idem (s : string) :
  normalize_title (normalize_title s) = normalize_title s.
Proof.
  unfold normalize_title at 1. rewrite normalize_title_words.
  rewrite <- lower_join_space, lower_idem. reflexivity.
Qed.

(** X20.  The title lookup compares the normalized title of the record,
    which Python has lower-cased, with the stored title as SQLite
    lower-cases it, and with nothing else.  So a stored title is found
    only if, lower-cased by SQLite, it is a normal form already: written
    with single spaces, without whitespace at its ends and without a
    capital letter that SQLite leaves alone; a title stored as [CAFÉ] is
    found by no record, whereas [Beyoncé] is found by [BEYONCÉ].  A stored
    title in ASCII is found exactly when it is single-spaced and trimmed
    and the record's title has its normal form.  A missing title is never
    found. *)
Theorem stored_title_matching (b : BookRow) (t : string) :
  (forall st, book_title b = Some st ->
              title_is (normalize_title t) b = true ->
              normalize_title (sql_lower st) = sql_lower st
              /\ normalize_title t = sql_lower st)
  /\ (forall st, book_title b = Some st ->
                 normalize_title (sql_lower st) <> sql_lower st ->
                 title_is (normalize_title t) b = false)
  /\ (forall st, book_title b = Some st ->
                 all_chars is_ascii st = true ->
                 normalize_title st = lower st ->
                 title_is (normalize_title t) b
                 = String.eqb (normalize_title st) (normalize_title t))
  /\ (forall st, book_title b = Some st ->
                 all_chars is_ascii st = true ->
                 normalize_title st <> lower st ->
                 title_is (normalize_title t) b = false)
  /\ (book_title b = None -> title_is (normalize_title t) b = false)
  /\ title_is (normalize_title t) (mkBookRow "cat-1" (Some "CAFÉ") None)
     = false
  /\ title_is (normalize_title "BEYONCÉ")
              (mkBookRow "cat-2" (Some "Beyoncé") None) = true.
Proof.
  assert (A : forall st, sql_lower st = normalize_title t ->
                         normalize_title (sql_lower st) = sql_lower st).
  { intros st E. rewrite E. apply normalize_title_idem. }
  assert (B : forall b' st, book_title b' = Some st ->
                normalize_title (sql_lower st) <> sql_lower st ->
                title_is (normalize_title t) b' = false).
  { intros b' st E H. unfold title_is. rewrite E.
    destruct (String.eqb (sql_lower st) (normalize_title t)) eqn:Q; auto.
    apply string_eqb_eq in Q. apply A in Q. contradiction. }
  split; [|split; [|split; [|split; [|split; [|split]]]]].
  - unfold title_is. intros st -> H. apply string_eqb_eq in H.
    split; [apply A; exact H|congruence].
  - apply B.
  - unfold title_is. intros st -> H1 H2.
    rewrite <- (lower_ascii _ H1), H2. reflexivity.
  - intros st E H1 H2. apply (B b st E).
    rewrite <- (lower_ascii _ H1), normalize_title_lower. exact H2.
  - unfold title_is. intros ->. reflexivity.
  - apply (B (mkBookRow "cat-1" (Some "CAFÉ") None) "CAFÉ" eq_refl).
    vm_compute. discriminate.
  - reflexivity.
Qed.

Lemma stored_title_matching_witness :
  title_is (normalize_title " the  BAR ")
           (mkBookRow "cat-7" (Some "The Bar") None) = true
  /\ title_is (normalize_title "The Bar")
              (mkBookRow "cat-7" (Some "The  Bar") None) = false
  /\ title_is (normalize_title "École")
              (mkBookRow "cat-7" (Some "École") None) = false.
Proof.
  split; [|split].
  - pose proof (stored_title_matching
                  (mkBookRow "cat-7" (Some "The Bar") None) " the  BAR ")
      as [_ [_ [H _]]].
    rewrite (H "The Bar"); reflexivity.
  - pose proof (stored_title_matching
                  (mkBookRow "cat-7" (Some "The  Bar") None) "The Bar")
      as [_ [_ [_ [H _]]]].
    apply (H "The  Bar"); [reflexivity|reflexivity|discriminate].
  - pose proof (stored_title_matching
                  (mkBookRow "cat-7" (Some "École") None) "École")
      as [_ [H _]].
    apply (H "École"); [reflexivity|]. vm_compute. discriminate.
Defined.

(** ** The entries of a group and the records of its lists *)

Lemma merge_step_keys (m : list (string * Book)) (bk : Book) (k : string) :
  In k (dict_keys (merge_step m bk))
  <-> In k (dict_keys m) \/ k = merge_key bk.
Proof.
  unfold merge_step.
  destruct (dict_get (merge_key bk) m) as [old|] eqn:G.
  - assert (Hin : In (merge_key bk) (dict_keys m)).
    { apply dict_get_In in G. unfold dict_keys.
      apply in_map_iff. exists (merge_key bk, old). auto. }
    destruct (incoming_wins bk old).
    + rewrite (dict_keys_set_present _ _ _ _ G).
      split; [auto|]. intros [H| ->]; auto.
    + split; [auto|]. intros [H| ->]; auto.
  - rewrite (dict_set_absent _ _ _ G). unfold dict_keys.
    rewrite map_app, in_app_iff. simpl. split.
    + intros [H|[H|[]]]; auto.
    + intros [H| ->]; auto.
Qed.

Lemma merge_books_keys (bks : list Book) (m : list (string * Book))
    (k : string) :
  In k (dict_keys (merge_books m bks))
  <-> In k (dict_keys m) \/ In k (map merge_key bks).
Proof.
  unfold merge_books. revert m.
  induction bks as [|bk rest IH]; intros m; simpl.
  - tauto.
  - rewrite IH, merge_step_keys. split.
    + intros [[H|H]|H]; auto.
    + intros [H|[H|H]]; auto.
Qed.

Lemma merge_step_values (m : list (string * Book)) (bk st : Book) :
  In st (dict_values (merge_step m bk)) ->
  In st (dict_values m) \/ st = bk.
Proof.
  unfold merge_step.
  assert (S : forall k, In st (dict_values (dict_set k bk m)) ->
                        In st (dict_values m) \/ st = bk).
  { intros k. unfold dict_values.
    induction m as [|[k0 v0] m IH]; simpl.
    - intros [H|[]]; auto.
    - destruct (String.eqb k k0); simpl.
      + intros [H|H]; auto.
      + intros [H|H]; auto. destruct (IH H); auto. }
  destruct (dict_get (merge_key bk) m) as [old|]; [|apply S].
  destruct (incoming_wins bk old); [apply S|auto].
Qed.

Lemma merge_books_values (bks : list Book) (m : list (string * Book))
    (st : Book) :
  In st (dict_values (merge_books m bks)) ->
  In st (dict_values m) \/ In st bks.
Proof.
  unfold merge_books. revert m.
  induction bks as [|bk rest IH]; intros m; simpl; auto.
  intros H. destruct (IH _ H) as [H1|H1]; auto.
  destruct (merge_step_values _ _ _ H1) as [H2| ->]; auto.
Qed.

(** X21.  The sequence a group produces is made of records of the
    group's lists, and it has an entry for a merge key exactly when a
    record of those lists has this key; it is never longer than the lists
    together. *)
Theorem group_result_covers_keys (idx : list (string * NytList))
    (list_slugs : list string) :
  (forall st, In st (group_result idx list_slugs) ->
              In st (group_books idx list_slugs))
  /\ (forall k, In k (map merge_key (group_result idx list_slugs))
                <-> In k (map merge_key (group_books idx list_slugs)))
  /\ List.length (group_result idx list_slugs)
     <= List.length (group_books idx list_slugs).
Proof.
  assert (Hok : merged_ok (merge_books [] (group_books idx list_slugs)))
    by (apply merge_books_ok; split; constructor).
  assert (P : Permutation
                (group_result idx list_slugs)
                (dict_values (merge_books [] (group_books idx list_slugs)))).
  { unfold group_result, merge_group. rewrite merge_group_books.
    apply sorted_perm. }
  assert (K : forall k,
             In k (map merge_key (group_result idx list_slugs))
             <-> In k (map merge_key (group_books idx list_slugs))).
  { intros k. split.
    - intros H. apply (Permutation_in _ (Permutation_map merge_key P)) in H.
      rewrite (merged_ok_values _ Hok) in H.
      apply merge_books_keys in H. destruct H as [[]|H]. exact H.
    - intros H.
      apply (Permutation_in _ (Permutation_sym (Permutation_map merge_key P))).
      rewrite (merged_ok_values _ Hok). apply merge_books_keys. auto. }
  split; [|split; [exact K|]].
  - intros st H. apply (Permutation_in _ P) in H.
    destruct (merge_books_values _ _ _ H) as [[]|H']. exact H'.
  - rewrite <- (length_map merge_key (group_result idx list_slugs)).
    rewrite <- (length_map merge_key (group_books idx list_slugs)).
    apply NoDup_incl_length.
    + eapply Permutation_NoDup.
      * apply Permutation_map. symmetry. exact P.
      * rewrite (merged_ok_values _ Hok). apply Hok.
    + intros k. apply K.
Qed.

(** ** Reading never writes *)

Lemma no_write_ret {A} (a : A) : no_write (ret a).
Proof. intros w. simpl. auto. Qed.

Lemma no_write_raise {A} (e : exn) : no_write (@raise A e).
Proof. intros w. simpl. auto. Qed.

Lemma no_write_bind {A B} (m : M A) (k : A -> M B) :
  no_write m -> (forall a, no_write (k a)) -> no_write (bind m k).
Proof.
  intros Hm Hk w. unfold bind. specialize (Hm w).
  destruct (m w) as [a w1|e w1]; auto.
  destruct Hm as [C1 P1]. specialize (Hk a w1).
  destruct (k a w1); rewrite <- C1, <- P1; exact Hk.
Qed.

Lemma no_write_query {A} (q : Catalog -> A) : no_write (execute_query q).
Proof.
  intros w. unfold execute_query, bind. rewrite step_eq.
  destruct (faults w (tick w)); simpl; auto.
Qed.

Lemma no_write_for_each {A S} (l : list A) (body : S -> A -> M S) (s : S) :
  (forall s x, no_write (body s x)) -> no_write (for_each l body s).
Proof.
  intros Hb. revert s. induction l as [|x l IH]; intros s; simpl.
  - apply no_write_ret.
  - apply no_write_bind; auto.
Qed.

#[local] Hint Resolve no_write_ret no_write_raise no_write_query : tx.

Ltac no_write_step :=
  match goal with
  | |- no_write (bind _ _) => apply no_write_bind; [|intros]
  | |- no_write (for_each _ _ _) => apply no_write_for_each; intros
  | |- no_write (match ?x with _ => _ end) => destruct x
  | |- no_write _ => solve [auto with tx]
  end.

Ltac no_write_auto := repeat no_write_step.

Lemma no_write_author_loop (tnorm : string) (authors : list string)
    (lib : string) : no_write (author_loop tnorm authors lib).
Proof.
  induction authors as [|a rest IH]; simpl; no_write_auto; auto.
Qed.

Lemma no_write_resolve (b : Book) (lib : string) :
  no_write (resolve_abs_id_for_book b lib).
Proof.
  unfold resolve_abs_id_for_book, find_book_id_by_isbn,
    find_book_id_by_author_title.
  pose proof no_write_author_loop. no_write_auto; auto.
Qed.

(** X22.  Looking up the library, resolving a record and the whole of
    phase 1 never write: whether they return or raise, what is committed
    and what the open transaction holds are what they were.  All the
    resolution of a run is done on the catalog as it was when the
    transaction began. *)
Theorem resolution_never_writes :
  (forall name, no_write (get_library_id name))
  /\ (forall b lib, no_write (resolve_abs_id_for_book b lib))
  /\ (forall lib books, no_write (enrich_and_filter lib books))
  /\ (forall lib collections, no_write (phase_enrich lib collections)).
Proof.
  pose proof no_write_resolve as R.
  split; [|split; [exact R|split]].
  - intros name. unfold get_library_id. no_write_auto.
  - intros lib books. unfold enrich_and_filter, enrich_step.
    no_write_auto; auto.
  - intros lib collections.
    unfold phase_enrich, enrich_and_filter, enrich_step.
    no_write_auto; auto.
Qed.

(** ** Opening the connection *)

Lemma open_abs_db_loop_locked (outcome : nat -> connect_outcome)
    (k attempt remaining : nat) (last_exc : option string)
    (sleeps : list nat) :
  (forall i, i < k ->
     exists msg, outcome (attempt + i) = OperationalFailure msg
                 /\ is_lock_error msg = true) ->
  k <= remaining ->
  exists last_exc',
    open_abs_db_loop outcome attempt remaining last_exc sleeps
    = open_abs_db_loop outcome (attempt + k) (remaining - k) last_exc'
        (sleeps ++ map (Nat.pow 2) (seq attempt k))%list
    /\ (k = 0 -> last_exc' = last_exc)
    /\ (forall msg, 0 < k ->
                    outcome (attempt + k - 1) = OperationalFailure msg ->
                    last_exc' = Some msg).
Proof.
  revert attempt remaining last_exc sleeps.
  induction k as [|k IH]; intros attempt remaining last_exc sleeps H L.
  - exists last_exc. rewrite Nat.add_0_r, Nat.sub_0_r, app_nil_r.
    split; [reflexivity|]. split; [auto|]. intros msg Hk. lia.
  - destruct remaining as [|rem]; [lia|].
    destruct (H 0 ltac:(lia)) as (msg0 & E0 & L0).
    rewrite Nat.add_0_r in E0.
    destruct (IH (S attempt) rem (Some msg0) (sleeps ++ [2 ^ attempt])%list)
      as (le' & E & Z & N).
    + intros i Hi. destruct (H (S i) ltac:(lia)) as (msg & Em & Lm).
      exists msg. split; [|exact Lm]. rewrite <- Em. f_equal. lia.
    + lia.
    + exists le'. split; [|split].
      * simpl open_abs_db_loop at 1. rewrite E0, L0, E.
        rewrite <- app_assoc. simpl.
        replace (attempt + S k) with (S (attempt + k)) by lia.
        reflexivity.
      * discriminate.
      * intros msg _ Hm. destruct k as [|k'].
        -- rewrite (Z eq_refl).
           replace (attempt + 1 - 1) with attempt in Hm by lia.
           congruence.
        -- apply N; [lia|].
           rewrite <- Hm. f_equal. lia.
Qed.

Lemma pow2_sum (k : nat) :
  list_sum (map (Nat.pow 2) (seq 0 k)) = 2 ^ k - 1.
Proof.
  induction k as [|k IH]; [reflexivity|].
  rewrite seq_S, map_app, list_sum_app, IH. simpl.
  pose proof (Nat.pow_nonzero 2 k ltac:(lia)). lia.
Qed.

(** X23.  [open_abs_db] returns the connection of the first attempt that
    succeeds when every attempt before it failed on a lock, after sleeping
    [backoff] times 1, 2, 4, ... once for each failed attempt; an
    [OperationalError] that does not speak of a lock, like any other
    exception, is raised at once, with no further sleep and no further
    attempt. *)
Theorem open_abs_db_first_decisive (outcome : nat -> connect_outcome)
    (retries k : nat) :
  locked_until outcome k ->
  k < retries ->
  (outcome k = Connected ->
   open_abs_db outcome retries
   = (Opened k, map (Nat.pow 2) (seq 0 k)))
  /\ (forall msg, outcome k = OperationalFailure msg ->
                  is_lock_error msg = false ->
                  open_abs_db outcome retries
                  = (OpenRaised (OpenOperationalError msg),
                     map (Nat.pow 2) (seq 0 k)))
  /\ (outcome k = OtherFailure ->
      open_abs_db outcome retries
      = (OpenRaised OpenOtherError, map (Nat.pow 2) (seq 0 k))).
Proof.
  intros H L. unfold open_abs_db.
  destruct (open_abs_db_loop_locked outcome k 0 retries None [])
    as (le' & E & _); [exact H|lia|].
  rewrite E. simpl. destruct (retries - k) as [|rem] eqn:R; [lia|].
  split; [|split].
  - intros O. simpl. rewrite O. reflexivity.
  - intros msg O N. simpl. rewrite O, N. reflexivity.
  - intros O. simpl. rewrite O. reflexivity.
Qed.

Lemma open_abs_db_first_decisive_witness :
  open_abs_db ex_outcome_busy_twice 5 = (Opened 2, [1; 2])
  /\ open_abs_db ex_outcome_unreadable 5
     = (OpenRaised (OpenOperationalError "unable to open database file"),
        [1]).
Proof.
  split.
  - assert (H : locked_until ex_outcome_busy_twice 2).
    { intros [|[|i]] Hi; [eexists; split; reflexivity ..|lia]. }
    destruct (open_abs_db_first_decisive ex_outcome_busy_twice 5 2 H)
      as [H1 _]; [lia|].
    apply H1. reflexivity.
  - assert (H : locked_until ex_outcome_unreadable 1).
    { intros [|i] Hi; [eexists; split; reflexivity|lia]. }
    destruct (open_abs_db_first_decisive ex_outcome_unreadable 5 1 H)
      as [_ [H2 _]]; [lia|].
    apply (H2 "unable to open database file"); reflexivity.
Defined.

(** X24.  When every one of the [retries] attempts fails on a lock,
    [open_abs_db] makes no further attempt and raises the error of the
    last one, having slept after each attempt, the last included:
    [backoff] times [2 ^ retries - 1] in all.  With [retries = 0] no
    attempt is made and [raise last_exc] raises for [None]. *)
Theorem open_abs_db_gives_up (outcome : nat -> connect_outcome)
    (retries : nat) (msg : string) :
  locked_until outcome retries ->
  0 < retries ->
  outcome (retries - 1) = OperationalFailure msg ->
  open_abs_db outcome retries
  = (OpenRaised (OpenOperationalError msg),
     map (Nat.pow 2) (seq 0 retries))
  /\ list_sum (snd (open_abs_db outcome retries)) = 2 ^ retries - 1
  /\ open_abs_db outcome 0 = (OpenRaised OpenRaiseNone, []).
Proof.
  intros H L O. unfold open_abs_db.
  destruct (open_abs_db_loop_locked outcome retries 0 retries None [])
    as (le' & E & _ & N); [exact H|lia|].
  rewrite (N msg L) in E by exact O.
  rewrite Nat.sub_diag in E. simpl in E.
  split; [exact E|]. split; [|reflexivity].
  rewrite E. simpl. apply pow2_sum.
Qed.

Lemma open_abs_db_gives_up_witness :
  open_abs_db ex_outcome_always_locked 5
  = (OpenRaised (OpenOperationalError "database is locked"),
     [1; 2; 4; 8; 16]).
Proof.
  assert (H : locked_until ex_outcome_always_locked 5).
  { intros i Hi. eexists. split; reflexivity. }
  destruct (open_abs_db_gives_up ex_outcome_always_locked 5
              "database is locked" H) as [H1 _]; [lia|reflexivity|].
  exact H1.
Defined.
